(** * BusTub buffer-management core: LRU-K replacer and extendible hash table

    A shallow embedding of [src/buffer/lru_k_replacer.cpp] and
    [src/container/hash/extendible_hash_table.cpp], with the properties the
    specification states about them.

    Conventions.
    - Every member function becomes a function from the object's state to
      [option] of its results; [None] stands for undefined behaviour of the
      C++ program (erasing through an iterator of another list, indexing a
      vector out of range, shifting an [int] past its width).
    - [size_t] values are integers in [0, 2^64) with the wrap-around of
      [++] and [--] written out.
    - The recursion of [InsertInternal] is bounded by a [fuel] argument;
      running out of fuel is [None] as well, and the theorems say how
      much fuel is enough. *)

From Stdlib Require Import ZArith Lia.
From stdpp Require Import gmap list.

Local Open Scope Z_scope.

(** [static_cast<size_t>(x)] and unsigned arithmetic modulo 2^64. *)
Definition to_size_t (z : Z) : Z := z mod 2 ^ 64.

(** Values of [frame_id_t] (a 32-bit signed integer, [common/config.h]). *)
Definition is_frame_id (z : Z) : Prop := - 2 ^ 31 <= z < 2 ^ 31.

(** Values of [size_t]. *)
Definition is_size_t (z : Z) : Prop := 0 <= z < 2 ^ 64.

(* ================================================================== *)
(** * The LRU-K replacer *)
(* ================================================================== *)

Module Replacer.

(** The two recency lists of the replacer. *)
Inductive which_list := HistList | CacheList.

#[global] Instance which_list_eq_dec : EqDecision which_list.
Proof. solve_decision. Defined.

(** A [std::list<frame_id_t>::iterator]: the list the node lives in and
    the node, named by the frame id it carries (every node is created by
    [emplace_front(frame_id)] and the iterator is taken from [begin()]
    right after). *)
Record iterator := mkIt { it_list : which_list; it_node : Z }.

#[global] Instance iterator_eq_dec : EqDecision iterator.
Proof. solve_decision. Defined.

(** Modelled from the spec: [FrameEntity] is declared in
    [lru_k_replacer.h], which is not among the sources; the fields are the
    ones the code initialises with [FrameEntity{0, true, it}] and reads
    afterwards. The spec says the access count "increments monotonically",
    so [hit_count_] is an unbounded integer here. *)
Record FrameEntity := mkEntity {
  hit_count_ : Z;
  evictable_ : bool;
  it_ : iterator
}.

Record LRUKReplacer := mkReplacer {
  replacer_size_ : Z;
  k_ : Z;
  curr_size_ : Z;
  hist_list_ : list Z;
  cache_list_ : list Z;
  frame_entities_ : gmap Z FrameEntity
}.

(** [LRUKReplacer::LRUKReplacer(num_frames, k)]. *)
Definition new (num_frames k : Z) : LRUKReplacer :=
  mkReplacer num_frames k 0 [] [] ∅.

(** Unlinking one node that carries [x]. *)
Fixpoint erase_node (x : Z) (l : list Z) : list Z :=
  match l with
  | [] => []
  | y :: l' => if decide (y = x) then l' else y :: erase_node x l'
  end.

(** [l.erase(it)] on the list [owner]: defined when the iterator belongs
    to that list and its node is still linked. *)
Definition list_erase (owner : which_list) (l : list Z) (it : iterator)
  : option (list Z) :=
  if decide (it_list it = owner ∧ it_node it ∈ l)
  then Some (erase_node (it_node it) l)
  else None.

(** Outcome of one of the two reverse scans of [Evict]. *)
Inductive scan_result :=
| ScanVictim (id : Z) (e : FrameEntity)   (* an evictable entity was met *)
| ScanMissing (id : Z)                    (* [find(id) == end()]: return false *)
| ScanEnd.                                (* the loop ran to [rend()] *)

(** The body of [for (rit = l.rbegin(); rit != l.rend(); ++rit)], on the
    list already reversed. *)
Fixpoint scan (ents : gmap Z FrameEntity) (rl : list Z) : scan_result :=
  match rl with
  | [] => ScanEnd
  | id :: rest =>
      match ents !! id with
      | None => ScanMissing id
      | Some e => if evictable_ e then ScanVictim id e else scan ents rest
      end
  end.

(** What a call of [Evict] hands back: the returned [bool], the value
    stored through the caller's pointer ([*frame_id = id]) if any, and the
    replacer afterwards. Assigning [nullptr] to the parameter [frame_id]
    changes the callee's copy of the pointer only and stores nothing. *)
Record evict_result := mkEvict {
  ev_ret : bool;
  ev_store : option Z;
  ev_post : LRUKReplacer
}.

Definition evict_fail (st : LRUKReplacer) : evict_result :=
  mkEvict false None st.

Definition evict_from (owner : which_list) (st : LRUKReplacer)
    (id : Z) (e : FrameEntity) : option evict_result :=
  match owner with
  | HistList =>
      l' ← list_erase HistList (hist_list_ st) (it_ e);
      Some (mkEvict true (Some id)
              (mkReplacer (replacer_size_ st) (k_ st)
                 (to_size_t (curr_size_ st - 1))
                 l' (cache_list_ st)
                 (delete id (frame_entities_ st))))
  | CacheList =>
      l' ← list_erase CacheList (cache_list_ st) (it_ e);
      Some (mkEvict true (Some id)
              (mkReplacer (replacer_size_ st) (k_ st)
                 (to_size_t (curr_size_ st - 1))
                 (hist_list_ st) l'
                 (delete id (frame_entities_ st))))
  end.

(** [LRUKReplacer::Evict]. *)
Definition Evict (st : LRUKReplacer) : option evict_result :=
  if curr_size_ st <=? 0 then Some (evict_fail st)
  else
    match scan (frame_entities_ st) (rev (hist_list_ st)) with
    | ScanMissing _ => Some (evict_fail st)
    | ScanVictim id e => evict_from HistList st id e
    | ScanEnd =>
        match scan (frame_entities_ st) (rev (cache_list_ st)) with
        | ScanMissing _ => Some (evict_fail st)
        | ScanVictim id e => evict_from CacheList st id e
        | ScanEnd => Some (evict_fail st)
        end
    end.

(** The caller's variable after [Evict(&var)]. *)
Definition caller_var (before : Z) (r : evict_result) : Z :=
  match ev_store r with
  | Some v => v
  | None => before
  end.

(** The bound check shared by [RecordAccess], [SetEvictable] and [Remove]:
    [static_cast<size_t>(frame_id) > replacer_size_]. *)
Definition rejected (st : LRUKReplacer) (frame_id : Z) : bool :=
  to_size_t frame_id >? replacer_size_ st.

(** [LRUKReplacer::RecordAccess]. *)
Definition RecordAccess (st : LRUKReplacer) (frame_id : Z)
  : option LRUKReplacer :=
  if rejected st frame_id then Some st
  else
    (* the entity found, or the one just added, with the lists and the
       counter as they are at that point *)
    let '(hist, size, e) :=
      match frame_entities_ st !! frame_id with
      | None =>
          (frame_id :: hist_list_ st,
           to_size_t (curr_size_ st + 1),
           mkEntity 0 true (mkIt HistList frame_id))
      | Some e => (hist_list_ st, curr_size_ st, e)
      end in
    let hits := hit_count_ e + 1 in
    if hits =? k_ st then
      hist' ← list_erase HistList hist (it_ e);
      Some (mkReplacer (replacer_size_ st) (k_ st) size
              hist' (frame_id :: cache_list_ st)
              (<[frame_id := mkEntity hits (evictable_ e)
                               (mkIt CacheList frame_id)]>
                 (frame_entities_ st)))
    else if hits >? k_ st then
      cache' ← list_erase CacheList (cache_list_ st) (it_ e);
      Some (mkReplacer (replacer_size_ st) (k_ st) size
              hist (frame_id :: cache')
              (<[frame_id := mkEntity hits (evictable_ e)
                               (mkIt CacheList frame_id)]>
                 (frame_entities_ st)))
    else
      Some (mkReplacer (replacer_size_ st) (k_ st) size
              hist (cache_list_ st)
              (<[frame_id := mkEntity hits (evictable_ e) (it_ e)]>
                 (frame_entities_ st))).

(** [LRUKReplacer::SetEvictable]. *)
Definition SetEvictable (st : LRUKReplacer) (frame_id : Z)
    (set_evictable : bool) : option LRUKReplacer :=
  if rejected st frame_id then Some st
  else
    match frame_entities_ st !! frame_id with
    | None => Some st
    | Some e =>
        let size :=
          if evictable_ e && negb set_evictable
          then to_size_t (curr_size_ st - 1)
          else if negb (evictable_ e) && set_evictable
          then to_size_t (curr_size_ st + 1)
          else curr_size_ st in
        Some (mkReplacer (replacer_size_ st) (k_ st) size
                (hist_list_ st) (cache_list_ st)
                (<[frame_id := mkEntity (hit_count_ e) set_evictable (it_ e)]>
                   (frame_entities_ st)))
    end.

(** [LRUKReplacer::Remove]. *)
Definition Remove (st : LRUKReplacer) (frame_id : Z)
  : option LRUKReplacer :=
  if rejected st frame_id then Some st
  else
    match frame_entities_ st !! frame_id with
    | None => Some st
    | Some e =>
        if negb (evictable_ e) then Some st
        else if hit_count_ e <? k_ st then
          hist' ← list_erase HistList (hist_list_ st) (it_ e);
          Some (mkReplacer (replacer_size_ st) (k_ st)
                  (to_size_t (curr_size_ st - 1))
                  hist' (cache_list_ st)
                  (delete frame_id (frame_entities_ st)))
        else
          cache' ← list_erase CacheList (cache_list_ st) (it_ e);
          Some (mkReplacer (replacer_size_ st) (k_ st)
                  (to_size_t (curr_size_ st - 1))
                  (hist_list_ st) cache'
                  (delete frame_id (frame_entities_ st)))
    end.

(** [LRUKReplacer::Size]. *)
Definition Size (st : LRUKReplacer) : Z := curr_size_ st.

(** ** Runs of the replacer *)

Inductive op :=
| OpRecordAccess (frame_id : Z)
| OpSetEvictable (frame_id : Z) (flag : bool)
| OpEvict
| OpRemove (frame_id : Z).

Definition step (st : LRUKReplacer) (o : op) : option LRUKReplacer :=
  match o with
  | OpRecordAccess f => RecordAccess st f
  | OpSetEvictable f b => SetEvictable st f b
  | OpEvict => ev_post <$> Evict st
  | OpRemove f => Remove st f
  end.

(** Arguments are values of their C++ types. *)
Definition op_ok (o : op) : Prop :=
  match o with
  | OpRecordAccess f | OpSetEvictable f _ | OpRemove f => is_frame_id f
  | OpEvict => True
  end.

Fixpoint run (st : LRUKReplacer) (os : list op) : option LRUKReplacer :=
  match os with
  | [] => Some st
  | o :: os' => st' ← step st o; run st' os'
  end.

(** States a client can bring a freshly constructed replacer into. *)
Inductive reachable : LRUKReplacer → Prop :=
| reach_new num_frames k :
    is_size_t num_frames → is_size_t k → reachable (new num_frames k)
| reach_step st o st' :
    reachable st → op_ok o → step st o = Some st' → reachable st'.

(** Number of tracked records whose [evictable_] flag is set. *)
Definition evictable_count (ents : gmap Z FrameEntity) : nat :=
  size (filter (λ p, evictable_ p.2 = true) ents).

(** The representation invariant: the two lists have no repeated node,
    every node belongs to a tracked entity whose iterator points into that
    list, every entity sits in the list its iterator names (history below
    [k_] hits, cache from [k_] hits on), and [curr_size_] counts the
    evictable entities. *)
Record wf (st : LRUKReplacer) : Prop := mkWf {
  wf_hist_nodup : NoDup (hist_list_ st);
  wf_cache_nodup : NoDup (cache_list_ st);
  wf_hist : ∀ f, f ∈ hist_list_ st →
    ∃ e, frame_entities_ st !! f = Some e ∧ it_list (it_ e) = HistList;
  wf_cache : ∀ f, f ∈ cache_list_ st →
    ∃ e, frame_entities_ st !! f = Some e ∧ it_list (it_ e) = CacheList;
  wf_entity : ∀ f e, frame_entities_ st !! f = Some e →
    is_frame_id f ∧ it_node (it_ e) = f ∧ 1 <= hit_count_ e ∧
    match it_list (it_ e) with
    | HistList => f ∈ hist_list_ st ∧ hit_count_ e < k_ st
    | CacheList => f ∈ cache_list_ st ∧ k_ st <= hit_count_ e
    end;
  wf_size : curr_size_ st = Z.of_nat (evictable_count (frame_entities_ st))
}.

(** The last element of [l] that is tracked and evictable: what a scan
    from the tail towards the head meets first. *)
Definition tail_most_evictable (ents : gmap Z FrameEntity) (l : list Z)
    (f : Z) : Prop :=
  ∃ l1 l2 e, l = l1 ++ f :: l2 ∧ ents !! f = Some e ∧ evictable_ e = true ∧
    ∀ g, g ∈ l2 → ∃ e', ents !! g = Some e' ∧ evictable_ e' = false.

(** No tracked evictable frame in [l]. *)
Definition none_evictable (ents : gmap Z FrameEntity) (l : list Z) : Prop :=
  ∀ g, g ∈ l → ∃ e', ents !! g = Some e' ∧ evictable_ e' = false.

(** The position of the most recent [RecordAccess(f)] in a run, if any. *)
Fixpoint last_access (os : list op) (f : Z) (now : nat) : option nat :=
  match os with
  | [] => None
  | o :: os' =>
      match last_access os' f (S now) with
      | Some t => Some t
      | None =>
          match o with
          | OpRecordAccess g => if decide (g = f) then Some now else None
          | _ => None
          end
      end
  end.

(** Weight of a record in [curr_size_]. *)
Definition flag_weight (b : bool) : nat := if b then 1%nat else 0%nat.

(** The state [RecordAccess] leaves behind on an accepted frame, in one
    formula: [c] is the hit count before the call (0 for a new frame). *)
Definition after_access (st : LRUKReplacer) (f : Z) : LRUKReplacer :=
  let old := frame_entities_ st !! f in
  let c := from_option hit_count_ 0 old in
  let ev := from_option evictable_ true old in
  let hist0 := if old is None then f :: hist_list_ st else hist_list_ st in
  let size0 := if old is None then curr_size_ st + 1 else curr_size_ st in
  if c + 1 <? k_ st then
    mkReplacer (replacer_size_ st) (k_ st) size0 hist0 (cache_list_ st)
      (<[f := mkEntity (c + 1) ev (mkIt HistList f)]> (frame_entities_ st))
  else
    mkReplacer (replacer_size_ st) (k_ st) size0
      (erase_node f hist0) (f :: erase_node f (cache_list_ st))
      (<[f := mkEntity (c + 1) ev (mkIt CacheList f)]> (frame_entities_ st)).

(** The state after [SetEvictable] on a tracked, accepted frame. *)
Definition after_set (st : LRUKReplacer) (f : Z) (flag : bool)
    (e : FrameEntity) : LRUKReplacer :=
  mkReplacer (replacer_size_ st) (k_ st)
    (curr_size_ st + Z.of_nat (flag_weight flag)
     - Z.of_nat (flag_weight (evictable_ e)))
    (hist_list_ st) (cache_list_ st)
    (<[f := mkEntity (hit_count_ e) flag (it_ e)]> (frame_entities_ st)).

(** The state after a tracked frame is dropped by [Remove] or [Evict]. *)
Definition after_drop (st : LRUKReplacer) (f : Z) : LRUKReplacer :=
  mkReplacer (replacer_size_ st) (k_ st) (curr_size_ st - 1)
    (erase_node f (hist_list_ st)) (erase_node f (cache_list_ st))
    (delete f (frame_entities_ st)).

(** The frame [Evict] picks: the tail-most evictable frame of the history
    list, or, when the history list has none, of the cache list. *)
Definition victim (st : LRUKReplacer) (f : Z) : Prop :=
  tail_most_evictable (frame_entities_ st) (hist_list_ st) f ∨
  (none_evictable (frame_entities_ st) (hist_list_ st) ∧
   tail_most_evictable (frame_entities_ st) (cache_list_ st) f).

(** Two runs used as examples: with [k = 3], frame 1 accessed before and
    after frame 2; and the scenario of the specification with [k = 2]. *)
Definition c1_trace : list op :=
  [OpRecordAccess 1; OpRecordAccess 2; OpRecordAccess 1].
Definition c1_state : LRUKReplacer :=
  default (new 7 3) (run (new 7 3) c1_trace).
Definition scenario_trace : list op :=
  [OpRecordAccess 1; OpRecordAccess 2; OpRecordAccess 3;
   OpSetEvictable 1 true; OpSetEvictable 2 true; OpSetEvictable 3 false;
   OpRecordAccess 1].
Definition scenario_state : LRUKReplacer :=
  default (new 7 2) (run (new 7 2) scenario_trace).

(** [f] was last accessed after [g] in the run [os]. *)
Definition accessed_after (os : list op) (f g : Z) : Prop :=
  ∃ tf tg, last_access os f 0 = Some tf ∧ last_access os g 0 = Some tg ∧
           (tg < tf)%nat.

(** Every frame of [l] has been accessed in the run [os], and after all
    the frames behind it in [l]. *)
Definition recent_first (os : list op) (l : list Z) : Prop :=
  (∀ f, f ∈ l → is_Some (last_access os f 0)) ∧
  ∀ l1 f l2 g, l = l1 ++ f :: l2 → g ∈ l2 → accessed_after os f g.

(** A run in which frames 1 and 2 both reach the cache list. *)
Definition lru_trace : list op :=
  [OpRecordAccess 1; OpRecordAccess 1; OpRecordAccess 2; OpRecordAccess 2].
Definition lru_state : LRUKReplacer :=
  default (new 7 2) (run (new 7 2) lru_trace).

(** The positions of the calls [RecordAccess(f)] in a run, in the order
    of the run; [now] is the position of the first call of [os]. *)
Fixpoint access_times (os : list op) (f : Z) (now : nat) : list nat :=
  match os with
  | [] => []
  | o :: os' =>
      match o with
      | OpRecordAccess g =>
          if decide (g = f) then now :: access_times os' f (S now)
          else access_times os' f (S now)
      | _ => access_times os' f (S now)
      end
  end.

(** The position of the [c]-th most recent [RecordAccess(f)] of a run:
    for a record that counts [c] accesses, the access with which the
    count began, which is the first access of the frame since it was last
    dropped. *)
Definition counted_from (os : list op) (f : Z) (c : Z) : option nat :=
  reverse (access_times os f 0) !! Z.to_nat (c - 1).

(** The first access of the record that [st] holds for [f], after the
    run [os]. *)
Definition record_start (os : list op) (st : LRUKReplacer) (f : Z)
  : option nat :=
  e ← frame_entities_ st !! f; counted_from os f (hit_count_ e).

(** The record of [f] was started after the record of [g]. *)
Definition started_after (os : list op) (st : LRUKReplacer) (f g : Z)
  : Prop :=
  ∃ tf tg, record_start os st f = Some tf ∧ record_start os st g = Some tg ∧
           (tg < tf)%nat.

(** Every frame of [l] has a time under [τ], later than the times of the
    frames behind it in [l] and earlier than [bound]. *)
Definition newest_first (τ : Z → option nat) (bound : nat) (l : list Z)
  : Prop :=
  (∀ f, f ∈ l → ∃ t, τ f = Some t ∧ (t < bound)%nat) ∧
  ∀ l1 f l2 g, l = l1 ++ f :: l2 → g ∈ l2 →
    ∃ tf tg, τ f = Some tf ∧ τ g = Some tg ∧ (tg < tf)%nat.

End Replacer.

(* ================================================================== *)
(** * The extendible hash table *)
(* ================================================================== *)

Module HashTable.

(** [1 << d] on [int]: defined while the result fits, that is for
    [0 <= d <= 30]. *)
Definition int_shl1 (d : Z) : option Z :=
  if decide (0 <= d <= 30) then Some (Z.shiftl 1 d) else None.

(** The low [d] bits of [x]: [x & ((1 << d) - 1)]. *)
Definition low_bits (d x : Z) : Z := Z.land x (Z.ones d).

Section Table.

Context {K V : Type} `{EqDecision K}.

(** [std::hash<K>()(key)], a [size_t]. *)
Variable hash : K → Z.

Record Bucket := mkBucket {
  size_ : Z;
  depth_ : Z;
  list_ : list (K * V)
}.

(** The directory holds [shared_ptr<Bucket>]s: a slot is the address of
    a bucket in the store [heap_], and slots with the same address share
    the bucket. [make_shared] takes the next free address. *)
Record ExtendibleHashTable := mkTable {
  global_depth_ : Z;
  bucket_size_ : Z;
  num_buckets_ : Z;
  dir_ : list nat;
  heap_ : list Bucket
}.

(** [ExtendibleHashTable(bucket_size)]; a bucket is constructed with
    depth 0 when the second argument is left out. *)
Definition new (bucket_size : Z) : ExtendibleHashTable :=
  mkTable 0 bucket_size 1 [0%nat] [mkBucket bucket_size 0 []].

(** [ExtendibleHashTable::IndexOf]. *)
Definition IndexOf (ht : ExtendibleHashTable) (key : K) : option Z :=
  p ← int_shl1 (global_depth_ ht);
  let mask := p - 1 in
  Some (Z.land (hash key) mask).

Definition GetGlobalDepthInternal (ht : ExtendibleHashTable) : Z :=
  global_depth_ ht.

Definition GetNumBucketsInternal (ht : ExtendibleHashTable) : Z :=
  num_buckets_ ht.

(** [dir_[idx]] followed by the dereference of the pointer. *)
Definition bucket_at (ht : ExtendibleHashTable) (idx : Z)
  : option (nat * Bucket) :=
  if decide (0 <= idx) then
    r ← dir_ ht !! Z.to_nat idx;
    b ← heap_ ht !! r;
    Some (r, b)
  else None.

Definition GetLocalDepthInternal (ht : ExtendibleHashTable) (dir_index : Z)
  : option Z :=
  rb ← bucket_at ht dir_index; Some (depth_ rb.2).

(** [GetGlobalDepth], [GetLocalDepth] and [GetNumBuckets]: the internal
    functions, called with the latch held. *)
Definition GetGlobalDepth (ht : ExtendibleHashTable) : Z :=
  GetGlobalDepthInternal ht.

Definition GetLocalDepth (ht : ExtendibleHashTable) (dir_index : Z)
  : option Z :=
  GetLocalDepthInternal ht dir_index.

Definition GetNumBuckets (ht : ExtendibleHashTable) : Z :=
  GetNumBucketsInternal ht.

(** [Bucket::Find]: the value of the first node with the key. *)
Fixpoint Bucket_Find (l : list (K * V)) (key : K) : option V :=
  match l with
  | [] => None
  | node :: l' => if decide (node.1 = key) then Some node.2
                  else Bucket_Find l' key
  end.

(** [Bucket::Remove]: erases the first node with the key. *)
Fixpoint Bucket_Remove (l : list (K * V)) (key : K) : bool * list (K * V) :=
  match l with
  | [] => (false, [])
  | node :: l' =>
      if decide (key = node.1) then (true, l')
      else let '(ok, l'') := Bucket_Remove l' key in (ok, node :: l'')
  end.

(** The first loop of [Bucket::Insert]: overwrite the value of the first
    node with the key, if there is one. *)
Fixpoint Bucket_update (l : list (K * V)) (key : K) (value : V)
  : option (list (K * V)) :=
  match l with
  | [] => None
  | node :: l' =>
      if decide (node.1 = key) then Some ((node.1, value) :: l')
      else cons node <$> Bucket_update l' key value
  end.

(** Modelled from the spec: [Bucket::IsFull] is defined in
    [extendible_hash_table.h], which is not among the sources. The spec
    separates a bucket that "has spare capacity" from one that "is full";
    a bucket is full when it holds as many entries as its capacity. *)
Definition IsFull (b : Bucket) : bool :=
  Z.of_nat (length (list_ b)) =? size_ b.

(** [Bucket::Insert]. *)
Definition Bucket_Insert (b : Bucket) (key : K) (value : V) : bool * Bucket :=
  match Bucket_update (list_ b) key value with
  | Some l' => (true, mkBucket (size_ b) (depth_ b) l')
  | None =>
      if IsFull b then (false, b)
      else (true, mkBucket (size_ b) (depth_ b) (list_ b ++ [(key, value)]))
  end.

(** [ExtendibleHashTable::Find]: the outer [option] is definedness, the
    inner one is the [bool] result with the value written to [value]. *)
Definition Find (ht : ExtendibleHashTable) (key : K) : option (option V) :=
  idx ← IndexOf ht key;
  rb ← bucket_at ht idx;
  Some (Bucket_Find (list_ rb.2) key).

Definition set_bucket (ht : ExtendibleHashTable) (r : nat) (b : Bucket)
  : ExtendibleHashTable :=
  mkTable (global_depth_ ht) (bucket_size_ ht) (num_buckets_ ht)
    (dir_ ht) (<[r := b]> (heap_ ht)).

(** [ExtendibleHashTable::Remove]. *)
Definition Remove (ht : ExtendibleHashTable) (key : K)
  : option (bool * ExtendibleHashTable) :=
  idx ← IndexOf ht key;
  rb ← bucket_at ht idx;
  let '(ok, l') := Bucket_Remove (list_ rb.2) key in
  Some (ok, set_bucket ht rb.1 (mkBucket (size_ rb.2) (depth_ rb.2) l')).

(** The loop of [InsertInternal] over the items of the full bucket:
    [split_index] is [IndexOf(ele.first)] on the table as it is then;
    items are appended to the first or the second new bucket. *)
Fixpoint redistribute (ht : ExtendibleHashTable) (split_mask low_index : Z)
    (items : list (K * V)) : option (list (K * V) * list (K * V)) :=
  match items with
  | [] => Some ([], [])
  | ele :: rest =>
      split_index ← IndexOf ht ele.1;
      ls ← redistribute ht split_mask low_index rest;
      if Z.land split_index split_mask =? low_index
      then Some (ele :: ls.1, ls.2) else Some (ls.1, ele :: ls.2)
  end.

(** The directory doubled: [global_depth_++] and [push_back(dir_[i])] for
    every old slot [i]. *)
Definition grow (ht : ExtendibleHashTable) : ExtendibleHashTable :=
  mkTable (global_depth_ ht + 1) (bucket_size_ ht) (num_buckets_ ht)
    (dir_ ht ++ dir_ ht) (heap_ ht).

(** The loop of [InsertInternal] over the directory. *)
Definition repoint (base_mask split_mask low_index : Z) (r1 r2 : nat)
    (dir : list nat) : list nat :=
  imap (λ i r,
          if Z.land (Z.of_nat i) base_mask =? low_index then
            if Z.land (Z.of_nat i) split_mask =? low_index then r1 else r2
          else r) dir.

(** One pass of [InsertInternal] up to the recursive call: [inl] is the
    table after a successful [bucket->Insert], [inr] the table after the
    split, on which the call is repeated. *)
Definition insert_pass (ht : ExtendibleHashTable) (key : K) (value : V)
  : option (ExtendibleHashTable + ExtendibleHashTable) :=
  idx ← IndexOf ht key;
  rb ← bucket_at ht idx;
  let '(r, bucket) := rb in
  match Bucket_Insert bucket key value with
  | (true, bucket') => Some (inl (set_bucket ht r bucket'))
  | (false, _) =>
      ld ← GetLocalDepthInternal ht idx;
      let ht1 := if GetGlobalDepthInternal ht =? ld then grow ht else ht in
      let new_depth := depth_ bucket + 1 in
      pb ← int_shl1 (depth_ bucket);
      let base_mask := pb - 1 in
      ps ← int_shl1 new_depth;
      let split_mask := ps - 1 in
      let r1 := length (heap_ ht1) in
      let r2 := S (length (heap_ ht1)) in
      let low_index := Z.land idx base_mask in
      ls ← redistribute ht1 split_mask low_index (list_ bucket);
      let new_bucket_1 := mkBucket (bucket_size_ ht1) new_depth ls.1 in
      let new_bucket_2 := mkBucket (bucket_size_ ht1) new_depth ls.2 in
      Some (inr (mkTable (global_depth_ ht1) (bucket_size_ ht1)
                   (num_buckets_ ht1 + 1)
                   (repoint base_mask split_mask low_index r1 r2 (dir_ ht1))
                   (heap_ ht1 ++ [new_bucket_1; new_bucket_2])))
  end.

(** [ExtendibleHashTable::InsertInternal]; [fuel] bounds the depth of
    the recursion. *)
Fixpoint InsertInternal (fuel : nat) (ht : ExtendibleHashTable)
    (key : K) (value : V) : option ExtendibleHashTable :=
  match fuel with
  | O => None
  | S fuel' =>
      res ← insert_pass ht key value;
      match res with
      | inl ht' => Some ht'
      | inr ht' => InsertInternal fuel' ht' key value
      end
  end.

(** [ExtendibleHashTable::Insert]. *)
Definition Insert (fuel : nat) (ht : ExtendibleHashTable) (key : K)
    (value : V) : option ExtendibleHashTable :=
  InsertInternal fuel ht key value.

(** The buckets some slot points to. *)
Definition live_buckets (ht : ExtendibleHashTable) : gset nat :=
  list_to_set (dir_ ht).

(** States a client can bring a freshly constructed table into. *)
Inductive reachable : ExtendibleHashTable → Prop :=
| reach_new bucket_size :
    is_size_t bucket_size → reachable (new bucket_size)
| reach_insert ht fuel key value ht' :
    reachable ht → Insert fuel ht key value = Some ht' → reachable ht'
| reach_remove ht key ok ht' :
    reachable ht → Remove ht key = Some (ok, ht') → reachable ht'.

(** What the invariant says of a bucket seen from slot [i]: it has the
    configured capacity and holds no more entries than that, its depth is
    at most the global depth, its keys are unique, and every key agrees
    with the slot index on the low [depth_] bits of its hash. *)
Record bucket_ok (ht : ExtendibleHashTable) (i : nat) (b : Bucket) : Prop :=
  mkBucketOk {
  ok_size : size_ b = bucket_size_ ht;
  ok_depth : 0 <= depth_ b <= global_depth_ ht;
  ok_cap : Z.of_nat (length (list_ b)) <= bucket_size_ ht;
  ok_nodup : NoDup (list_ b).*1;
  ok_keys : ∀ k v, (k, v) ∈ list_ b →
    low_bits (depth_ b) (hash k) = low_bits (depth_ b) (Z.of_nat i)
}.

(** The representation invariant of the table. *)
Record table_inv (ht : ExtendibleHashTable) : Prop := mkTableInv {
  inv_depth : 0 <= global_depth_ ht <= 30;
  inv_cap : 0 <= bucket_size_ ht;
  inv_len : Z.of_nat (length (dir_ ht)) = 2 ^ global_depth_ ht;
  inv_slot : ∀ i r, dir_ ht !! i = Some r →
    ∃ b, heap_ ht !! r = Some b ∧ bucket_ok ht i b;
  inv_share : ∀ i j r b,
    dir_ ht !! i = Some r → heap_ ht !! r = Some b →
    (j < length (dir_ ht))%nat →
    (dir_ ht !! j = Some r ↔
     low_bits (depth_ b) (Z.of_nat i) = low_bits (depth_ b) (Z.of_nat j))
}.

(** The bucket [Find], [Remove] and [Insert] go to for [key]. *)
Definition target (ht : ExtendibleHashTable) (key : K)
  : option (nat * Bucket) :=
  idx ← IndexOf ht key; bucket_at ht idx.

(** [key] can be told apart from some entry of [b] by one of the low 30
    bits of the hash: the condition under which splitting a full bucket
    makes room before the directory outgrows the [int] masks. *)
Definition separable (b : Bucket) (key : K) : Prop :=
  ∃ k v, (k, v) ∈ list_ b ∧ low_bits 30 (hash k) ≠ low_bits 30 (hash key).

(** The table after the full bucket [b], reached through slot [idx], is
    split: the entries whose hash agrees with [idx] on the low
    [depth_ b] bits and has bit [depth_ b] clear go to the first new
    bucket, the others to the second; the slots follow the same rule. *)
Definition split_at (ht : ExtendibleHashTable) (idx : Z) (b : Bucket)
  : ExtendibleHashTable :=
  let d := depth_ b in
  let low := low_bits d idx in
  mkTable (global_depth_ ht) (bucket_size_ ht) (num_buckets_ ht + 1)
    (repoint (Z.ones d) (Z.ones (d + 1)) low
       (length (heap_ ht)) (S (length (heap_ ht))) (dir_ ht))
    (heap_ ht ++
       [mkBucket (bucket_size_ ht) (d + 1)
          (filter (λ e, low_bits (d + 1) (hash e.1) = low) (list_ b));
        mkBucket (bucket_size_ ht) (d + 1)
          (filter (λ e, ¬ low_bits (d + 1) (hash e.1) = low) (list_ b))]).

(** The table on which the split works: the directory is doubled first
    when the bucket is as deep as the directory. *)
Definition pre_split (ht : ExtendibleHashTable) (b : Bucket)
  : ExtendibleHashTable :=
  if GetGlobalDepthInternal ht =? depth_ b then grow ht else ht.

(** The target bucket is full of entries that no hash bit below 30 tells
    from [key]. *)
Definition stuck (b : Bucket) (key : K) : Prop :=
  Bucket_Find (list_ b) key = None ∧ IsFull b = true ∧
  ∀ k v, (k, v) ∈ list_ b → low_bits 30 (hash k) = low_bits 30 (hash key).

(** The condition under which [Insert] returns: the key is in its
    bucket, or the bucket has room, or one of its entries can be split
    away from the key. *)
Definition insertable (b : Bucket) (key : K) : Prop :=
  is_Some (Bucket_Find (list_ b) key) ∨ IsFull b = false ∨
  separable b key.

(** The mutating calls of a client; [fuel] bounds the recursion of the
    model of [InsertInternal]. *)
Inductive table_op :=
| OpInsert (fuel : nat) (key : K) (value : V)
| OpRemove (key : K).

Definition exec_op (ht : ExtendibleHashTable) (o : table_op)
  : option ExtendibleHashTable :=
  match o with
  | OpInsert fuel key value => Insert fuel ht key value
  | OpRemove key => snd <$> Remove ht key
  end.

Fixpoint exec (ht : ExtendibleHashTable) (os : list table_op)
  : option ExtendibleHashTable :=
  match os with
  | [] => Some ht
  | o :: os' => ht' ← exec_op ht o; exec ht' os'
  end.

(** The dictionary a run of calls describes, starting from [m]. *)
Fixpoint dict (m : K → option V) (os : list table_op) : K → option V :=
  match os with
  | [] => m
  | OpInsert _ key value :: os' =>
      dict (λ k, if decide (k = key) then Some value else m k) os'
  | OpRemove key :: os' =>
      dict (λ k, if decide (k = key) then None else m k) os'
  end.

End Table.

(** [std::hash<int>]: the identity into [size_t] (libstdc++, libc++). *)
Definition hash_int (key : Z) : Z := to_size_t key.

(** Capacity 2, keys 0, 2 and 4: equal on hash bit 0, not on bit 1. *)
Definition collide_ops : list (@table_op Z Z) :=
  [OpInsert 3 0 10; OpInsert 3 2 12; OpInsert 3 4 14].
Definition two_keys : @ExtendibleHashTable Z Z :=
  mkTable 0 2 1 [0%nat] [mkBucket 2 0 [(0, 10); (2, 12)]].
Definition three_keys : @ExtendibleHashTable Z Z :=
  default (new 2) (exec hash_int (new 2) collide_ops).
(** Capacity 1 holding key 0; key 2^30 shares its low 30 hash bits. *)
Definition one_key : @ExtendibleHashTable Z Z :=
  mkTable 0 1 1 [0%nat] [mkBucket 1 0 [(0, 10)]].

End HashTable.

(* ================================================================== *)
(** * Properties of the LRU-K replacer *)
(* ================================================================== *)

Section ReplacerLists.
Import Replacer.

Lemma erase_node_head x l : erase_node x (x :: l) = l.
Proof. simpl. by rewrite decide_True. Qed.

Lemma elem_of_erase_node x y l :
  NoDup l → y ∈ erase_node x l ↔ y ∈ l ∧ y ≠ x.
Proof.
  induction 1 as [|z l Hz Hl IH]; simpl.
  - split; [intros Hy|intros [Hy _]]; by apply elem_of_nil in Hy.
  - destruct (decide (z = x)) as [->|Hne].
    + split; [intros Hy; split; [by right|intros ->; done]|].
      intros [Hy Hne]. apply elem_of_cons in Hy as [?|?]; done.
    + rewrite !elem_of_cons, IH. split.
      * intros [->|[? ?]]; eauto.
      * intros [[->|?] ?]; eauto.
Qed.

Lemma NoDup_erase_node x l : NoDup l → NoDup (erase_node x l).
Proof.
  induction 1 as [|z l Hz Hl IH]; simpl; [constructor|].
  destruct (decide (z = x)); [done|].
  constructor; [|done]. rewrite elem_of_erase_node by done. tauto.
Qed.

Lemma erase_node_notin x l : x ∉ l → erase_node x l = l.
Proof.
  induction l as [|z l IH]; simpl; [done|].
  rewrite not_elem_of_cons. intros [Hne Hx].
  rewrite decide_False by done. by rewrite IH.
Qed.

Lemma erase_node_middle x l1 l2 :
  x ∉ l1 → erase_node x (l1 ++ x :: l2) = l1 ++ l2.
Proof.
  induction l1 as [|z l1 IH]; simpl; intros Hx.
  - by rewrite decide_True.
  - apply not_elem_of_cons in Hx as [Hne Hx].
    rewrite decide_False by done. by rewrite IH.
Qed.

Lemma list_erase_Some owner l it :
  it_list it = owner → it_node it ∈ l →
  list_erase owner l it = Some (erase_node (it_node it) l).
Proof. intros. unfold list_erase. by rewrite decide_True. Qed.

Lemma list_erase_inv owner l it l' :
  list_erase owner l it = Some l' →
  it_list it = owner ∧ it_node it ∈ l ∧ l' = erase_node (it_node it) l.
Proof.
  unfold list_erase. case_decide as Hd; [|done]. intros [= <-].
  by destruct Hd.
Qed.

End ReplacerLists.

Section ReplacerCount.
Import Replacer.

Lemma evictable_count_empty : evictable_count ∅ = 0%nat.
Proof. unfold evictable_count. by rewrite map_filter_empty, map_size_empty. Qed.

Lemma evictable_count_delete ents f e :
  ents !! f = Some e →
  evictable_count ents
  = (evictable_count (delete f ents) + flag_weight (evictable_ e))%nat.
Proof.
  intros Hf. unfold evictable_count. rewrite map_filter_delete.
  set (P := λ p : Z * FrameEntity, evictable_ p.2 = true).
  destruct (evictable_ e) eqn:He; simpl.
  - assert (Hl : filter P ents !! f = Some e)
      by (apply map_lookup_filter_Some; done).
    rewrite map_size_delete_Some by eauto.
    assert (size (filter P ents) ≠ 0)%nat; [|lia].
    intros Hz. apply map_size_empty_inv in Hz.
    rewrite Hz in Hl. by rewrite lookup_empty in Hl.
  - rewrite map_size_delete_None; [lia|].
    apply map_lookup_filter_None. right. intros e' He'. unfold P. simpl.
    congruence.
Qed.

Lemma evictable_count_insert ents f e :
  evictable_count (<[f := e]> ents)
  = (evictable_count (delete f ents) + flag_weight (evictable_ e))%nat.
Proof.
  rewrite (evictable_count_delete (<[f := e]> ents) f e)
    by apply lookup_insert_eq.
  by rewrite delete_insert_eq.
Qed.

Lemma evictable_count_fresh ents f :
  ents !! f = None → evictable_count (delete f ents) = evictable_count ents.
Proof. intros. by rewrite delete_id. Qed.

Lemma evictable_count_le_size (ents : gmap Z FrameEntity) :
  (evictable_count ents ≤ size ents)%nat.
Proof. apply map_subseteq_size, map_filter_subseteq. Qed.

Lemma frame_ids_bounded (ents : gmap Z FrameEntity) :
  (∀ f e, ents !! f = Some e → is_frame_id f) →
  Z.of_nat (size ents) <= 2 ^ 32.
Proof.
  intros Hk. rewrite <-(size_dom (D:=gset Z)).
  set (n := 2 ^ 32).
  assert (Hsub : dom ents ⊆ (list_to_set (seqZ (- 2 ^ 31) n) : gset Z)).
  { intros f Hf. apply elem_of_dom in Hf as [e He].
    apply elem_of_list_to_set, elem_of_seqZ.
    specialize (Hk _ _ He). unfold is_frame_id in Hk. subst n. lia. }
  apply subseteq_size in Hsub.
  rewrite size_list_to_set, length_seqZ in Hsub by apply NoDup_seqZ.
  subst n. lia.
Qed.

End ReplacerCount.

(** Splitting a lookup in an updated map on whether the key is the
    updated one. *)
Ltac lookup_cases g f H :=
  destruct (decide (g = f)) as [->|?];
  [ first [ rewrite lookup_insert_eq in H | rewrite lookup_delete_eq in H ]
  | first [ rewrite lookup_insert_ne in H by done
          | rewrite lookup_delete_ne in H by done ] ].

Section ReplacerInvariant.
Import Replacer.

Lemma wf_new num_frames k : wf (new num_frames k).
Proof.
  constructor; simpl.
  - constructor.
  - constructor.
  - intros f Hf. by apply elem_of_nil in Hf.
  - intros f Hf. by apply elem_of_nil in Hf.
  - intros f e Hf. by rewrite lookup_empty in Hf.
  - by rewrite evictable_count_empty.
Qed.

Lemma wf_count_bound st :
  wf st → Z.of_nat (evictable_count (frame_entities_ st)) <= 2 ^ 32.
Proof.
  intros Hwf.
  pose proof (evictable_count_le_size (frame_entities_ st)).
  assert (Hb : Z.of_nat (size (frame_entities_ st)) <= 2 ^ 32); [|lia].
  apply frame_ids_bounded.
  intros f e Hf. by destruct (wf_entity st Hwf f e Hf).
Qed.

Lemma size_t_small z : 0 <= z < 2 ^ 64 → to_size_t z = z.
Proof. intros. unfold to_size_t. by apply Z.mod_small. Qed.

Lemma untracked_not_listed st f :
  wf st → frame_entities_ st !! f = None →
  (f ∉ hist_list_ st) ∧ (f ∉ cache_list_ st).
Proof.
  intros Hwf Hf. split; intros Hin.
  - apply (wf_hist st Hwf) in Hin as (e & He & _). congruence.
  - apply (wf_cache st Hwf) in Hin as (e & He & _). congruence.
Qed.

Lemma tracked_tag st f e :
  wf st → frame_entities_ st !! f = Some e →
  it_ e = mkIt (if decide (hit_count_ e < k_ st) then HistList else CacheList) f.
Proof.
  intros Hwf Hf. destruct (wf_entity st Hwf f e Hf) as (_ & Hn & _ & Hl).
  destruct (it_ e) as [w n]; simpl in *. subst n.
  destruct w; case_decide; try done; lia.
Qed.

Lemma tracked_hist st f e :
  wf st → frame_entities_ st !! f = Some e → hit_count_ e < k_ st →
  it_ e = mkIt HistList f ∧ f ∈ hist_list_ st ∧ f ∉ cache_list_ st.
Proof.
  intros Hwf Hf Hlt. pose proof (tracked_tag st f e Hwf Hf) as Ht.
  rewrite decide_True in Ht by done.
  destruct (wf_entity st Hwf f e Hf) as (_ & _ & _ & Hl).
  rewrite Ht in Hl. simpl in Hl. split_and!; [done|tauto|].
  intros Hin. apply (wf_cache st Hwf) in Hin as (e' & He' & Hc).
  rewrite Hf in He'. injection He' as <-. by rewrite Ht in Hc.
Qed.

Lemma tracked_cache st f e :
  wf st → frame_entities_ st !! f = Some e → k_ st <= hit_count_ e →
  it_ e = mkIt CacheList f ∧ f ∈ cache_list_ st ∧ f ∉ hist_list_ st.
Proof.
  intros Hwf Hf Hlt. pose proof (tracked_tag st f e Hwf Hf) as Ht.
  rewrite decide_False in Ht by lia.
  destruct (wf_entity st Hwf f e Hf) as (_ & _ & _ & Hl).
  rewrite Ht in Hl. simpl in Hl. split_and!; [done|tauto|].
  intros Hin. apply (wf_hist st Hwf) in Hin as (e' & He' & Hc).
  rewrite Hf in He'. injection He' as <-. by rewrite Ht in Hc.
Qed.

End ReplacerInvariant.

Section ReplacerRecordAccess.
Import Replacer.

Lemma RecordAccess_after st f :
  wf st → rejected st f = false →
  1 <= k_ st ∨ is_Some (frame_entities_ st !! f) →
  RecordAccess st f = Some (after_access st f).
Proof.
  intros Hwf Hrej Hk. unfold RecordAccess, after_access. rewrite Hrej.
  destruct (frame_entities_ st !! f) as [e|] eqn:Hf;
    cbn [from_option hit_count_ evictable_ it_].
  - destruct (wf_entity st Hwf f e Hf) as (_ & _ & Hhits & _).
    destruct (Z.eqb_spec (hit_count_ e + 1) (k_ st)) as [Heq|Hne].
    + destruct (tracked_hist st f e Hwf Hf) as (Hit & Hin & Hout); [lia|].
      rewrite Hit, list_erase_Some by done. cbn [mbind option_bind it_node].
      rewrite (proj2 (Z.ltb_ge _ _)) by lia.
      by rewrite (erase_node_notin f (cache_list_ st)).
    + destruct (Z.gtb_spec (hit_count_ e + 1) (k_ st)) as [Hgt|Hle].
      * destruct (tracked_cache st f e Hwf Hf) as (Hit & Hin & Hout); [lia|].
        rewrite Hit, list_erase_Some by done. cbn [mbind option_bind it_node].
        rewrite (proj2 (Z.ltb_ge _ _)) by lia.
        by rewrite (erase_node_notin f (hist_list_ st)).
      * destruct (tracked_hist st f e Hwf Hf) as (Hit & Hin & Hout); [lia|].
        rewrite (proj2 (Z.ltb_lt _ _)) by lia. by rewrite Hit.
  - destruct Hk as [Hk|[? [=]]].
    pose proof (wf_count_bound st Hwf) as Hb.
    pose proof (wf_size st Hwf) as Hs.
    rewrite (size_t_small (curr_size_ st + 1)) by lia.
    destruct (untracked_not_listed st f Hwf Hf) as [Hh Hc].
    destruct (Z.eqb_spec (0 + 1) (k_ st)) as [Heq|Hne].
    + rewrite list_erase_Some by (cbn [it_list it_node]; set_solver).
      cbn [mbind option_bind it_node].
      rewrite (proj2 (Z.ltb_ge _ _)) by lia.
      rewrite erase_node_head.
      by rewrite (erase_node_notin f (cache_list_ st)).
    + destruct (Z.gtb_spec (0 + 1) (k_ st)) as [Hgt|Hle]; [lia|].
      by rewrite (proj2 (Z.ltb_lt _ _)) by lia.
Qed.

(** With [k_ = 0] the first access of a frame erases a history node
    through [cache_list_]: the call has no defined outcome. *)
Lemma RecordAccess_undefined st f :
  wf st → rejected st f = false → k_ st < 1 →
  frame_entities_ st !! f = None → RecordAccess st f = None.
Proof.
  intros Hwf Hrej Hk Hf. unfold RecordAccess. rewrite Hrej, Hf.
  cbn [hit_count_ it_].
  destruct (Z.eqb_spec (0 + 1) (k_ st)) as [Heq|Hne]; [lia|].
  destruct (Z.gtb_spec (0 + 1) (k_ st)) as [Hgt|Hle]; [|lia].
  unfold list_erase. by rewrite decide_False by (cbn; intros [[=] _]).
Qed.

Lemma RecordAccess_inv st f st' :
  wf st → rejected st f = false → RecordAccess st f = Some st' →
  st' = after_access st f.
Proof.
  intros Hwf Hrej Hst.
  destruct (decide (1 <= k_ st ∨ is_Some (frame_entities_ st !! f)))
    as [Hk|Hk].
  - rewrite RecordAccess_after in Hst by done. congruence.
  - rewrite RecordAccess_undefined in Hst; [done..| |].
    + lia.
    + apply eq_None_not_Some. tauto.
Qed.

Lemma after_access_wf st f :
  wf st → is_frame_id f → wf (after_access st f).
Proof.
  intros Hwf Hid. unfold after_access.
  pose proof (wf_hist_nodup st Hwf) as Hnh.
  pose proof (wf_cache_nodup st Hwf) as Hnc.
  set (old := frame_entities_ st !! f).
  set (c := from_option hit_count_ 0 old).
  set (ev := from_option evictable_ true old).
  set (hist0 := if old is None then f :: hist_list_ st else hist_list_ st).
  assert (Hc : 0 <= c).
  { subst c old. destruct (frame_entities_ st !! f) as [e|] eqn:Hf; simpl; [|lia].
    destruct (wf_entity st Hwf f e Hf) as (_ & _ & ? & _). lia. }
  assert (Hn0 : NoDup hist0).
  { subst hist0 old. destruct (frame_entities_ st !! f) eqn:Hf; [done|].
    constructor; [|done]. by destruct (untracked_not_listed st f Hwf Hf). }
  assert (Hin0 : ∀ g, g ≠ f → g ∈ hist0 ↔ g ∈ hist_list_ st).
  { intros g Hg. subst hist0. destruct old; [done|].
    rewrite elem_of_cons. tauto. }
  assert (Hf0 : c + 1 < k_ st → f ∈ hist0).
  { subst hist0 c old. destruct (frame_entities_ st !! f) as [e|] eqn:Hf; simpl.
    - intros Hlt. by destruct (tracked_hist st f e Hwf Hf) as (_ & ? & _); [lia|].
    - intros _. by left. }
  assert (Hfc : c + 1 < k_ st → f ∉ cache_list_ st).
  { subst hist0 c old. destruct (frame_entities_ st !! f) as [e|] eqn:Hf; simpl.
    - intros Hlt. by destruct (tracked_hist st f e Hwf Hf) as (_ & _ & ?); [lia|].
    - intros _. by destruct (untracked_not_listed st f Hwf Hf). }
  assert (Hsz : (if old is None then curr_size_ st + 1 else curr_size_ st)
                = Z.of_nat (evictable_count (delete f (frame_entities_ st))
                            + flag_weight ev)).
  { rewrite (wf_size st Hwf). subst ev old.
    destruct (frame_entities_ st !! f) as [e|] eqn:Hf; simpl.
    - by rewrite (evictable_count_delete _ f e Hf).
    - rewrite evictable_count_fresh by done. lia. }
  assert (Hold : ∀ g e, g ≠ f → frame_entities_ st !! g = Some e →
            is_frame_id g ∧ it_node (it_ e) = g ∧ 1 <= hit_count_ e ∧
            match it_list (it_ e) with
            | HistList => g ∈ hist0 ∧ hit_count_ e < k_ st
            | CacheList => g ∈ cache_list_ st ∧ k_ st <= hit_count_ e
            end).
  { intros g e Hg He. destruct (wf_entity st Hwf g e He) as (? & ? & ? & Hl).
    split_and!; try done. destruct (it_list (it_ e)); [|done].
    by rewrite Hin0. }
  destruct (Z.ltb_spec (c + 1) (k_ st)) as [Hlt|Hge];
    constructor; simpl; try done.
  - intros g Hg. destruct (decide (g = f)) as [->|Hne].
    + rewrite lookup_insert_eq. eauto.
    + rewrite lookup_insert_ne by done. apply (wf_hist st Hwf). by apply Hin0.
  - intros g Hg. assert (g ≠ f) by (intros ->; by apply Hfc).
    rewrite lookup_insert_ne by done. by apply (wf_cache st Hwf).
  - intros g e Hg. lookup_cases g f Hg.
    + injection Hg as <-. simpl. split_and!; try done; try lia. by apply Hf0.
    + by apply Hold.
  - by rewrite evictable_count_insert.
  - by apply NoDup_erase_node.
  - constructor; [|by apply NoDup_erase_node].
    rewrite elem_of_erase_node by done. tauto.
  - intros g Hg. apply elem_of_erase_node in Hg as [Hg Hne]; [|done].
    rewrite lookup_insert_ne by done. apply (wf_hist st Hwf). by apply Hin0.
  - intros g Hg. apply elem_of_cons in Hg as [->|Hg].
    + rewrite lookup_insert_eq. eauto.
    + apply elem_of_erase_node in Hg as [Hg Hne]; [|done].
      rewrite lookup_insert_ne by done. by apply (wf_cache st Hwf).
  - intros g e Hg. lookup_cases g f Hg.
    + injection Hg as <-. simpl. split_and!; try done; try lia. by left.
    + destruct (Hold g e) as (? & ? & ? & Hl); try done.
      split_and!; try done. destruct (it_list (it_ e)).
      * rewrite elem_of_erase_node by done. tauto.
      * rewrite elem_of_cons, elem_of_erase_node by done. tauto.
  - by rewrite evictable_count_insert.
Qed.

Lemma RecordAccess_wf st f st' :
  wf st → is_frame_id f → RecordAccess st f = Some st' → wf st'.
Proof.
  intros Hwf Hid Hst. destruct (rejected st f) eqn:Hrej.
  - unfold RecordAccess in Hst. rewrite Hrej in Hst. congruence.
  - apply RecordAccess_inv in Hst as ->; [|done..]. by apply after_access_wf.
Qed.

End ReplacerRecordAccess.

Section ReplacerOthers.
Import Replacer.

Lemma evictable_positive st f e :
  wf st → frame_entities_ st !! f = Some e → evictable_ e = true →
  1 <= curr_size_ st.
Proof.
  intros Hwf Hf He. rewrite (wf_size st Hwf).
  rewrite (evictable_count_delete _ f e Hf), He. simpl. lia.
Qed.

Lemma SetEvictable_tracked st f flag e :
  wf st → rejected st f = false → frame_entities_ st !! f = Some e →
  SetEvictable st f flag = Some (after_set st f flag e).
Proof.
  intros Hwf Hrej Hf. unfold SetEvictable, after_set. rewrite Hrej, Hf.
  pose proof (wf_count_bound st Hwf) as Hb.
  pose proof (wf_size st Hwf) as Hs.
  do 2 f_equal. destruct (evictable_ e) eqn:He, flag; simpl; try lia.
  - pose proof (evictable_positive st f e Hwf Hf He).
    rewrite size_t_small; lia.
  - rewrite size_t_small; lia.
Qed.

Lemma after_set_wf st f flag e :
  wf st → frame_entities_ st !! f = Some e → wf (after_set st f flag e).
Proof.
  intros Hwf Hf. constructor; simpl.
  - apply (wf_hist_nodup st Hwf).
  - apply (wf_cache_nodup st Hwf).
  - intros g Hg. apply (wf_hist st Hwf) in Hg as (e' & He' & Ht).
    destruct (decide (g = f)) as [->|Hne].
    + rewrite lookup_insert_eq. simplify_eq. eauto.
    + rewrite lookup_insert_ne by done. eauto.
  - intros g Hg. apply (wf_cache st Hwf) in Hg as (e' & He' & Ht).
    destruct (decide (g = f)) as [->|Hne].
    + rewrite lookup_insert_eq. simplify_eq. eauto.
    + rewrite lookup_insert_ne by done. eauto.
  - intros g e' Hg. lookup_cases g f Hg.
    + injection Hg as <-. simpl. by apply (wf_entity st Hwf).
    + by apply (wf_entity st Hwf).
  - rewrite evictable_count_insert. simpl.
    rewrite (wf_size st Hwf), (evictable_count_delete _ f e Hf). lia.
Qed.

Lemma SetEvictable_wf st f flag st' :
  wf st → SetEvictable st f flag = Some st' → wf st'.
Proof.
  intros Hwf Hst. destruct (rejected st f) eqn:Hrej.
  - unfold SetEvictable in Hst. rewrite Hrej in Hst. congruence.
  - destruct (frame_entities_ st !! f) as [e|] eqn:Hf.
    + rewrite (SetEvictable_tracked st f flag e) in Hst by done.
      injection Hst as <-. by apply after_set_wf.
    + unfold SetEvictable in Hst. rewrite Hrej, Hf in Hst. congruence.
Qed.

Lemma after_drop_wf st f e :
  wf st → frame_entities_ st !! f = Some e → evictable_ e = true →
  wf (after_drop st f).
Proof.
  intros Hwf Hf He.
  pose proof (wf_hist_nodup st Hwf) as Hnh.
  pose proof (wf_cache_nodup st Hwf) as Hnc.
  constructor; simpl.
  - by apply NoDup_erase_node.
  - by apply NoDup_erase_node.
  - intros g Hg. apply elem_of_erase_node in Hg as [Hg Hne]; [|done].
    rewrite lookup_delete_ne by done. by apply (wf_hist st Hwf).
  - intros g Hg. apply elem_of_erase_node in Hg as [Hg Hne]; [|done].
    rewrite lookup_delete_ne by done. by apply (wf_cache st Hwf).
  - intros g e' Hg. lookup_cases g f Hg; [done|].
    destruct (wf_entity st Hwf g e' Hg) as (? & ? & ? & Hl).
    split_and!; try done.
    destruct (it_list (it_ e')); rewrite elem_of_erase_node by done; tauto.
  - rewrite (wf_size st Hwf), (evictable_count_delete _ f e Hf), He.
    simpl. lia.
Qed.

Lemma drop_size st f e :
  wf st → frame_entities_ st !! f = Some e → evictable_ e = true →
  to_size_t (curr_size_ st - 1) = curr_size_ st - 1.
Proof.
  intros Hwf Hf He.
  pose proof (evictable_positive st f e Hwf Hf He).
  pose proof (wf_count_bound st Hwf). pose proof (wf_size st Hwf).
  apply size_t_small. lia.
Qed.

Lemma Remove_tracked st f e :
  wf st → rejected st f = false → frame_entities_ st !! f = Some e →
  evictable_ e = true → Remove st f = Some (after_drop st f).
Proof.
  intros Hwf Hrej Hf He. unfold Remove, after_drop. rewrite Hrej, Hf, He.
  cbn [negb]. rewrite (drop_size st f e) by done.
  destruct (Z.ltb_spec (hit_count_ e) (k_ st)) as [Hlt|Hge].
  - destruct (tracked_hist st f e Hwf Hf) as (Hit & Hin & Hout); [lia|].
    rewrite Hit, list_erase_Some by done. cbn [mbind option_bind it_node].
    by rewrite (erase_node_notin f (cache_list_ st)).
  - destruct (tracked_cache st f e Hwf Hf) as (Hit & Hin & Hout); [lia|].
    rewrite Hit, list_erase_Some by done. cbn [mbind option_bind it_node].
    by rewrite (erase_node_notin f (hist_list_ st)).
Qed.

Lemma Remove_wf st f st' : wf st → Remove st f = Some st' → wf st'.
Proof.
  intros Hwf Hst. destruct (rejected st f) eqn:Hrej.
  - unfold Remove in Hst. rewrite Hrej in Hst. congruence.
  - destruct (frame_entities_ st !! f) as [e|] eqn:Hf.
    + destruct (evictable_ e) eqn:He.
      * rewrite (Remove_tracked st f e) in Hst by done.
        injection Hst as <-. by eapply after_drop_wf.
      * unfold Remove in Hst. rewrite Hrej, Hf, He in Hst. simpl in Hst.
        congruence.
    + unfold Remove in Hst. rewrite Hrej, Hf in Hst. congruence.
Qed.

End ReplacerOthers.

Section ReplacerEvict.
Import Replacer.

Lemma scan_rev ents l :
  (∀ g, g ∈ l → is_Some (ents !! g)) →
  match scan ents (rev l) with
  | ScanVictim f e => ents !! f = Some e ∧ tail_most_evictable ents l f
  | ScanMissing _ => False
  | ScanEnd => none_evictable ents l
  end.
Proof.
  induction l as [|x l IH] using rev_ind; intros Htr.
  - simpl. intros g Hg. by apply elem_of_nil in Hg.
  - rewrite rev_unit. cbn [scan].
    destruct (Htr x) as [e He]; [set_solver|]. rewrite He.
    destruct (evictable_ e) eqn:Hev.
    + split; [done|]. exists l, [], e. split_and!; try done.
      intros g Hg. by apply elem_of_nil in Hg.
    + assert (Htr' : ∀ g, g ∈ l → is_Some (ents !! g)).
      { intros g Hg. apply Htr. set_solver. }
      specialize (IH Htr').
      destruct (scan ents (rev l)) as [f e'| |]; [|done|].
      * destruct IH as [Hf (l1 & l2 & e'' & -> & Hf' & Hev' & Hrest)].
        split; [done|]. exists l1, (l2 ++ [x]), e''.
        split_and!; try done.
        { by rewrite <-app_assoc. }
        intros g Hg. apply elem_of_app in Hg as [Hg|Hg]; [by apply Hrest|].
        apply list_elem_of_singleton in Hg as ->. eauto.
      * intros g Hg. apply elem_of_app in Hg as [Hg|Hg]; [by apply IH|].
        apply list_elem_of_singleton in Hg as ->. eauto.
Qed.

Lemma tail_most_elem ents l f :
  tail_most_evictable ents l f → f ∈ l.
Proof. intros (l1 & l2 & e & -> & _). set_solver. Qed.

Lemma Evict_empty st : curr_size_ st <= 0 → Evict st = Some (evict_fail st).
Proof. intros H. unfold Evict. by rewrite (proj2 (Z.leb_le _ _)). Qed.

Lemma some_evictable st :
  wf st → 0 < curr_size_ st →
  ∃ f e, frame_entities_ st !! f = Some e ∧ evictable_ e = true.
Proof.
  intros Hwf Hpos. rewrite (wf_size st Hwf) in Hpos.
  unfold evictable_count in Hpos.
  destruct (map_choose (filter (λ p : Z * FrameEntity, evictable_ p.2 = true)
                          (frame_entities_ st))) as (f & e & Hfe).
  - intros Hemp. rewrite Hemp, map_size_empty in Hpos. lia.
  - apply map_lookup_filter_Some in Hfe as [? ?]. eauto.
Qed.

Lemma Evict_victim st :
  wf st → 0 < curr_size_ st →
  ∃ f, Evict st = Some (mkEvict true (Some f) (after_drop st f)) ∧
       victim st f.
Proof.
  intros Hwf Hpos. unfold Evict, victim.
  rewrite (proj2 (Z.leb_gt _ _)) by done.
  pose proof (scan_rev (frame_entities_ st) (hist_list_ st)) as Hh.
  pose proof (scan_rev (frame_entities_ st) (cache_list_ st)) as Hc.
  assert (Hth : ∀ g, g ∈ hist_list_ st → is_Some (frame_entities_ st !! g)).
  { intros g Hg. apply (wf_hist st Hwf) in Hg as (? & ? & ?). eauto. }
  assert (Htc : ∀ g, g ∈ cache_list_ st → is_Some (frame_entities_ st !! g)).
  { intros g Hg. apply (wf_cache st Hwf) in Hg as (? & ? & ?). eauto. }
  specialize (Hh Hth). specialize (Hc Htc).
  destruct (scan (frame_entities_ st) (rev (hist_list_ st))) as [f e|g|];
    [|done|].
  - destruct Hh as [Hf Htm].
    exists f. split; [|by left].
    pose proof (tail_most_elem _ _ _ Htm) as Hin.
    destruct (wf_hist st Hwf f Hin) as (e' & He' & Htag). simplify_eq.
    destruct (wf_entity st Hwf f e Hf) as (_ & _ & _ & Hl).
    rewrite Htag in Hl. destruct Hl as [_ Hlt].
    destruct (tracked_hist st f e Hwf Hf Hlt) as (Hit & _ & Hout).
    destruct Htm as (? & ? & e' & _ & He' & Hev & _). simplify_eq.
    unfold evict_from, after_drop.
    rewrite Hit, list_erase_Some by done. cbn [mbind option_bind it_node].
    rewrite (drop_size st f e) by done.
    by rewrite (erase_node_notin f (cache_list_ st)).
  - destruct (scan (frame_entities_ st) (rev (cache_list_ st))) as [f e|g|];
      [|done|].
    + destruct Hc as [Hf Htm].
      exists f. split; [|by right].
      pose proof (tail_most_elem _ _ _ Htm) as Hin.
      destruct (wf_cache st Hwf f Hin) as (e' & He' & Htag). simplify_eq.
      destruct (wf_entity st Hwf f e Hf) as (_ & _ & _ & Hl).
      rewrite Htag in Hl. destruct Hl as [_ Hge].
      destruct (tracked_cache st f e Hwf Hf Hge) as (Hit & _ & Hout).
      destruct Htm as (? & ? & e' & _ & He' & Hev & _). simplify_eq.
      unfold evict_from, after_drop.
      rewrite Hit, list_erase_Some by done. cbn [mbind option_bind it_node].
      rewrite (drop_size st f e) by done.
      by rewrite (erase_node_notin f (hist_list_ st)).
    + exfalso.
      destruct (some_evictable st Hwf Hpos) as (f & e & Hf & Hev).
      destruct (wf_entity st Hwf f e Hf) as (_ & _ & _ & Hl).
      destruct (it_list (it_ e)); destruct Hl as [Hin _].
      * destruct (Hh f Hin) as (e' & ? & ?). simplify_eq. congruence.
      * destruct (Hc f Hin) as (e' & ? & ?). simplify_eq. congruence.
Qed.

Lemma Evict_wf st r : wf st → Evict st = Some r → wf (ev_post r).
Proof.
  intros Hwf Hr. destruct (Z.le_gt_cases (curr_size_ st) 0) as [Hz|Hpos].
  - rewrite Evict_empty in Hr by done. by injection Hr as <-.
  - destruct (Evict_victim st Hwf) as (f & Hf & Hv); [lia|].
    rewrite Hf in Hr. injection Hr as <-. simpl.
    assert (∃ e, frame_entities_ st !! f = Some e ∧ evictable_ e = true)
      as (e & He & Hev).
    { destruct Hv as [Hv|[_ Hv]];
        destruct Hv as (? & ? & e & _ & ? & ? & _); eauto. }
    by eapply after_drop_wf.
Qed.

Lemma step_wf st o st' : wf st → op_ok o → step st o = Some st' → wf st'.
Proof.
  intros Hwf Hok Hst. destruct o as [f|f b| |f]; simpl in *.
  - by eapply RecordAccess_wf.
  - by eapply SetEvictable_wf.
  - destruct (Evict st) as [r|] eqn:Hr; [|done]. injection Hst as <-.
    by eapply Evict_wf.
  - by eapply Remove_wf.
Qed.

Lemma reachable_wf st : reachable st → wf st.
Proof.
  induction 1 as [n k|st o st' _ IH Hok Hst].
  - apply wf_new.
  - by eapply step_wf.
Qed.

Lemma step_params st o st' :
  step st o = Some st' →
  k_ st' = k_ st ∧ replacer_size_ st' = replacer_size_ st.
Proof.
  intros Hst. destruct o as [f|f b| |f]; simpl in Hst.
  - unfold RecordAccess in Hst.
    destruct (rejected st f); [by simplify_eq|].
    destruct (frame_entities_ st !! f);
      repeat (case_match; simplify_option_eq); done.
  - unfold SetEvictable in Hst.
    destruct (rejected st f); [by simplify_eq|].
    destruct (frame_entities_ st !! f); by simplify_eq.
  - destruct (Evict st) as [r|] eqn:Hr; [|done]. injection Hst as <-.
    unfold Evict, evict_from, evict_fail in Hr.
    repeat (case_match; simplify_option_eq); done.
  - unfold Remove in Hst.
    destruct (rejected st f); [by simplify_eq|].
    destruct (frame_entities_ st !! f); [|by simplify_eq].
    repeat (case_match; simplify_option_eq); done.
Qed.

Lemma reachable_params st :
  reachable st → is_size_t (k_ st) ∧ is_size_t (replacer_size_ st).
Proof.
  induction 1 as [n k|st o st' _ IH Hok Hst]; [done|].
  by destruct (step_params st o st' Hst) as [-> ->].
Qed.

End ReplacerEvict.

Section ReplacerClaims.
Import Replacer.

Lemma run_reachable st os st' :
  reachable st → Forall op_ok os → run st os = Some st' → reachable st'.
Proof.
  intros Hst Hok. revert st Hst.
  induction Hok as [|o os Ho Hos IH]; intros st Hst Hrun; simpl in Hrun.
  - by injection Hrun as <-.
  - destruct (step st o) as [st1|] eqn:Hstep; [|done]. simpl in Hrun.
    apply (IH st1); [|done]. by eapply reach_step.
Qed.

Lemma scenario_reachable : reachable scenario_state.
Proof.
  apply (run_reachable (new 7 2) scenario_trace).
  - apply reach_new; unfold is_size_t; lia.
  - repeat constructor; unfold is_frame_id; simpl; lia.
  - reflexivity.
Qed.

(** C1 (as stated): the frame taken from the history list need not be
    the least recently accessed one. With [k = 3], after accesses to 1, 2
    and 1 again, both frames are evictable and below [k] hits, frame 2 was
    accessed last at step 1 and frame 1 at step 2, and [Evict] returns
    frame 1. *)
Lemma Evict_not_least_recently_accessed :
  run (new 7 3) c1_trace = Some c1_state ∧
  hist_list_ c1_state = [2; 1] ∧
  (evictable_ <$> frame_entities_ c1_state !! 1) = Some true ∧
  (evictable_ <$> frame_entities_ c1_state !! 2) = Some true ∧
  (hit_count_ <$> frame_entities_ c1_state !! 1) = Some 2 ∧
  (hit_count_ <$> frame_entities_ c1_state !! 2) = Some 1 ∧
  last_access c1_trace 2 0 = Some 1%nat ∧
  last_access c1_trace 1 0 = Some 2%nat ∧
  (ev_ret <$> Evict c1_state) = Some true ∧
  (ev_store <$> Evict c1_state) = Some (Some 1).
Proof. vm_compute. repeat split; reflexivity. Qed.

Lemma rejected_outside st f :
  is_frame_id f → replacer_size_ st < 2 ^ 64 - 2 ^ 31 →
  f < 0 ∨ replacer_size_ st < f → rejected st f = true.
Proof.
  unfold is_frame_id, rejected, to_size_t. intros Hid Hcap Hout.
  apply Z.gtb_lt. destruct (Z.neg_nonneg_cases f) as [Hneg|Hpos].
  - rewrite <-(Z_mod_plus_full f 1 (2 ^ 64)). rewrite Z.mod_small; lia.
  - rewrite Z.mod_small; lia.
Qed.

Lemma accepted_inside st f :
  is_frame_id f → 0 <= f <= replacer_size_ st → rejected st f = false.
Proof.
  unfold is_frame_id, rejected, to_size_t. intros Hid Hin.
  rewrite Z.mod_small by lia. rewrite Z.gtb_ltb. apply Z.ltb_ge. lia.
Qed.

(** C4 (as stated): the frame id equal to the capacity lies outside
    [0, replacer_capacity), yet [SetEvictable] is not a no-op for it. On a
    replacer of capacity 7 that tracks frame 7, [SetEvictable(7, false)]
    takes [Size()] from 1 to 0, and [SetEvictable(7, true)] back to 1. *)
Lemma SetEvictable_changes_capacity_frame :
  ¬ (0 <= 7 < replacer_size_ (new 7 2)) ∧
  ∃ st, run (new 7 2) [OpRecordAccess 7] = Some st ∧
        Size st = 1 ∧
        (Size <$> SetEvictable st 7 false) = Some 0 ∧
        (Size <$> (st1 ← SetEvictable st 7 false; SetEvictable st1 7 true))
        = Some 1.
Proof.
  split; [simpl; lia|]. eexists. split; [reflexivity|].
  by vm_compute.
Qed.

(** C4 (amended): in every reachable state [Size()] is the number of
    tracked records whose evictable flag is set. [SetEvictable] always
    returns and leaves both lists as they are. It changes nothing for a
    frame that is unknown and for a frame id that the bound check rejects:
    every id above the capacity and, for a capacity below 2^64 - 2^31,
    every negative id. Every id from 0 up to and including the capacity
    passes the check; for such a frame, if tracked, the call sets the
    flag and moves [curr_size_] by one exactly when the flag changes. *)
Theorem Size_counts_evictable st :
  reachable st →
  Size st = Z.of_nat (evictable_count (frame_entities_ st)) ∧
  ∀ f flag, ∃ st',
    SetEvictable st f flag = Some st' ∧
    hist_list_ st' = hist_list_ st ∧ cache_list_ st' = cache_list_ st ∧
    Size st' = Z.of_nat (evictable_count (frame_entities_ st')) ∧
    (is_frame_id f → replacer_size_ st < 2 ^ 64 - 2 ^ 31 →
     f < 0 ∨ replacer_size_ st < f → st' = st) ∧
    (is_frame_id f → 0 <= f <= replacer_size_ st → rejected st f = false) ∧
    match frame_entities_ st !! f with
    | None => st' = st
    | Some e =>
        if rejected st f then st' = st
        else
          frame_entities_ st'
          = <[f := mkEntity (hit_count_ e) flag (it_ e)]> (frame_entities_ st) ∧
          Size st' = match evictable_ e, flag with
                     | true, false => Size st - 1
                     | false, true => Size st + 1
                     | _, _ => Size st
                     end
    end.
Proof.
  intros Hreach. pose proof (reachable_wf st Hreach) as Hwf.
  split; [apply (wf_size st Hwf)|]. intros f flag.
  assert (Hin : is_frame_id f → 0 <= f <= replacer_size_ st →
                rejected st f = false) by apply accepted_inside.
  destruct (rejected st f) eqn:Hrej.
  { exists st. unfold SetEvictable. rewrite Hrej.
    split_and!; try done; [apply (wf_size st Hwf)|]. by case_match. }
  assert (Hout : is_frame_id f → replacer_size_ st < 2 ^ 64 - 2 ^ 31 →
                 f < 0 ∨ replacer_size_ st < f → False).
  { intros Hid Hcap Hf. rewrite (rejected_outside st f) in Hrej; done. }
  destruct (frame_entities_ st !! f) as [e|] eqn:Hf.
  - exists (after_set st f flag e).
    pose proof (after_set_wf st f flag e Hwf Hf) as Hwf'.
    split_and!; try done.
    + by apply SetEvictable_tracked.
    + apply (wf_size _ Hwf').
    + intros Hid Hcap Hfo. by destruct (Hout Hid Hcap Hfo).
    + unfold Size. simpl. destruct (evictable_ e), flag; simpl; lia.
  - exists st. unfold SetEvictable. rewrite Hrej, Hf.
    split_and!; try done. apply (wf_size st Hwf).
Qed.

Lemma Size_counts_evictable_witness :
  Size scenario_state
  = Z.of_nat (evictable_count (frame_entities_ scenario_state)).
Proof.
  apply (Size_counts_evictable scenario_state scenario_reachable).
Defined.

(** C5 (as stated): the frame id equal to the capacity lies outside
    [0, replacer_capacity), yet [RecordAccess] accepts it and starts
    tracking it. *)
Lemma RecordAccess_accepts_capacity :
  ¬ (0 <= 7 < replacer_size_ (new 7 2)) ∧
  Size (new 7 2) = 0 ∧
  (Size <$> RecordAccess (new 7 2) 7) = Some 1 ∧
  (hist_list_ <$> RecordAccess (new 7 2) 7) = Some [7].
Proof. split; [simpl; lia|]. vm_compute. repeat split; reflexivity. Qed.

(** C5 (amended): for every frame id that the bound check rejects, that
    is every id above the capacity and every negative id (whose conversion
    to [size_t] exceeds any capacity below 2^64 - 2^31), each of
    [RecordAccess], [SetEvictable] and [Remove] returns with the replacer
    exactly as it was. The id equal to the capacity is accepted. *)
Theorem rejected_frame_is_noop st f flag :
  is_frame_id f → replacer_size_ st < 2 ^ 64 - 2 ^ 31 →
  f < 0 ∨ replacer_size_ st < f →
  RecordAccess st f = Some st ∧
  SetEvictable st f flag = Some st ∧
  Remove st f = Some st.
Proof.
  intros Hid Hcap Hout.
  pose proof (rejected_outside st f Hid Hcap Hout) as Hrej.
  unfold RecordAccess, SetEvictable, Remove. by rewrite Hrej.
Qed.

Lemma rejected_frame_is_noop_witness :
  RecordAccess scenario_state 8 = Some scenario_state ∧
  SetEvictable scenario_state 8 false = Some scenario_state ∧
  Remove scenario_state 8 = Some scenario_state.
Proof.
  apply (rejected_frame_is_noop scenario_state 8 false).
  - unfold is_frame_id. lia.
  - by vm_compute.
  - right. by vm_compute.
Defined.

(** C6: for a reachable replacer with [k_ >= 1] and a frame id in
    [0, replacer_size_), [RecordAccess] returns. A frame not yet tracked
    gets a record that is evictable and, created with count 0 at the front
    of the history list, ends the call with count 1; a tracked frame has
    its count raised by one and keeps its flag. When the new count is
    below [k_] a tracked frame stays where it is; when it equals [k_] the
    frame leaves the history list and becomes the front of the cache list;
    when it exceeds [k_] the frame is moved to the front of the cache
    list. No other record changes. *)
Theorem RecordAccess_counts_and_moves st f :
  reachable st → 1 <= k_ st → 0 <= f < replacer_size_ st → is_frame_id f →
  ∃ st' e',
    RecordAccess st f = Some st' ∧
    frame_entities_ st' !! f = Some e' ∧
    (∀ g, g ≠ f → frame_entities_ st' !! g = frame_entities_ st !! g) ∧
    match frame_entities_ st !! f with
    | None =>
        hit_count_ e' = 0 + 1 ∧ evictable_ e' = true ∧
        Size st' = Size st + 1 ∧
        if 0 + 1 <? k_ st
        then hist_list_ st' = f :: hist_list_ st ∧
             cache_list_ st' = cache_list_ st
        else hist_list_ st' = erase_node f (f :: hist_list_ st) ∧
             hist_list_ st' = hist_list_ st ∧
             cache_list_ st' = f :: cache_list_ st
    | Some e =>
        hit_count_ e' = hit_count_ e + 1 ∧ evictable_ e' = evictable_ e ∧
        Size st' = Size st ∧
        if hit_count_ e + 1 <? k_ st
        then hist_list_ st' = hist_list_ st ∧
             cache_list_ st' = cache_list_ st
        else if hit_count_ e + 1 =? k_ st
        then f ∈ hist_list_ st ∧
             hist_list_ st' = erase_node f (hist_list_ st) ∧
             cache_list_ st' = f :: cache_list_ st
        else f ∈ cache_list_ st ∧
             hist_list_ st' = hist_list_ st ∧
             cache_list_ st' = f :: erase_node f (cache_list_ st)
    end.
Proof.
  intros Hreach Hk Hin Hid. pose proof (reachable_wf st Hreach) as Hwf.
  assert (Hrej : rejected st f = false) by (apply accepted_inside; [done|lia]).
  exists (after_access st f).
  rewrite RecordAccess_after by (done || by left).
  unfold after_access, Size.
  destruct (frame_entities_ st !! f) as [e|] eqn:Hf;
    cbn [from_option hit_count_ evictable_].
  - destruct (wf_entity st Hwf f e Hf) as (_ & _ & Hhits & _).
    destruct (Z.ltb_spec (hit_count_ e + 1) (k_ st)) as [Hlt|Hge]; simpl.
    + eexists. rewrite lookup_insert_eq. split_and!; try done.
      intros g Hg. by rewrite lookup_insert_ne.
    + eexists. rewrite lookup_insert_eq. split_and!; try done.
      { intros g Hg. by rewrite lookup_insert_ne. }
      destruct (Z.eqb_spec (hit_count_ e + 1) (k_ st)) as [Heq|Hne].
      * destruct (tracked_hist st f e Hwf Hf) as (_ & ? & ?); [lia|].
        split_and!; try done. by rewrite (erase_node_notin f (cache_list_ st)).
      * destruct (tracked_cache st f e Hwf Hf) as (_ & ? & ?); [lia|].
        split_and!; try done. by rewrite (erase_node_notin f (hist_list_ st)).
  - destruct (untracked_not_listed st f Hwf Hf) as [Hh Hc].
    destruct (Z.ltb_spec (0 + 1) (k_ st)) as [Hlt|Hge]; simpl.
    + eexists. rewrite lookup_insert_eq. split_and!; try done.
      intros g Hg. by rewrite lookup_insert_ne.
    + eexists. rewrite lookup_insert_eq. split_and!; try done.
      { intros g Hg. by rewrite lookup_insert_ne. }
      { by rewrite decide_True. }
      by rewrite (erase_node_notin f (cache_list_ st)).
Qed.

Lemma RecordAccess_counts_and_moves_witness :
  ∃ st' e',
    RecordAccess scenario_state 2 = Some st' ∧
    frame_entities_ st' !! 2 = Some e' ∧
    hit_count_ e' = 2 ∧ hist_list_ st' = [3] ∧ cache_list_ st' = [2; 1].
Proof.
  destruct (RecordAccess_counts_and_moves scenario_state 2)
    as (st' & e' & Hst & He & _ & Hcase).
  - exact scenario_reachable.
  - by vm_compute.
  - by vm_compute.
  - unfold is_frame_id. lia.
  - exists st', e'. split; [done|]. split; [done|].
    assert (Hl : frame_entities_ scenario_state !! 2
                 = Some (mkEntity 1 true (mkIt HistList 2))) by reflexivity.
    rewrite Hl in Hcase. destruct Hcase as (Hh & _ & _ & Hlists).
    vm_compute in Hlists. destruct Hlists as (_ & H1 & H2).
    split; [exact Hh|]. split; [exact H1|exact H2].
Defined.

(** C10: whenever [Evict] returns false nothing is stored through the
    pointer it was given, so the caller's variable keeps its value. *)
Theorem Evict_failure_stores_nothing st r before :
  Evict st = Some r → ev_ret r = false →
  ev_store r = None ∧ caller_var before r = before.
Proof.
  intros Hr Hret.
  assert (Hstore : ev_store r = None).
  { unfold Evict, evict_from, evict_fail in Hr.
    repeat (case_match; simplify_option_eq); done. }
  split; [done|]. unfold caller_var. by rewrite Hstore.
Qed.

Lemma Evict_failure_stores_nothing_witness :
  ev_store (mkEvict false None (new 7 2)) = None ∧
  caller_var 42 (mkEvict false None (new 7 2)) = 42.
Proof.
  apply (Evict_failure_stores_nothing (new 7 2)); reflexivity.
Defined.

End ReplacerClaims.

(* ================================================================== *)
(** * Properties of the extendible hash table *)
(* ================================================================== *)

Section LowBits.
Import HashTable.

Lemma low_bits_mod d x : 0 <= d → low_bits d x = x mod 2 ^ d.
Proof. intros. unfold low_bits. by apply Z.land_ones. Qed.

Lemma low_bits_range d x : 0 <= d → 0 <= low_bits d x < 2 ^ d.
Proof.
  intros. rewrite low_bits_mod by done. apply Z.mod_pos_bound. lia.
Qed.

Lemma low_bits_small d x : 0 <= d → 0 <= x < 2 ^ d → low_bits d x = x.
Proof. intros. rewrite low_bits_mod by done. by apply Z.mod_small. Qed.

Lemma low_bits_nested d d' x :
  0 <= d <= d' → low_bits d (low_bits d' x) = low_bits d x.
Proof.
  intros Hd. unfold low_bits. apply Z.bits_inj'. intros n Hn.
  rewrite !Z.land_spec, !Z.testbit_ones_nonneg by lia.
  destruct (Z.ltb_spec n d), (Z.ltb_spec n d'); try lia;
    by rewrite ?andb_true_r, ?andb_false_r.
Qed.

Lemma low_bits_agree d d' x y :
  0 <= d <= d' → low_bits d' x = low_bits d' y → low_bits d x = low_bits d y.
Proof.
  intros Hd Heq.
  rewrite <-(low_bits_nested d d' x), <-(low_bits_nested d d' y) by done.
  by rewrite Heq.
Qed.

Lemma low_bits_add_pow d g x :
  0 <= d <= g → low_bits d (x + 2 ^ g) = low_bits d x.
Proof.
  intros Hd. rewrite !low_bits_mod by lia.
  replace (2 ^ g) with (2 ^ (g - d) * 2 ^ d)
    by (rewrite <-Z.pow_add_r by lia; f_equal; lia).
  apply Z.mod_add. lia.
Qed.

Lemma low_bits_succ d x :
  0 <= d →
  low_bits (d + 1) x = low_bits d x ∨
  low_bits (d + 1) x = low_bits d x + 2 ^ d.
Proof.
  intros Hd. rewrite !low_bits_mod by lia.
  rewrite Z.pow_add_r, Z.pow_1_r by lia.
  rewrite Z.rem_mul_r by lia.
  pose proof (Z.mod_pos_bound (x / 2 ^ d) 2 ltac:(lia)) as Hb.
  assert (Hc : (x / 2 ^ d) mod 2 = 0 ∨ (x / 2 ^ d) mod 2 = 1) by lia.
  destruct Hc as [-> | ->]; lia.
Qed.

(** Two numbers that agree on the low [d] bits with [low] and both
    differ from it on the low [d + 1] bits agree on the low [d + 1]. *)
Lemma low_bits_sibling d x y low :
  0 <= d → low_bits d x = low → low_bits d y = low →
  low_bits (d + 1) x ≠ low → low_bits (d + 1) y ≠ low →
  low_bits (d + 1) x = low_bits (d + 1) y.
Proof.
  intros Hd Hx Hy Hnx Hny.
  destruct (low_bits_succ d x Hd), (low_bits_succ d y Hd); lia.
Qed.

Lemma int_shl1_Some d :
  0 <= d <= 30 → int_shl1 d = Some (Z.ones d + 1).
Proof.
  intros. unfold int_shl1. rewrite decide_True by done.
  f_equal. unfold Z.ones. lia.
Qed.

Lemma int_shl1_inv d p :
  int_shl1 d = Some p → 0 <= d <= 30 ∧ p - 1 = Z.ones d.
Proof.
  unfold int_shl1. case_decide; [|done]. intros [= <-].
  split; [done|]. unfold Z.ones. lia.
Qed.

Lemma int_shl1_None d : ¬ (0 <= d <= 30) → int_shl1 d = None.
Proof. intros. unfold int_shl1. by rewrite decide_False. Qed.

End LowBits.

Section BucketLists.
Import HashTable.
Context {K V : Type} `{EqDecision K}.
Implicit Types (l : list (K * V)) (key : K) (value : V).

Lemma Bucket_Find_None l key : Bucket_Find l key = None ↔ key ∉ l.*1.
Proof.
  induction l as [|[k v] l IH]; simpl.
  - split; [intros _; apply not_elem_of_nil|done].
  - rewrite not_elem_of_cons. case_decide as Hk; simpl in Hk.
    + subst. split; [done|]. by intros [? _].
    + rewrite IH. split; [intros ?; split; [congruence|done]|by intros [_ ?]].
Qed.

Lemma Bucket_Find_Some l key value :
  Bucket_Find l key = Some value → (key, value) ∈ l.
Proof.
  induction l as [|[k v] l IH]; simpl; [done|].
  case_decide; subst.
  - intros [= ->]. by left.
  - intros. right. by apply IH.
Qed.

Lemma Bucket_Find_NoDup l key value :
  NoDup l.*1 → (key, value) ∈ l → Bucket_Find l key = Some value.
Proof.
  induction l as [|[k v] l IH]; simpl; intros Hnd Hin.
  - by apply elem_of_nil in Hin.
  - apply NoDup_cons in Hnd as [Hk Hnd].
    apply elem_of_cons in Hin as [[= -> ->]|Hin].
    + by rewrite decide_True.
    + rewrite decide_False; [by apply IH|].
      intros ->. apply Hk. apply list_elem_of_fmap. by exists (key, value).
Qed.

Lemma Bucket_update_None l key value :
  Bucket_update l key value = None ↔ Bucket_Find l key = None.
Proof.
  induction l as [|[k v] l IH]; simpl; [done|].
  case_decide; [done|]. rewrite fmap_None. apply IH.
Qed.

Lemma Bucket_update_Some l key value l' :
  Bucket_update l key value = Some l' →
  l'.*1 = l.*1 ∧ Bucket_Find l' key = Some value ∧
  (∀ k, k ≠ key → Bucket_Find l' k = Bucket_Find l k) ∧
  (∀ k v, (k, v) ∈ l' → k ∈ l.*1).
Proof.
  revert l'. induction l as [|[k v] l IH]; simpl; intros l' Hl'; [done|].
  case_decide as Hk; subst.
  - injection Hl' as <-. simpl. rewrite decide_True by done.
    split_and!; try done.
    + intros k Hk. by rewrite !decide_False by done.
    + intros k0 v0 Hin. apply elem_of_cons in Hin as [[= -> ->]|Hin].
      * by left.
      * right. apply list_elem_of_fmap. by exists (k0, v0).
  - apply fmap_Some in Hl' as (l1 & Hl1 & ->).
    destruct (IH l1 Hl1) as (Hfst & Hfind & Hother & Hsub). simpl.
    rewrite decide_False by done. split_and!; try done.
    + f_equal. exact Hfst.
    + intros k0 Hk0. case_decide; [done|]. by apply Hother.
    + intros k0 v0 Hin. apply elem_of_cons in Hin as [[= -> ->]|Hin].
      * by left.
      * right. by eapply Hsub.
Qed.

Lemma Bucket_Find_app l key value k :
  Bucket_Find l key = None →
  Bucket_Find (l ++ [(key, value)]) k
  = if decide (k = key) then Some value else Bucket_Find l k.
Proof.
  induction l as [|[k0 v0] l IH]; simpl; intros Hnone.
  - destruct (decide (key = k)), (decide (k = key)); congruence.
  - destruct (decide (k0 = key)) as [->|Hne]; [done|].
    destruct (decide (k0 = k)) as [->|Hne'].
    + by rewrite decide_False by done.
    + by apply IH.
Qed.

Lemma Bucket_Remove_spec l key :
  let '(ok, l') := Bucket_Remove l key in
  (ok = true ↔ key ∈ l.*1) ∧
  (ok = false → l' = l) ∧
  l' ⊆ l ∧ (length l' ≤ length l)%nat ∧
  (NoDup l.*1 → NoDup l'.*1 ∧ Bucket_Find l' key = None) ∧
  (∀ k, k ≠ key → Bucket_Find l' k = Bucket_Find l k).
Proof.
  induction l as [|[k v] l IH]; simpl.
  - split_and!; try done.
    all: first [ by (split; [done|intros Hin; by apply elem_of_nil in Hin])
               | by (intros _; split; [constructor|done]) ].
  - destruct (decide (key = k)) as [->|Hne].
    + split_and!; try done.
      * split; [intros _; by left|done].
      * set_solver.
      * lia.
      * intros Hnd. apply NoDup_cons in Hnd as [Hk Hnd].
        split; [done|]. by apply Bucket_Find_None.
      * intros k0 Hk0. by rewrite decide_False by done.
    + destruct (Bucket_Remove l key) as [ok l'].
      destruct IH as (Hok & Hsame & Hsub & Hlen & Hnd & Hother).
      split_and!.
      * rewrite Hok. split; [intros Hin; by right|].
        intros Hin. by apply elem_of_cons in Hin as [?|?].
      * intros Hf. by rewrite Hsame.
      * intros x Hx. apply elem_of_cons in Hx as [->|Hx]; [by left|].
        right. by apply Hsub.
      * simpl. lia.
      * intros Hnd'. simpl in Hnd'. apply NoDup_cons in Hnd' as [Hk Hnd'].
        destruct (Hnd Hnd') as [Hnd1 Hnone]. simpl.
        rewrite decide_False by done. split; [|done].
        constructor; [|done]. intros Hin. apply Hk.
        apply list_elem_of_fmap in Hin as ([k1 v1] & -> & Hin).
        apply list_elem_of_fmap. exists (k1, v1). split; [done|].
        by apply Hsub.
      * intros k0 Hk0. simpl. case_decide; [done|]. by apply Hother.
Qed.

Lemma Bucket_Find_filter (Q : K * V → Prop) `{∀ e, Decision (Q e)} l key :
  (∀ v, (key, v) ∈ l → Q (key, v)) →
  Bucket_Find (filter Q l) key = Bucket_Find l key.
Proof.
  induction l as [|[k v] l IH]; intros HQ; [done|].
  rewrite filter_cons. simpl. destruct (decide (k = key)) as [->|Hne].
  - rewrite decide_True by (apply HQ; by left). simpl.
    by rewrite decide_True.
  - assert (IH' : Bucket_Find (filter Q l) key = Bucket_Find l key).
    { apply IH. intros v' Hin. apply HQ. by right. }
    destruct (decide (Q (k, v))); simpl; [|done].
    by rewrite decide_False.
Qed.

End BucketLists.

Section TableBasics.
Import HashTable.
Context {K V : Type} `{EqDecision K} (hash : K → Z).
Abbreviation table := (@ExtendibleHashTable K V).
Abbreviation bucket := (@Bucket K V).
Implicit Types (ht : table) (b : bucket) (key : K) (value : V).

Lemma IndexOf_inv ht key :
  0 <= global_depth_ ht <= 30 →
  IndexOf hash ht key = Some (low_bits (global_depth_ ht) (hash key)).
Proof.
  intros Hd. unfold IndexOf. rewrite int_shl1_Some by done. simpl.
  by rewrite Z.add_simpl_r.
Qed.

Lemma IndexOf_undefined ht key :
  ¬ (0 <= global_depth_ ht <= 30) → IndexOf hash ht key = None.
Proof. intros Hd. unfold IndexOf. by rewrite int_shl1_None. Qed.

Lemma Find_target ht key :
  Find hash ht key
  = rb ← target hash ht key; Some (Bucket_Find (list_ rb.2) key).
Proof. unfold Find, target. by destruct (IndexOf hash ht key). Qed.

Lemma bucket_at_Some ht idx r b :
  0 <= idx → dir_ ht !! Z.to_nat idx = Some r → heap_ ht !! r = Some b →
  bucket_at ht idx = Some (r, b).
Proof.
  intros Hidx Hr Hb. unfold bucket_at. rewrite decide_True by done.
  rewrite Hr. simpl. by rewrite Hb.
Qed.

Lemma bucket_at_inv ht idx r b :
  bucket_at ht idx = Some (r, b) →
  0 <= idx ∧ dir_ ht !! Z.to_nat idx = Some r ∧ heap_ ht !! r = Some b.
Proof.
  unfold bucket_at. case_decide; [|done]. intros Hb.
  destruct (dir_ ht !! Z.to_nat idx) as [r'|]; [|done]. simpl in Hb.
  destruct (heap_ ht !! r') as [b'|] eqn:Hb'; [|done].
  simpl in Hb. simplify_eq. by split_and!.
Qed.

Lemma slot_in_range ht idx :
  table_inv hash ht → 0 <= idx < 2 ^ global_depth_ ht →
  (Z.to_nat idx < length (dir_ ht))%nat.
Proof. intros Hinv Hidx. pose proof (inv_len _ _ Hinv). lia. Qed.

Lemma slot_bucket ht idx :
  table_inv hash ht → 0 <= idx < 2 ^ global_depth_ ht →
  ∃ r b, bucket_at ht idx = Some (r, b) ∧
         dir_ ht !! Z.to_nat idx = Some r ∧ heap_ ht !! r = Some b ∧
         bucket_ok hash ht (Z.to_nat idx) b.
Proof.
  intros Hinv Hidx.
  destruct (lookup_lt_is_Some_2 (dir_ ht) (Z.to_nat idx)) as [r Hr].
  { by apply slot_in_range. }
  destruct (inv_slot _ _ Hinv _ _ Hr) as (b & Hb & Hok).
  exists r, b. split_and!; try done. apply bucket_at_Some; [lia|done..].
Qed.

(** The slot and the bucket of a key in a table that satisfies the
    invariant. *)
Lemma target_inv ht key :
  table_inv hash ht →
  ∃ r b, let idx := low_bits (global_depth_ ht) (hash key) in
    IndexOf hash ht key = Some idx ∧
    target hash ht key = Some (r, b) ∧
    dir_ ht !! Z.to_nat idx = Some r ∧ heap_ ht !! r = Some b ∧
    bucket_ok hash ht (Z.to_nat idx) b.
Proof.
  intros Hinv. pose proof (inv_depth _ _ Hinv) as Hd.
  pose proof (low_bits_range (global_depth_ ht) (hash key)) as Hr.
  destruct (slot_bucket ht (low_bits (global_depth_ ht) (hash key)))
    as (r & b & Hat & Hdir & Hheap & Hok); [done|lia|].
  exists r, b. simpl. split_and!; try done.
  - by apply IndexOf_inv.
  - unfold target. rewrite IndexOf_inv by done. done.
Qed.

Lemma slot_fresh ht i r :
  table_inv hash ht → dir_ ht !! i = Some r → (r < length (heap_ ht))%nat.
Proof.
  intros Hinv Hr. destruct (inv_slot _ _ Hinv _ _ Hr) as (b & Hb & _).
  by eapply lookup_lt_Some.
Qed.

Lemma repoint_lookup base_mask split_mask low r1 r2 (dir : list nat) i :
  repoint base_mask split_mask low r1 r2 dir !! i
  = (λ r, if Z.land (Z.of_nat i) base_mask =? low then
            if Z.land (Z.of_nat i) split_mask =? low then r1 else r2
          else r) <$> dir !! i.
Proof. unfold repoint. by rewrite list_lookup_imap. Qed.

Lemma redistribute_filter ht split_mask low items :
  0 <= global_depth_ ht <= 30 →
  redistribute hash ht split_mask low items
  = Some (filter (λ e, Z.land (low_bits (global_depth_ ht) (hash e.1))
                         split_mask = low) items,
          filter (λ e, ¬ Z.land (low_bits (global_depth_ ht) (hash e.1))
                           split_mask = low) items).
Proof.
  intros Hd. induction items as [|e items IH]; simpl; [done|].
  rewrite IndexOf_inv by done. simpl. rewrite IH. simpl.
  rewrite !filter_cons.
  destruct (Z.eqb_spec (Z.land (low_bits (global_depth_ ht) (hash e.1))
                          split_mask) low) as [Heq|Hne].
  - rewrite decide_True by done. by rewrite decide_False by tauto.
  - rewrite decide_False by done. by rewrite decide_True by done.
Qed.

End TableBasics.

Section TableInvariant.
Import HashTable.
Context {K V : Type} `{EqDecision K} (hash : K → Z).
Abbreviation table := (@ExtendibleHashTable K V).
Abbreviation bucket := (@Bucket K V).
Implicit Types (ht : table) (b : bucket) (key : K) (value : V).

Lemma NoDup_filter_keys (P : K * V → Prop) `{∀ e, Decision (P e)}
    (l : list (K * V)) :
  NoDup l.*1 → NoDup (filter P l).*1.
Proof.
  intros Hnd. eapply sublist_NoDup; [exact Hnd|].
  apply fmap_sublist, sublist_filter.
Qed.

Lemma new_inv bucket_size :
  0 <= bucket_size → table_inv hash (new bucket_size : table).
Proof.
  intros Hcap. constructor; simpl; try done.
  - intros i r Hi. apply list_lookup_singleton_Some in Hi as [-> <-].
    eexists. split; [done|]. constructor; simpl; try done; try lia.
    + constructor.
    + intros k v Hin. by apply elem_of_nil in Hin.
  - intros i j r b Hi Hb Hj.
    apply list_lookup_singleton_Some in Hi as [-> <-].
    assert (j = 0%nat) as -> by lia. done.
Qed.

Lemma bucket_ok_mono ht ht' i b :
  global_depth_ ht <= global_depth_ ht' →
  bucket_size_ ht' = bucket_size_ ht →
  bucket_ok hash ht i b → bucket_ok hash ht' i b.
Proof.
  intros Hgd Hbs [H1 H2 H3 H4 H5].
  constructor; rewrite ?Hbs; try done. lia.
Qed.

Lemma set_bucket_inv ht r b b' :
  table_inv hash ht → heap_ ht !! r = Some b →
  size_ b' = size_ b → depth_ b' = depth_ b →
  Z.of_nat (length (list_ b')) <= bucket_size_ ht →
  NoDup (list_ b').*1 →
  (∀ i k v, dir_ ht !! i = Some r → (k, v) ∈ list_ b' →
     low_bits (depth_ b) (hash k) = low_bits (depth_ b) (Z.of_nat i)) →
  table_inv hash (set_bucket ht r b').
Proof.
  intros Hinv Hb Hsize Hdepth Hcap Hnd Hkeys.
  pose proof (lookup_lt_Some _ _ _ Hb) as Hlt.
  constructor; simpl.
  - apply (inv_depth _ _ Hinv).
  - apply (inv_cap _ _ Hinv).
  - apply (inv_len _ _ Hinv).
  - intros i r0 Hi. destruct (inv_slot _ _ Hinv i r0 Hi) as (b0 & Hb0 & Hok).
    destruct (decide (r0 = r)) as [->|Hne].
    + exists b'. rewrite list_lookup_insert_eq by done. split; [done|].
      rewrite Hb in Hb0. injection Hb0 as <-. destruct Hok.
      constructor; simpl; rewrite ?Hsize, ?Hdepth; try done.
      intros k v Hin. by eapply Hkeys.
    + exists b0. rewrite list_lookup_insert_ne by done. split; [done|].
      apply (bucket_ok_mono ht); [simpl; lia|done|done].
  - intros i j r0 b0 Hi Hb0 Hj.
    destruct (decide (r0 = r)) as [->|Hne].
    + rewrite list_lookup_insert_eq in Hb0 by done. injection Hb0 as <-.
      rewrite Hdepth. by apply (inv_share _ _ Hinv).
    + rewrite list_lookup_insert_ne in Hb0 by done.
      by apply (inv_share _ _ Hinv).
Qed.

(** A slot of the doubled directory and the slot it was copied from. *)
Lemma grow_lookup (dir : list nat) i :
  (i < length dir + length dir)%nat →
  ∃ i0, (i0 < length dir)%nat ∧ (dir ++ dir) !! i = dir !! i0 ∧
        (i = i0 ∨ i = (i0 + length dir)%nat).
Proof.
  intros Hi. destruct (decide (i < length dir)%nat) as [Hlt|Hge].
  - exists i. split_and!; [done| |by left]. by apply lookup_app_l.
  - exists (i - length dir)%nat. split_and!; [lia| |right; lia].
    apply lookup_app_r. lia.
Qed.

Lemma grow_low_bits ht d (i i0 : nat) :
  table_inv hash ht → 0 <= d <= global_depth_ ht →
  i = i0 ∨ i = (i0 + length (dir_ ht))%nat →
  low_bits d (Z.of_nat i) = low_bits d (Z.of_nat i0).
Proof.
  intros Hinv Hd [->| ->]; [done|].
  rewrite Nat2Z.inj_add, (inv_len _ _ Hinv). by apply low_bits_add_pow.
Qed.

Lemma grow_inv ht :
  table_inv hash ht → global_depth_ ht < 30 → table_inv hash (grow ht).
Proof.
  intros Hinv Hlt. pose proof (inv_depth _ _ Hinv) as Hd.
  pose proof (inv_len _ _ Hinv) as Hlen.
  constructor; simpl.
  - lia.
  - apply (inv_cap _ _ Hinv).
  - rewrite length_app, Nat2Z.inj_add, Hlen, Z.pow_add_r by lia. lia.
  - intros i r Hi.
    destruct (grow_lookup (dir_ ht) i) as (i0 & Hi0 & Hl & Hcase).
    { rewrite <-length_app. by eapply lookup_lt_Some. }
    rewrite Hl in Hi.
    destruct (inv_slot _ _ Hinv i0 r Hi) as (b & Hb & Hok).
    exists b. split; [done|]. destruct Hok as [H1 H2 H3 H4 H5].
    constructor; simpl; try done; [lia|].
    intros k v Hin. rewrite (H5 k v Hin). symmetry.
    by eapply grow_low_bits.
  - intros i j r b Hi Hb Hj. rewrite length_app in Hj.
    destruct (grow_lookup (dir_ ht) i) as (i0 & Hi0 & Hl & Hcase).
    { rewrite <-length_app. by eapply lookup_lt_Some. }
    destruct (grow_lookup (dir_ ht) j Hj) as (j0 & Hj0 & Hlj & Hcasej).
    rewrite Hl in Hi. rewrite Hlj.
    destruct (inv_slot _ _ Hinv i0 r Hi) as (b' & Hb' & Hok).
    rewrite Hb in Hb'. injection Hb' as <-. destruct Hok as [_ H2 _ _ _].
    rewrite (grow_low_bits ht (depth_ b) i i0) by done.
    rewrite (grow_low_bits ht (depth_ b) j j0) by done.
    by apply (inv_share _ _ Hinv).
Qed.

End TableInvariant.

Section SplitInvariant.
Import HashTable.
Context {K V : Type} `{EqDecision K} (hash : K → Z).
Abbreviation table := (@ExtendibleHashTable K V).
Abbreviation bucket := (@Bucket K V).
Implicit Types (ht : table) (b : bucket) (key : K) (value : V).

(** Where a slot points after the split of the bucket at [idx]. *)
Lemma split_dir_lookup ht idx b i :
  dir_ (split_at hash ht idx b) !! i
  = (λ r0, if decide (low_bits (depth_ b) (Z.of_nat i)
                      = low_bits (depth_ b) idx)
           then if decide (low_bits (depth_ b + 1) (Z.of_nat i)
                           = low_bits (depth_ b) idx)
                then length (heap_ ht) else S (length (heap_ ht))
           else r0) <$> dir_ ht !! i.
Proof.
  unfold split_at. simpl. rewrite repoint_lookup.
  destruct (dir_ ht !! i) as [r0|]; simpl; [|done]. f_equal.
  fold (low_bits (depth_ b) (Z.of_nat i)).
  fold (low_bits (depth_ b + 1) (Z.of_nat i)).
  destruct (Z.eqb_spec (low_bits (depth_ b) (Z.of_nat i))
              (low_bits (depth_ b) idx));
    destruct (Z.eqb_spec (low_bits (depth_ b + 1) (Z.of_nat i))
                (low_bits (depth_ b) idx));
    repeat case_decide; done.
Qed.

Section Split.
Variables (ht : table) (idx : Z) (r : nat) (b : bucket).
Hypothesis Hinv : table_inv hash ht.
Hypothesis Hidx : 0 <= idx < 2 ^ global_depth_ ht.
Hypothesis Hr : dir_ ht !! Z.to_nat idx = Some r.
Hypothesis Hb : heap_ ht !! r = Some b.
Hypothesis Hdeep : depth_ b < global_depth_ ht.

Let d := depth_ b.
Let low := low_bits d idx.

Lemma split_depth_nonneg : 0 <= d.
Proof.
  destruct (inv_slot _ _ Hinv _ _ Hr) as (b' & Hb' & Hok).
  rewrite Hb in Hb'. injection Hb' as <-. by destruct Hok as [_ [? _] _ _ _].
Qed.

Lemma split_low_fix : low_bits d low = low.
Proof. apply low_bits_nested. pose proof split_depth_nonneg. lia. Qed.

Lemma split_low_succ x : low_bits (d + 1) x = low → low_bits d x = low.
Proof.
  intros Hx. pose proof split_depth_nonneg.
  rewrite <-(low_bits_nested d (d + 1) x) by lia.
  rewrite Hx. apply split_low_fix.
Qed.

(** The slots that pointed to the split bucket are those that agree with
    [idx] on its low [d] bits. *)
Lemma split_old_slots i r0 :
  dir_ ht !! i = Some r0 → (low_bits d (Z.of_nat i) = low ↔ r0 = r).
Proof.
  intros Hi. pose proof (lookup_lt_Some _ _ _ Hi) as Hlt.
  pose proof (inv_share _ _ Hinv (Z.to_nat idx) i r b Hr Hb Hlt) as Hsh.
  rewrite Z2Nat.id in Hsh by lia. fold d in Hsh. unfold low.
  rewrite Hi in Hsh. split.
  - intros Heq. symmetry in Heq. apply Hsh in Heq. congruence.
  - intros ->. symmetry. by apply Hsh.
Qed.

Lemma split_inv : table_inv hash (split_at hash ht idx b).
Proof.
  pose proof (inv_depth _ _ Hinv) as Hgd.
  pose proof split_depth_nonneg as Hd0.
  destruct (inv_slot _ _ Hinv _ _ Hr) as (b' & Hb' & Hokb).
  rewrite Hb in Hb'. injection Hb' as <-.
  constructor.
  - apply Hgd.
  - apply (inv_cap _ _ Hinv).
  - unfold split_at, repoint. simpl. rewrite length_imap.
    apply (inv_len _ _ Hinv).
  - intros i r' Hi. rewrite split_dir_lookup in Hi.
    destruct (dir_ ht !! i) as [r0|] eqn:Hi0; [|done].
    simpl in Hi. injection Hi as <-. fold d low.
    destruct (decide (low_bits d (Z.of_nat i) = low)) as [Hlow|Hlow].
    + destruct (decide (low_bits (d + 1) (Z.of_nat i) = low)) as [Hs|Hs].
      * eexists. split.
        { unfold split_at. simpl. rewrite lookup_app_r by lia.
          by rewrite Nat.sub_diag. }
        constructor; simpl; fold d low.
        -- done.
        -- lia.
        -- pose proof (length_filter
             (λ e : K * V, low_bits (d + 1) (hash e.1) = low) (list_ b)).
           pose proof (ok_cap _ _ _ _ Hokb). lia.
        -- apply NoDup_filter_keys, (ok_nodup _ _ _ _ Hokb).
        -- intros k v Hin. apply list_elem_of_filter in Hin as [Hk _].
           simpl in Hk. congruence.
      * eexists. split.
        { unfold split_at. simpl. rewrite lookup_app_r by lia.
          replace (S (length (heap_ ht)) - length (heap_ ht))%nat
            with 1%nat by lia. done. }
        constructor; simpl; fold d low.
        -- done.
        -- lia.
        -- pose proof (length_filter
             (λ e : K * V, ¬ low_bits (d + 1) (hash e.1) = low) (list_ b)).
           pose proof (ok_cap _ _ _ _ Hokb). lia.
        -- apply NoDup_filter_keys, (ok_nodup _ _ _ _ Hokb).
        -- intros k v Hin. apply list_elem_of_filter in Hin as [Hk Hin].
           simpl in Hk. apply (low_bits_sibling d _ _ low); try done.
           pose proof (ok_keys _ _ _ _ Hokb k v Hin) as Hkv.
           rewrite Z2Nat.id in Hkv by lia. done.
    + destruct (inv_slot _ _ Hinv _ _ Hi0) as (b0 & Hb0 & Hok0).
      exists b0. split.
      { unfold split_at. simpl. rewrite lookup_app_l; [done|].
        by eapply lookup_lt_Some. }
      apply (bucket_ok_mono hash ht); [simpl; lia|done|done].
  - intros i j r' b' Hi Hb' Hj.
    rewrite split_dir_lookup in Hi. rewrite split_dir_lookup.
    assert (Hjlt : (j < length (dir_ ht))%nat).
    { unfold split_at, repoint in Hj. simpl in Hj.
      by rewrite length_imap in Hj. }
    destruct (dir_ ht !! i) as [r0|] eqn:Hi0; [|done].
    destruct (lookup_lt_is_Some_2 _ _ Hjlt) as [rj Hj0]. rewrite Hj0.
    simpl in Hi. injection Hi as <-.
    pose proof (slot_fresh hash ht i r0 Hinv Hi0) as Hr0.
    pose proof (slot_fresh hash ht j rj Hinv Hj0) as Hrj.
    revert Hb'. simpl. fold d low.
    destruct (decide (low_bits d (Z.of_nat i) = low)) as [Hlow|Hlow].
    + destruct (decide (low_bits (d + 1) (Z.of_nat i) = low)) as [Hs|Hs];
        intros Hb'.
      * unfold split_at in Hb'. simpl in Hb'.
        rewrite lookup_app_r, Nat.sub_diag in Hb' by lia.
        injection Hb' as <-. simpl. fold d low.
        destruct (decide (low_bits d (Z.of_nat j) = low)) as [Hjl|Hjl].
        -- destruct (decide (low_bits (d + 1) (Z.of_nat j) = low)).
           ++ split; [congruence|done].
           ++ split; [intros [=]; lia|congruence].
        -- split; [intros [=]; lia|].
           intros Heq. exfalso. apply Hjl, split_low_succ. congruence.
      * unfold split_at in Hb'. simpl in Hb'.
        rewrite lookup_app_r in Hb' by lia.
        replace (S (length (heap_ ht)) - length (heap_ ht))%nat
          with 1%nat in Hb' by lia.
        injection Hb' as <-. simpl. fold d low.
        destruct (decide (low_bits d (Z.of_nat j) = low)) as [Hjl|Hjl].
        -- destruct (decide (low_bits (d + 1) (Z.of_nat j) = low)).
           ++ split; [intros [=]; lia|congruence].
           ++ split; [|done]. intros _.
              by apply (low_bits_sibling d _ _ low).
        -- split; [intros [=]; lia|].
           intros Heq. exfalso. apply Hjl.
           rewrite <-Hlow. symmetry.
           apply (low_bits_agree d (d + 1)); [lia|done].
    + intros Hb'. unfold split_at in Hb'. simpl in Hb'.
      rewrite lookup_app_l in Hb' by done.
      pose proof (inv_share _ _ Hinv i j r0 b' Hi0 Hb' Hjlt) as Hsh.
      rewrite Hj0 in Hsh.
      destruct (decide (low_bits d (Z.of_nat j) = low)) as [Hjl|Hjl];
        [|done].
      assert (rj = r) by (by apply (split_old_slots j rj)).
      assert (r0 ≠ r) by (by rewrite <-(split_old_slots i r0)).
      subst rj. split.
      * case_decide; intros [=]; lia.
      * intros Heq. apply Hsh in Heq. congruence.
Qed.

End Split.
End SplitInvariant.

Section InsertPass.
Import HashTable.
Context {K V : Type} `{EqDecision K} (hash : K → Z).
Abbreviation table := (@ExtendibleHashTable K V).
Abbreviation bucket := (@Bucket K V).
Implicit Types (ht : table) (b : bucket) (key : K) (value : V).

Lemma insert_pass_fits ht key value r b b' :
  target hash ht key = Some (r, b) →
  Bucket_Insert b key value = (true, b') →
  insert_pass hash ht key value = Some (inl (set_bucket ht r b')).
Proof.
  unfold target, insert_pass. intros Ht Hins.
  destruct (IndexOf hash ht key) as [idx|]; [|done]. simpl in *.
  rewrite Ht. simpl. by rewrite Hins.
Qed.

(** The pass that finds the bucket full, on any table whose depths are
    within the range of the masks. *)
Lemma insert_pass_split ht key value r b b' :
  0 <= depth_ b <= global_depth_ ht → global_depth_ ht <= 30 →
  target hash ht key = Some (r, b) →
  Bucket_Insert b key value = (false, b') →
  insert_pass hash ht key value
  = if decide (depth_ b < 30)
    then Some (inr (split_at hash (pre_split ht b)
                      (low_bits (global_depth_ ht) (hash key)) b))
    else None.
Proof.
  intros [Hd0 Hdg] Hgd Ht Hins.
  assert (Hidx : IndexOf hash ht key
                 = Some (low_bits (global_depth_ ht) (hash key)))
    by (apply IndexOf_inv; lia).
  set (idx := low_bits (global_depth_ ht) (hash key)) in *.
  assert (Hat : bucket_at ht idx = Some (r, b)).
  { unfold target in Ht. by rewrite Hidx in Ht. }
  unfold insert_pass. rewrite Hidx. simpl. rewrite Hat. simpl.
  rewrite Hins. unfold GetLocalDepthInternal. rewrite Hat. simpl.
  fold (pre_split ht b).
  rewrite (int_shl1_Some (depth_ b)) by lia. simpl.
  destruct (decide (depth_ b < 30)) as [Hlt|Hge];
    [|by rewrite int_shl1_None by lia].
  rewrite (int_shl1_Some (depth_ b + 1)) by lia. simpl.
  rewrite !Z.add_simpl_r.
  assert (Hgd1 : depth_ b + 1 <= global_depth_ (pre_split ht b) <= 30).
  { unfold pre_split, GetGlobalDepthInternal.
    destruct (Z.eqb_spec (global_depth_ ht) (depth_ b)); simpl; lia. }
  rewrite redistribute_filter by lia. simpl.
  fold (low_bits (depth_ b) idx).
  assert (Hf : ∀ e : K * V,
            Z.land (low_bits (global_depth_ (pre_split ht b)) (hash e.1))
              (Z.ones (depth_ b + 1))
            = low_bits (depth_ b + 1) (hash e.1)).
  { intros e.
    fold (low_bits (depth_ b + 1)
            (low_bits (global_depth_ (pre_split ht b)) (hash e.1))).
    by rewrite low_bits_nested by lia. }
  rewrite (list_filter_iff _
             (λ e : K * V, low_bits (depth_ b + 1) (hash e.1)
                           = low_bits (depth_ b) idx))
    by (intros e; by rewrite Hf).
  rewrite (list_filter_iff
             (λ e : K * V, ¬ Z.land _ (Z.ones (depth_ b + 1)) = _)
             (λ e : K * V, ¬ low_bits (depth_ b + 1) (hash e.1)
                             = low_bits (depth_ b) idx))
    by (intros e; by rewrite Hf).
  done.
Qed.

Lemma insert_pass_full ht key value r b b' :
  table_inv hash ht → target hash ht key = Some (r, b) →
  Bucket_Insert b key value = (false, b') →
  insert_pass hash ht key value
  = if decide (depth_ b < 30)
    then Some (inr (split_at hash (pre_split ht b)
                      (low_bits (global_depth_ ht) (hash key)) b))
    else None.
Proof.
  intros Hinv Ht Hins. pose proof (inv_depth _ _ Hinv) as Hgd.
  destruct (target_inv hash ht key Hinv)
    as (r0 & b0 & _ & Ht0 & _ & _ & Hok).
  rewrite Ht in Ht0. injection Ht0 as <- <-.
  apply (insert_pass_split ht key value r b b'); try done; [|lia].
  apply (ok_depth _ _ _ _ Hok).
Qed.

Lemma Bucket_Insert_present b key value v0 :
  Bucket_Find (list_ b) key = Some v0 →
  ∃ l', Bucket_update (list_ b) key value = Some l' ∧
        Bucket_Insert b key value = (true, mkBucket (size_ b) (depth_ b) l').
Proof.
  intros Hfind. unfold Bucket_Insert.
  destruct (Bucket_update (list_ b) key value) as [l'|] eqn:Hup; [by eauto|].
  apply Bucket_update_None in Hup. congruence.
Qed.

Lemma Bucket_Insert_absent b key value :
  Bucket_Find (list_ b) key = None →
  Bucket_Insert b key value
  = if IsFull b then (false, b)
    else (true, mkBucket (size_ b) (depth_ b) (list_ b ++ [(key, value)])).
Proof.
  intros Hfind. unfold Bucket_Insert.
  by rewrite (proj2 (Bucket_update_None _ _ value) Hfind).
Qed.

(** What a successful [Bucket::Insert] leaves in the bucket. *)
Lemma Bucket_Insert_true b key value b' :
  Bucket_Insert b key value = (true, b') →
  size_ b' = size_ b ∧ depth_ b' = depth_ b ∧
  Bucket_Find (list_ b') key = Some value ∧
  (∀ k, k ≠ key → Bucket_Find (list_ b') k = Bucket_Find (list_ b) k) ∧
  (∀ k v, (k, v) ∈ list_ b' → k = key ∨ k ∈ (list_ b).*1) ∧
  (NoDup (list_ b).*1 → NoDup (list_ b').*1) ∧
  (Z.of_nat (length (list_ b)) <= size_ b →
   Z.of_nat (length (list_ b')) <= size_ b).
Proof.
  destruct (Bucket_Find (list_ b) key) as [v0|] eqn:Hfind.
  - destruct (Bucket_Insert_present b key value v0 Hfind) as (l' & Hup & ->).
    intros [= <-]. simpl.
    destruct (Bucket_update_Some _ _ _ _ Hup) as (Hfst & Hf & Hother & Hsub).
    split_and!; try done.
    + intros k v Hin. right. by eapply Hsub.
    + by rewrite Hfst.
    + by rewrite <-(length_fmap fst l'), Hfst, length_fmap.
  - rewrite Bucket_Insert_absent by done. unfold IsFull.
    destruct (Z.eqb_spec (Z.of_nat (length (list_ b))) (size_ b)); [done|].
    intros [= <-]. simpl. split_and!; try done.
    + rewrite Bucket_Find_app by done. by rewrite decide_True.
    + intros k Hk. rewrite Bucket_Find_app by done. by rewrite decide_False.
    + intros k v Hin. apply elem_of_app in Hin as [Hin|Hin].
      * right. apply list_elem_of_fmap. by exists (k, v).
      * apply list_elem_of_singleton in Hin as [= -> ->]. by left.
    + intros Hnd. rewrite fmap_app. apply NoDup_app. split_and!; [done| |].
      * intros k Hk Hk'. apply list_elem_of_singleton in Hk' as ->.
        by apply Bucket_Find_None in Hfind.
      * apply NoDup_singleton.
    + rewrite length_app. simpl. lia.
Qed.

Lemma Bucket_Insert_false b key value b' :
  Bucket_Insert b key value = (false, b') →
  Bucket_Find (list_ b) key = None ∧ IsFull b = true.
Proof.
  destruct (Bucket_Find (list_ b) key) as [v0|] eqn:Hfind.
  - by destruct (Bucket_Insert_present b key value v0 Hfind) as (l' & _ & ->).
  - rewrite Bucket_Insert_absent by done. by destruct (IsFull b).
Qed.

(** Every slot that shares the bucket of [key] agrees with the hash of
    [key] on the bucket's depth. *)
Lemma target_slots ht key r b i :
  table_inv hash ht → target hash ht key = Some (r, b) →
  dir_ ht !! i = Some r →
  low_bits (depth_ b) (hash key) = low_bits (depth_ b) (Z.of_nat i).
Proof.
  intros Hinv Ht Hi.
  destruct (target_inv hash ht key Hinv)
    as (r0 & b0 & Hidx & Ht0 & Hdir & Hheap & Hok).
  rewrite Ht in Ht0. injection Ht0 as <- <-.
  pose proof (low_bits_range (global_depth_ ht) (hash key)) as Hrange.
  pose proof (inv_depth _ _ Hinv) as Hgd.
  destruct (ok_depth _ _ _ _ Hok) as [Hd0 Hdg].
  pose proof (lookup_lt_Some _ _ _ Hi) as Hlt.
  pose proof (proj1 (inv_share _ _ Hinv _ i r b Hdir Hheap Hlt) Hi) as Hsh.
  rewrite Z2Nat.id in Hsh by lia. rewrite <-Hsh.
  by rewrite low_bits_nested by lia.
Qed.

Lemma fits_inv ht key value r b b' :
  table_inv hash ht → target hash ht key = Some (r, b) →
  Bucket_Insert b key value = (true, b') →
  table_inv hash (set_bucket ht r b').
Proof.
  intros Hinv Ht Hins.
  destruct (target_inv hash ht key Hinv)
    as (r0 & b0 & Hidx & Ht0 & Hdir & Hheap & Hok).
  rewrite Ht in Ht0. injection Ht0 as <- <-.
  destruct (Bucket_Insert_true b key value b' Hins)
    as (Hsize & Hdepth & _ & _ & Hin & Hnd & Hlen).
  apply (set_bucket_inv hash ht r b b'); try done.
  - rewrite <-(ok_size _ _ _ _ Hok). apply Hlen.
    rewrite (ok_size _ _ _ _ Hok). apply (ok_cap _ _ _ _ Hok).
  - apply Hnd, (ok_nodup _ _ _ _ Hok).
  - intros i k v Hi Hkv. destruct (Hin k v Hkv) as [->|Hk].
    + by eapply target_slots.
    + apply list_elem_of_fmap in Hk as ([k' v'] & -> & Hk). simpl.
      destruct (inv_slot _ _ Hinv i r Hi) as (bi & Hbi & Hoki).
      rewrite Hheap in Hbi. injection Hbi as <-.
      by apply (ok_keys _ _ _ _ Hoki k' v').
Qed.

(** [Find] after the bucket at address [r] is replaced. *)
Lemma Find_set_bucket ht r b' k :
  Find hash (set_bucket ht r b') k
  = rb ← target hash ht k;
    Some (Bucket_Find (if decide (rb.1 = r) then list_ b' else list_ rb.2) k).
Proof.
  unfold Find, target, IndexOf, set_bucket. simpl.
  destruct (int_shl1 (global_depth_ ht)) as [p|]; [|done]. simpl.
  unfold bucket_at. simpl. case_decide; [|done].
  destruct (dir_ ht !! Z.to_nat (Z.land (hash k) (p - 1))) as [r0|]; [|done].
  simpl. destruct (decide (r0 = r)) as [->|Hne].
  - destruct (heap_ ht !! r) as [b0|] eqn:Hb0; simpl.
    + rewrite list_lookup_insert_eq by (by eapply lookup_lt_Some). simpl.
      by rewrite decide_True.
    + rewrite list_insert_ge by (by apply lookup_ge_None). by rewrite Hb0.
  - rewrite list_lookup_insert_ne by done.
    destruct (heap_ ht !! r0); simpl; [|done]. by rewrite decide_False.
Qed.

Lemma Find_fits ht key value r b b' :
  table_inv hash ht → target hash ht key = Some (r, b) →
  Bucket_Insert b key value = (true, b') →
  Find hash (set_bucket ht r b') key = Some (Some value) ∧
  ∀ k, k ≠ key → Find hash (set_bucket ht r b') k = Find hash ht k.
Proof.
  intros Hinv Ht Hins.
  destruct (Bucket_Insert_true b key value b' Hins)
    as (_ & _ & Hf & Hother & _).
  split.
  - rewrite Find_set_bucket, Ht. simpl. by rewrite decide_True, Hf.
  - intros k Hk. rewrite Find_set_bucket, Find_target.
    destruct (target_inv hash ht k Hinv)
      as (rk & bk & _ & Htk & _ & Hheapk & _).
    destruct (target_inv hash ht key Hinv)
      as (r0 & b0 & _ & Ht0 & _ & Hheap & _).
    rewrite Ht in Ht0. injection Ht0 as <- <-.
    rewrite Htk. simpl. case_decide as Hr; [|done]. subst rk.
    rewrite Hheap in Hheapk. injection Hheapk as <-. by rewrite Hother.
Qed.

End InsertPass.

Section SplitFind.
Import HashTable.
Context {K V : Type} `{EqDecision K} (hash : K → Z).
Abbreviation table := (@ExtendibleHashTable K V).
Abbreviation bucket := (@Bucket K V).
Implicit Types (ht : table) (b : bucket) (key : K) (value : V).

Lemma grow_dir_lookup ht x :
  table_inv hash ht → global_depth_ ht < 30 →
  (dir_ ht ++ dir_ ht) !! Z.to_nat (low_bits (global_depth_ ht + 1) x)
  = dir_ ht !! Z.to_nat (low_bits (global_depth_ ht) x).
Proof.
  intros Hinv Hlt. pose proof (inv_depth _ _ Hinv) as Hgd.
  pose proof (inv_len _ _ Hinv) as Hlen.
  pose proof (low_bits_range (global_depth_ ht + 1) x) as Hr.
  rewrite Z.pow_add_r, Z.pow_1_r in Hr by lia.
  destruct (grow_lookup (dir_ ht)
              (Z.to_nat (low_bits (global_depth_ ht + 1) x)))
    as (i0 & Hi0 & Hl & Hcase); [lia|].
  rewrite Hl. f_equal.
  pose proof (grow_low_bits hash ht (global_depth_ ht) _ i0 Hinv
                ltac:(lia) Hcase) as Hlow.
  rewrite Z2Nat.id in Hlow by lia.
  rewrite low_bits_nested in Hlow by lia.
  rewrite (low_bits_small _ (Z.of_nat i0)) in Hlow by lia. lia.
Qed.

Lemma Find_grow ht k :
  table_inv hash ht → global_depth_ ht < 30 →
  Find hash (grow ht) k = Find hash ht k.
Proof.
  intros Hinv Hlt. pose proof (inv_depth _ _ Hinv) as Hgd.
  unfold Find. rewrite !IndexOf_inv by (simpl; lia). simpl.
  unfold bucket_at.
  pose proof (low_bits_range (global_depth_ ht + 1) (hash k)).
  pose proof (low_bits_range (global_depth_ ht) (hash k)).
  rewrite !decide_True by lia. simpl.
  by rewrite grow_dir_lookup.
Qed.

Lemma pre_split_facts ht key r b :
  table_inv hash ht → target hash ht key = Some (r, b) → depth_ b < 30 →
  let ht1 := pre_split ht b in
  let idx := low_bits (global_depth_ ht) (hash key) in
  table_inv hash ht1 ∧
  0 <= idx < 2 ^ global_depth_ ht1 ∧
  dir_ ht1 !! Z.to_nat idx = Some r ∧
  heap_ ht1 = heap_ ht ∧
  depth_ b < global_depth_ ht1 ∧
  bucket_size_ ht1 = bucket_size_ ht ∧
  global_depth_ ht <= global_depth_ ht1 ∧
  (∀ k, Find hash ht1 k = Find hash ht k).
Proof.
  intros Hinv Ht Hlt.
  destruct (target_inv hash ht key Hinv)
    as (r0 & b0 & Hidx & Ht0 & Hdir & Hheap & Hok).
  rewrite Ht in Ht0. injection Ht0 as <- <-.
  pose proof (inv_depth _ _ Hinv) as Hgd.
  pose proof (inv_len _ _ Hinv) as Hlen.
  destruct (ok_depth _ _ _ _ Hok) as [Hd0 Hdg].
  pose proof (low_bits_range (global_depth_ ht) (hash key)) as Hr.
  unfold pre_split, GetGlobalDepthInternal.
  destruct (Z.eqb_spec (global_depth_ ht) (depth_ b)) as [Heq|Hne]; simpl.
  - split_and!; try done; try lia.
    + apply grow_inv; [done|lia].
    + rewrite Z.pow_add_r, Z.pow_1_r by lia. lia.
    + rewrite lookup_app_l by lia. done.
    + intros k. apply Find_grow; [done|lia].
  - split_and!; try done; lia.
Qed.

Lemma Find_split ht idx r b k :
  table_inv hash ht → 0 <= idx < 2 ^ global_depth_ ht →
  dir_ ht !! Z.to_nat idx = Some r → heap_ ht !! r = Some b →
  depth_ b < global_depth_ ht →
  Find hash (split_at hash ht idx b) k = Find hash ht k.
Proof.
  intros Hinv Hidx Hr Hb Hdeep.
  pose proof (inv_depth _ _ Hinv) as Hgd.
  pose proof (split_depth_nonneg hash ht idx r b Hinv Hr Hb) as Hd0.
  destruct (target_inv hash ht k Hinv)
    as (rk & bk & Hik & Htk & Hdirk & Hheapk & Hokk).
  rewrite (Find_target hash ht), Htk. simpl.
  unfold Find. rewrite IndexOf_inv by done.
  change (global_depth_ (split_at hash ht idx b)) with (global_depth_ ht).
  simpl. set (ik := low_bits (global_depth_ ht) (hash k)) in *.
  pose proof (low_bits_range (global_depth_ ht) (hash k)) as Hrk.
  fold ik in Hrk.
  unfold bucket_at. rewrite decide_True by lia.
  rewrite split_dir_lookup, Hdirk. simpl. rewrite Z2Nat.id by lia.
  pose proof (slot_fresh hash ht _ rk Hinv Hdirk) as Hfresh.
  assert (Hk : ∀ d', 0 <= d' <= global_depth_ ht →
                low_bits d' ik = low_bits d' (hash k)).
  { intros d' Hd'. unfold ik. by apply low_bits_nested. }
  destruct (decide (low_bits (depth_ b) ik = low_bits (depth_ b) idx))
    as [Hlow|Hlow].
  - assert (rk = r) as ->.
    { apply (split_old_slots hash ht idx r b Hinv Hidx Hr Hb
               (Z.to_nat ik) rk Hdirk).
      rewrite Z2Nat.id by lia. done. }
    rewrite Hb in Hheapk. injection Hheapk as <-.
    destruct (decide (low_bits (depth_ b + 1) ik = low_bits (depth_ b) idx))
      as [Hs|Hs].
    + unfold split_at. simpl. rewrite lookup_app_r, Nat.sub_diag by lia.
      simpl. f_equal. apply Bucket_Find_filter. intros v _. simpl.
      rewrite <-Hk by lia. done.
    + unfold split_at. simpl. rewrite lookup_app_r by lia.
      replace (S (length (heap_ ht)) - length (heap_ ht))%nat
        with 1%nat by lia.
      simpl. f_equal. apply Bucket_Find_filter. intros v _. simpl.
      rewrite <-Hk by lia. done.
  - unfold split_at. simpl. rewrite lookup_app_l by done.
    by rewrite Hheapk.
Qed.

End SplitFind.

Section InsertSpec.
Import HashTable.
Context {K V : Type} `{EqDecision K} (hash : K → Z).
Abbreviation table := (@ExtendibleHashTable K V).
Abbreviation bucket := (@Bucket K V).
Implicit Types (ht : table) (b : bucket) (key : K) (value : V).

(** One split: the pass of [InsertInternal] that finds the bucket full. *)
Lemma split_step ht key value r b b0 :
  table_inv hash ht → target hash ht key = Some (r, b) →
  Bucket_Insert b key value = (false, b0) → depth_ b < 30 →
  ∃ ht2,
    insert_pass hash ht key value = Some (inr ht2) ∧
    table_inv hash ht2 ∧
    (∀ k, Find hash ht2 k = Find hash ht k) ∧
    bucket_size_ ht2 = bucket_size_ ht ∧
    global_depth_ ht <= global_depth_ ht2 ∧
    num_buckets_ ht2 = num_buckets_ ht + 1 ∧
    ∃ r2 b2, target hash ht2 key = Some (r2, b2) ∧
      depth_ b2 = depth_ b + 1 ∧ size_ b2 = bucket_size_ ht ∧
      ∀ e, e ∈ list_ b2 ↔
           e ∈ list_ b ∧
           low_bits (depth_ b + 1) (hash e.1)
           = low_bits (depth_ b + 1) (hash key).
Proof.
  intros Hinv Ht Hins Hlt.
  destruct (target_inv hash ht key Hinv)
    as (r0 & b' & Hidx & Ht0 & Hdir & Hheap & Hok).
  rewrite Ht in Ht0. injection Ht0 as <- <-.
  destruct (pre_split_facts hash ht key r b Hinv Ht Hlt)
    as (Hinv1 & Hidx1 & Hdir1 & Hheap1 & Hdeep1 & Hbs1 & Hgd1 & Hfind1).
  set (ht1 := pre_split ht b) in *.
  set (idx := low_bits (global_depth_ ht) (hash key)) in *.
  assert (Hb1 : heap_ ht1 !! r = Some b) by (by rewrite Hheap1).
  pose proof (split_inv hash ht1 idx r b Hinv1 Hidx1 Hdir1 Hb1 Hdeep1)
    as Hinv2.
  exists (split_at hash ht1 idx b).
  split_and!.
  - rewrite (insert_pass_full hash ht key value r b b0) by done.
    by rewrite decide_True.
  - done.
  - intros k. rewrite <-Hfind1. by apply (Find_split hash ht1 idx r b).
  - done.
  - done.
  - unfold ht1, pre_split. simpl.
    by destruct (GetGlobalDepthInternal ht =? depth_ b).
  - destruct (target_inv hash _ key Hinv2)
      as (r2 & b2 & _ & Ht2 & Hdir2 & Hheap2 & Hok2).
    exists r2, b2. split; [done|].
    change (global_depth_ (split_at hash ht1 idx b))
      with (global_depth_ ht1) in Hdir2.
    pose proof (inv_depth _ _ Hinv1) as Hgd1'.
    pose proof (inv_depth _ _ Hinv) as Hgd'.
    destruct (ok_depth _ _ _ _ Hok) as [Hd0 Hdg].
    pose proof (low_bits_range (global_depth_ ht1) (hash key)) as Hr2.
    assert (Hkey : low_bits (depth_ b) (hash key) = low_bits (depth_ b) idx).
    { unfold idx. by rewrite low_bits_nested by lia. }
    rewrite split_dir_lookup in Hdir2.
    destruct (dir_ ht1 !! Z.to_nat (low_bits (global_depth_ ht1) (hash key)))
      as [rx|]; [|done].
    simpl in Hdir2. rewrite Z2Nat.id in Hdir2 by lia.
    rewrite !low_bits_nested in Hdir2 by lia.
    rewrite decide_True in Hdir2 by done.
    injection Hdir2 as <-.
    unfold split_at in Hheap2. simpl in Hheap2. fold idx in Hheap2.
    destruct (decide (low_bits (depth_ b + 1) (hash key)
                      = low_bits (depth_ b) idx)) as [Hs|Hs].
    + rewrite lookup_app_r, Nat.sub_diag in Hheap2 by lia.
      injection Hheap2 as <-. simpl. split_and!; [done..|].
      intros e. rewrite list_elem_of_filter. simpl. rewrite Hs. tauto.
    + rewrite lookup_app_r in Hheap2 by lia.
      replace (S (length (heap_ ht1)) - length (heap_ ht1))%nat
        with 1%nat in Hheap2 by lia.
      injection Hheap2 as <-. simpl. split_and!; [done..|].
      intros e. rewrite list_elem_of_filter. simpl.
      split.
      * intros [H1 H2]. split; [done|]. destruct e as [k v]. simpl in *.
        apply (low_bits_sibling (depth_ b) _ _ (low_bits (depth_ b) idx));
          try done.
        pose proof (ok_keys _ _ _ _ Hok k v H2) as Hkv.
        rewrite Z2Nat.id in Hkv by (unfold idx in *; lia). done.
      * intros [H1 H2]. split; [congruence|done].
Qed.

Lemma InsertInternal_spec fuel : ∀ ht key value ht',
  table_inv hash ht → InsertInternal hash fuel ht key value = Some ht' →
  table_inv hash ht' ∧
  Find hash ht' key = Some (Some value) ∧
  (∀ k, k ≠ key → Find hash ht' k = Find hash ht k) ∧
  bucket_size_ ht' = bucket_size_ ht ∧
  global_depth_ ht <= global_depth_ ht'.
Proof.
  induction fuel as [|fuel IH]; intros ht key value ht' Hinv Hins; [done|].
  simpl in Hins.
  destruct (target_inv hash ht key Hinv) as (r & b & _ & Ht & _).
  destruct (Bucket_Insert b key value) as [[|] b0] eqn:Hb.
  - rewrite (insert_pass_fits hash ht key value r b b0) in Hins by done.
    simpl in Hins. injection Hins as <-.
    destruct (Find_fits hash ht key value r b b0) as [Hf Hother]; try done.
    split_and!; [by eapply fits_inv|done|done|done|simpl; lia].
  - destruct (decide (depth_ b < 30)) as [Hlt|Hge].
    + destruct (split_step ht key value r b b0)
        as (ht2 & Hpass & Hinv2 & Hfind2 & Hbs2 & Hgd2 & _); try done.
      rewrite Hpass in Hins. simpl in Hins.
      destruct (IH ht2 key value ht' Hinv2 Hins)
        as (Hinv' & Hf & Hother & Hbs & Hgd).
      split_and!; try done; try lia; try congruence.
      intros k Hk. rewrite Hother by done. apply Hfind2.
    + rewrite (insert_pass_full hash ht key value r b b0) in Hins by done.
      by rewrite decide_False in Hins.
Qed.

Lemma InsertInternal_fuel fuel : ∀ fuel' ht key value ht',
  InsertInternal hash fuel ht key value = Some ht' → (fuel ≤ fuel')%nat →
  InsertInternal hash fuel' ht key value = Some ht'.
Proof.
  induction fuel as [|fuel IH]; intros fuel' ht key value ht' Hins Hle;
    [done|].
  destruct fuel' as [|fuel']; [lia|]. simpl in *.
  destruct (insert_pass hash ht key value) as [[ht1|ht1]|]; simpl in *;
    [done| |done].
  apply IH; [done|lia].
Qed.

Lemma InsertInternal_stuck fuel : ∀ ht key value r b,
  table_inv hash ht → target hash ht key = Some (r, b) → stuck hash b key →
  InsertInternal hash fuel ht key value = None.
Proof.
  induction fuel as [|fuel IH]; intros ht key value r b Hinv Ht Hstuck;
    [done|].
  destruct Hstuck as (Hnone & Hfull & Hsame). simpl.
  destruct (target_inv hash ht key Hinv) as (r0 & b' & _ & Ht0 & _ & _ & Hok).
  rewrite Ht in Ht0. injection Ht0 as <- <-.
  assert (Hb : Bucket_Insert b key value = (false, b)).
  { rewrite Bucket_Insert_absent by done. by rewrite Hfull. }
  destruct (decide (depth_ b < 30)) as [Hlt|Hge].
  - destruct (split_step ht key value r b b)
      as (ht2 & Hpass & Hinv2 & _ & Hbs2 & _ & _ & r2 & b2 & Ht2 & Hd2 & Hs2 & Hl2);
      try done.
    rewrite Hpass. simpl. apply (IH ht2 key value r2 b2); try done.
    destruct (ok_depth _ _ _ _ Hok) as [Hd0 _].
    assert (Hall : ∀ e, e ∈ list_ b → e ∈ list_ b2).
    { intros [k v] Hin. apply Hl2. split; [done|]. simpl.
      apply (low_bits_agree _ 30); [lia|]. by eapply Hsame. }
    destruct (target_inv hash ht2 key Hinv2)
      as (r0 & b' & _ & Ht0 & _ & _ & Hok2).
    rewrite Ht2 in Ht0. injection Ht0 as <- <-.
    split_and!.
    + apply Bucket_Find_None. intros Hin.
      apply list_elem_of_fmap in Hin as ([k v] & -> & Hin).
      apply Hl2 in Hin as [Hin _]. apply Bucket_Find_None in Hnone.
      apply Hnone. apply list_elem_of_fmap. by exists (k, v).
    + unfold IsFull in *. apply Z.eqb_eq in Hfull. apply Z.eqb_eq.
      rewrite Hs2, <-(ok_size _ _ _ _ Hok), <-Hfull.
      pose proof (ok_cap _ _ _ _ Hok2) as Hcap2. rewrite Hbs2 in Hcap2.
      rewrite <-(ok_size _ _ _ _ Hok), <-Hfull in Hcap2.
      assert (length (list_ b) ≤ length (list_ b2))%nat; [|lia].
      apply submseteq_length, NoDup_submseteq; [|done].
      eapply NoDup_fmap_1, (ok_nodup _ _ _ _ Hok).
    + intros k v Hin. apply Hl2 in Hin as [Hin _]. by eapply Hsame.
  - rewrite (insert_pass_full hash ht key value r b b) by done.
    by rewrite decide_False.
Qed.

End InsertSpec.

Section InsertTermination.
Import HashTable.
Context {K V : Type} `{EqDecision K} (hash : K → Z).
Abbreviation table := (@ExtendibleHashTable K V).
Abbreviation bucket := (@Bucket K V).
Implicit Types (ht : table) (b : bucket) (key : K) (value : V).

Lemma separable_depth ht key r b :
  table_inv hash ht → target hash ht key = Some (r, b) →
  separable hash b key → depth_ b < 30.
Proof.
  intros Hinv Ht (k & v & Hin & Hne).
  destruct (target_inv hash ht key Hinv)
    as (r0 & b0 & _ & Ht0 & Hdir & _ & Hok).
  rewrite Ht in Ht0. injection Ht0 as <- <-.
  pose proof (inv_depth _ _ Hinv) as Hgd.
  destruct (ok_depth _ _ _ _ Hok) as [Hd0 Hdg].
  destruct (decide (depth_ b < 30)) as [|Hge]; [done|].
  assert (Hd : depth_ b = 30) by lia. exfalso. apply Hne.
  rewrite <-Hd. rewrite (ok_keys _ _ _ _ Hok k v Hin). symmetry.
  by eapply target_slots.
Qed.

Lemma InsertInternal_terminates n : ∀ ht key value r b,
  table_inv hash ht → target hash ht key = Some (r, b) →
  30 - depth_ b <= Z.of_nat n → insertable hash b key →
  ∃ ht', InsertInternal hash (S n) ht key value = Some ht'.
Proof.
  induction n as [|n IH]; intros ht key value r b Hinv Ht Hn Hcan.
  - cbn [InsertInternal].
    destruct (Bucket_Insert b key value) as [[|] b0] eqn:Hb.
    + rewrite (insert_pass_fits hash ht key value r b b0) by done. eauto.
    + destruct (Bucket_Insert_false b key value b0 Hb) as [Hnone Hfull].
      destruct Hcan as [[? Hs]|[Hf|Hsep]]; [congruence..|].
      pose proof (separable_depth ht key r b Hinv Ht Hsep). lia.
  - cbn [InsertInternal].
    destruct (Bucket_Insert b key value) as [[|] b0] eqn:Hb.
    + rewrite (insert_pass_fits hash ht key value r b b0) by done. eauto.
    + destruct (Bucket_Insert_false b key value b0 Hb) as [Hnone Hfull].
      destruct Hcan as [[? Hs]|[Hf|Hsep]]; [congruence..|].
      pose proof (separable_depth ht key r b Hinv Ht Hsep) as Hlt.
      destruct (split_step hash ht key value r b b0)
        as (ht2 & Hpass & Hinv2 & _ & Hbs2 & _ & _ &
            r2 & b2 & Ht2 & Hd2 & Hs2 & Hl2); try done.
      rewrite Hpass. cbn [mbind option_bind].
      apply (IH ht2 key value r2 b2); [done|done|lia|].
      destruct (IsFull b2) eqn:Hfull2; [|right; by left].
      right. right.
      destruct (target_inv hash ht key Hinv)
        as (r0 & b' & _ & Ht0 & _ & _ & Hok).
      rewrite Ht in Ht0. injection Ht0 as <- <-.
      destruct (target_inv hash ht2 key Hinv2)
        as (r0 & b' & _ & Ht0 & _ & _ & Hok2).
      rewrite Ht2 in Ht0. injection Ht0 as <- <-.
      assert (Hperm : list_ b2 ≡ₚ list_ b).
      { apply submseteq_length_Permutation.
        - apply NoDup_submseteq.
          + eapply NoDup_fmap_1, (ok_nodup _ _ _ _ Hok2).
          + intros e He. by apply Hl2 in He as [? _].
        - unfold IsFull in *. apply Z.eqb_eq in Hfull, Hfull2.
          rewrite (ok_size _ _ _ _ Hok) in Hfull. lia. }
      destruct Hsep as (k & v & Hin & Hne). exists k, v.
      split; [|done]. by rewrite Hperm.
Qed.

End InsertTermination.

Section RemoveSpec.
Import HashTable.
Context {K V : Type} `{EqDecision K} (hash : K → Z).
Abbreviation table := (@ExtendibleHashTable K V).
Abbreviation bucket := (@Bucket K V).
Implicit Types (ht : table) (b : bucket) (key : K) (value : V).

Lemma Remove_target ht key r b :
  target hash ht key = Some (r, b) →
  Remove hash ht key
  = Some ((Bucket_Remove (list_ b) key).1,
          set_bucket ht r (mkBucket (size_ b) (depth_ b)
                             (Bucket_Remove (list_ b) key).2)).
Proof.
  unfold target, Remove. intros Ht.
  destruct (IndexOf hash ht key) as [idx|]; [|done]. simpl in *.
  rewrite Ht. simpl. by destruct (Bucket_Remove (list_ b) key).
Qed.

Lemma set_bucket_same ht r b :
  heap_ ht !! r = Some b → set_bucket ht r b = ht.
Proof.
  intros Hb. unfold set_bucket. rewrite list_insert_id by done.
  by destruct ht.
Qed.

(** A [Remove] that returns false leaves the table as it was. *)
Lemma Remove_false ht key ht' :
  Remove hash ht key = Some (false, ht') → ht' = ht.
Proof.
  unfold Remove. intros Hrem.
  destruct (IndexOf hash ht key) as [idx|]; [|done]. simpl in Hrem.
  destruct (bucket_at ht idx) as [[r b]|] eqn:Hat; [|done]. simpl in Hrem.
  pose proof (Bucket_Remove_spec (list_ b) key) as Hspec.
  destruct (Bucket_Remove (list_ b) key) as [ok l'].
  injection Hrem as -> <-.
  destruct Hspec as (_ & Hsame & _). rewrite Hsame by done.
  apply bucket_at_inv in Hat as (_ & _ & Hb).
  apply set_bucket_same. by destruct b.
Qed.

Lemma Remove_spec ht key :
  table_inv hash ht →
  ∃ ok ht',
    Remove hash ht key = Some (ok, ht') ∧
    table_inv hash ht' ∧
    (ok = true ↔ ∃ v, Find hash ht key = Some (Some v)) ∧
    Find hash ht' key = Some None ∧
    (∀ k, k ≠ key → Find hash ht' k = Find hash ht k) ∧
    global_depth_ ht' = global_depth_ ht ∧ dir_ ht' = dir_ ht ∧
    num_buckets_ ht' = num_buckets_ ht ∧
    bucket_size_ ht' = bucket_size_ ht.
Proof.
  intros Hinv.
  destruct (target_inv hash ht key Hinv)
    as (r & b & _ & Ht & Hdir & Hheap & Hok).
  rewrite (Remove_target ht key r b Ht).
  pose proof (Bucket_Remove_spec (list_ b) key) as Hspec.
  destruct (Bucket_Remove (list_ b) key) as [ok l']. simpl.
  destruct Hspec as (Hok' & Hsame & Hsub & Hlen & Hnd & Hother).
  destruct (Hnd (ok_nodup _ _ _ _ Hok)) as [Hnd' Hnone].
  eexists _, _. split; [done|]. split_and!; try done.
  - apply (set_bucket_inv hash ht r b); try done.
    + simpl. pose proof (ok_cap _ _ _ _ Hok). lia.
    + intros i k v Hi Hin. simpl in Hin.
      destruct (inv_slot _ _ Hinv i r Hi) as (bi & Hbi & Hoki).
      rewrite Hheap in Hbi. injection Hbi as <-.
      apply (ok_keys _ _ _ _ Hoki k v). by apply Hsub.
  - rewrite Hok', Find_target, Ht. simpl. split.
    + intros Hin. destruct (Bucket_Find (list_ b) key) as [v|] eqn:Hf;
        [by eauto|]. by apply Bucket_Find_None in Hf.
    + intros [v [= Hf]]. apply Bucket_Find_Some in Hf.
      apply list_elem_of_fmap. by exists (key, v).
  - rewrite Find_set_bucket, Ht. simpl. by rewrite decide_True, Hnone.
  - intros k Hk. rewrite Find_set_bucket, Find_target.
    destruct (target_inv hash ht k Hinv)
      as (rk & bk & _ & Htk & _ & Hheapk & _).
    rewrite Htk. simpl. case_decide as Hr; [|done]. subst rk.
    rewrite Hheap in Hheapk. injection Hheapk as <-. by rewrite Hother.
Qed.

Lemma reachable_inv ht : reachable hash ht → table_inv hash ht.
Proof.
  induction 1 as [n Hn|ht fuel key value ht' _ IH Hins
                  |ht key ok ht' _ IH Hrem].
  - apply new_inv. unfold is_size_t in Hn. lia.
  - by destruct (InsertInternal_spec hash fuel ht key value ht' IH Hins).
  - destruct (Remove_spec ht key IH) as (ok' & ht'' & Hrem' & Hinv' & _).
    rewrite Hrem in Hrem'. by simplify_eq.
Qed.

End RemoveSpec.

Section TableRuns.
Import HashTable.
Context {K V : Type} `{EqDecision K} (hash : K → Z).
Abbreviation table := (@ExtendibleHashTable K V).
Abbreviation bucket := (@Bucket K V).
Implicit Types (ht : table) (b : bucket) (key : K) (value : V).

Lemma exec_reachable ht os ht' :
  reachable hash ht → exec hash ht os = Some ht' → reachable hash ht'.
Proof.
  revert ht. induction os as [|o os IH]; intros ht Hr Hex; simpl in Hex.
  - by injection Hex as <-.
  - destruct (exec_op hash ht o) as [ht1|] eqn:Ho; [|done]. simpl in Hex.
    apply (IH ht1); [|done]. destruct o as [fuel k v|k]; simpl in Ho.
    + by eapply reach_insert.
    + destruct (Remove hash ht k) as [[ok ht2]|] eqn:Hrem; [|done].
      simpl in Ho. injection Ho as ->. by eapply reach_remove.
Qed.

Lemma exec_dict os : ∀ ht m ht',
  table_inv hash ht → (∀ k, Find hash ht k = Some (m k)) →
  exec hash ht os = Some ht' → ∀ k, Find hash ht' k = Some (dict m os k).
Proof.
  induction os as [|o os IH]; intros ht m ht' Hinv Hm Hex k; simpl in Hex.
  - injection Hex as <-. apply Hm.
  - destruct (exec_op hash ht o) as [ht1|] eqn:Ho; [|done]. simpl in Hex.
    destruct o as [fuel key value|key]; simpl in Ho |- *.
    + destruct (InsertInternal_spec hash fuel ht key value ht1 Hinv Ho)
        as (Hinv1 & Hf & Hother & _).
      apply (IH ht1); [done| |done]. intros k0.
      case_decide as Hk; [by subst|]. rewrite Hother by done. apply Hm.
    + destruct (Remove_spec hash ht key Hinv)
        as (ok & ht2 & Hrem & Hinv2 & _ & Hf & Hother & _).
      rewrite Hrem in Ho. simpl in Ho. injection Ho as <-.
      apply (IH ht2); [done| |done]. intros k0.
      case_decide as Hk; [by subst|]. rewrite Hother by done. apply Hm.
Qed.

Lemma Find_new bucket_size k :
  Find hash (new bucket_size : table) k = Some None.
Proof.
  unfold Find, IndexOf. simpl. rewrite Z.land_0_r. done.
Qed.

Lemma not_insertable_stuck b key :
  ¬ insertable hash b key → stuck hash b key.
Proof.
  unfold insertable, stuck, separable. intros Hno. split_and!.
  - destruct (Bucket_Find (list_ b) key) eqn:Hf; [|done].
    exfalso. apply Hno. left. eauto.
  - destruct (IsFull b) eqn:Hf; [done|]. exfalso. apply Hno. by right; left.
  - intros k v Hin.
    destruct (decide (low_bits 30 (hash k) = low_bits 30 (hash key)));
      [done|].
    exfalso. apply Hno. right. right. eauto.
Qed.

End TableRuns.

Section TableClaims.
Import HashTable.
Context {K V : Type} `{EqDecision K} (hash : K → Z).
Abbreviation table := (@ExtendibleHashTable K V).
Abbreviation bucket := (@Bucket K V).
Implicit Types (ht : table) (b : bucket) (key : K) (value : V).

(** C2: after any run of [Insert] and [Remove] calls on a fresh table,
    [Find] answers as the dictionary the run describes: the value of the
    last [Insert] of the key that no later [Remove] took away, and
    not-found otherwise. A further [Insert] makes [Find] return its value
    and leaves other keys alone; on a key that is present it overwrites in
    place, without a split; [Remove] returns true exactly when the key is
    present, makes [Find] fail for it and leaves other keys alone. *)
Theorem hash_round_trip bucket_size ops ht key :
  is_size_t bucket_size →
  exec hash (new bucket_size) ops = Some ht →
  Find hash ht key = Some (dict (λ _, None) ops key) ∧
  (∀ fuel value ht', Insert hash fuel ht key value = Some ht' →
     Find hash ht' key = Some (Some value) ∧
     ∀ k, k ≠ key → Find hash ht' k = Find hash ht k) ∧
  (∀ v0 fuel value, dict (λ _, None) ops key = Some v0 →
     ∃ ht', Insert hash (S fuel) ht key value = Some ht' ∧
       global_depth_ ht' = global_depth_ ht ∧ dir_ ht' = dir_ ht ∧
       num_buckets_ ht' = num_buckets_ ht ∧
       length (heap_ ht') = length (heap_ ht)) ∧
  (∃ ok ht', Remove hash ht key = Some (ok, ht') ∧
     (ok = true ↔ is_Some (dict (λ _, None) ops key)) ∧
     Find hash ht' key = Some None ∧
     ∀ k, k ≠ key → Find hash ht' k = Find hash ht k).
Proof.
  intros Hsz Hex.
  assert (Hinv0 : table_inv hash (new bucket_size : table)).
  { apply new_inv. unfold is_size_t in Hsz. lia. }
  assert (Hinv : table_inv hash ht).
  { apply reachable_inv. eapply exec_reachable; [|done]. by constructor. }
  assert (Hfind : ∀ k, Find hash ht k = Some (dict (λ _, None) ops k)).
  { apply (exec_dict hash ops (new bucket_size)); try done.
    intros k. apply Find_new. }
  split_and!.
  - apply Hfind.
  - intros fuel value ht' Hins.
    by destruct (InsertInternal_spec hash fuel ht key value ht' Hinv Hins)
      as (_ & ? & ? & _).
  - intros v0 fuel value Hv0.
    destruct (target_inv hash ht key Hinv) as (r & b & _ & Ht & _).
    pose proof (Hfind key) as Hf. rewrite Find_target, Ht, Hv0 in Hf.
    simpl in Hf. injection Hf as Hf.
    destruct (Bucket_Insert_present b key value v0 Hf) as (l' & _ & Hins).
    eexists. unfold Insert. cbn [InsertInternal].
    rewrite (insert_pass_fits hash ht key value r b _ Ht Hins).
    split; [done|]. simpl. split_and!; try done. apply length_insert.
  - destruct (Remove_spec hash ht key Hinv)
      as (ok & ht' & Hrem & _ & Hok & Hf & Hother & _).
    exists ok, ht'. split_and!; try done.
    rewrite Hok, Hfind. split.
    + intros [v [= Hv]]. by rewrite Hv.
    + intros [v Hv]. exists v. by rewrite Hv.
Qed.

(** C3: after any sequence of [Insert] and [Remove] calls on a fresh
    table the directory has 2^[global_depth_] slots, and every slot points
    to a bucket whose local depth is at most the global depth, which holds
    at most [bucket_size_] entries, and which every slot that agrees with
    this one on the low local-depth bits points to as well. *)
Theorem directory_invariants ht :
  reachable hash ht →
  Z.of_nat (length (dir_ ht)) = 2 ^ global_depth_ ht ∧
  ∀ i r, dir_ ht !! i = Some r →
    ∃ b, heap_ ht !! r = Some b ∧
      GetLocalDepthInternal ht (Z.of_nat i) = Some (depth_ b) ∧
      depth_ b <= GetGlobalDepthInternal ht ∧
      Z.of_nat (length (list_ b)) <= bucket_size_ ht ∧
      ∀ j, (j < length (dir_ ht))%nat →
        low_bits (depth_ b) (Z.of_nat i) = low_bits (depth_ b) (Z.of_nat j) →
        dir_ ht !! j = Some r.
Proof.
  intros Hreach. pose proof (reachable_inv hash ht Hreach) as Hinv.
  split; [apply (inv_len _ _ Hinv)|]. intros i r Hi.
  destruct (inv_slot _ _ Hinv i r Hi) as (b & Hb & Hok).
  exists b. split_and!.
  - done.
  - unfold GetLocalDepthInternal.
    rewrite (bucket_at_Some ht (Z.of_nat i) r b); [done|lia| |done].
    by rewrite Nat2Z.id.
  - apply (ok_depth _ _ _ _ Hok).
  - apply (ok_cap _ _ _ _ Hok).
  - intros j Hj Hlow. by apply (inv_share _ _ Hinv i j r b).
Qed.

(** C7 (amended): on a reachable table [Insert] returns, and [Find] then
    yields the value, whenever the key is already in its bucket, or the
    bucket has room, or some entry of the bucket differs from the key in
    one of the low 30 bits of the hash; 31 passes always suffice. In the
    remaining case (a full bucket whose entries all share the low 30 hash
    bits of the key, in particular any bucket of capacity 0) the splits
    go on until the [int] masks overflow and the call never returns. *)
Theorem Insert_completes_when_insertable ht key value r b :
  reachable hash ht → target hash ht key = Some (r, b) →
  (insertable hash b key →
   ∀ fuel, (31 ≤ fuel)%nat →
     ∃ ht', Insert hash fuel ht key value = Some ht' ∧
            Find hash ht' key = Some (Some value)) ∧
  (¬ insertable hash b key →
   ∀ fuel, Insert hash fuel ht key value = None).
Proof.
  intros Hreach Ht. pose proof (reachable_inv hash ht Hreach) as Hinv.
  split.
  - intros Hcan fuel Hfuel.
    destruct (target_inv hash ht key Hinv)
      as (r0 & b0 & _ & Ht0 & _ & _ & Hok).
    rewrite Ht in Ht0. injection Ht0 as <- <-.
    destruct (ok_depth _ _ _ _ Hok) as [Hd0 _].
    destruct (InsertInternal_terminates hash 30 ht key value r b)
      as [ht' Hins]; [done|done|lia|done|].
    exists ht'. unfold Insert.
    rewrite (InsertInternal_fuel hash 31 fuel ht key value ht') by done.
    split; [done|].
    by destruct (InsertInternal_spec hash 31 ht key value ht' Hinv Hins)
      as (_ & ? & _).
  - intros Hno fuel. unfold Insert.
    apply (InsertInternal_stuck hash fuel ht key value r b); try done.
    by apply not_insertable_stuck.
Qed.

End TableClaims.

Section TableExamples.
Import HashTable.

Lemma two_keys_reachable : reachable hash_int two_keys.
Proof.
  apply (exec_reachable hash_int (new 2) [OpInsert 1 0 10; OpInsert 1 2 12]).
  - apply reach_new. unfold is_size_t. lia.
  - reflexivity.
Qed.

Lemma one_key_reachable : reachable hash_int one_key.
Proof.
  apply (exec_reachable hash_int (new 1) [OpInsert 1 0 10]).
  - apply reach_new. unfold is_size_t. lia.
  - reflexivity.
Qed.

Lemma three_keys_reachable : reachable hash_int three_keys.
Proof.
  apply (exec_reachable hash_int (new 2) collide_ops).
  - apply reach_new. unfold is_size_t. lia.
  - reflexivity.
Qed.

Lemma hash_round_trip_witness :
  Find hash_int three_keys 4 = Some (dict (λ _, None) collide_ops 4).
Proof.
  apply (hash_round_trip hash_int 2 collide_ops three_keys 4).
  - unfold is_size_t. lia.
  - reflexivity.
Defined.

Lemma directory_invariants_witness :
  Z.of_nat (length (dir_ three_keys)) = 2 ^ global_depth_ three_keys.
Proof.
  apply (directory_invariants hash_int three_keys three_keys_reachable).
Defined.

Lemma Insert_completes_when_insertable_witness :
  ∃ ht', Insert hash_int 31 two_keys 4 14 = Some ht' ∧
         Find hash_int ht' 4 = Some (Some 14).
Proof.
  destruct (Insert_completes_when_insertable hash_int two_keys 4 14 0%nat
              (mkBucket 2 0 [(0, 10); (2, 12)]) two_keys_reachable)
    as [Hcan _]; [reflexivity|].
  apply Hcan; [|lia].
  right. right. exists 2, 12. split; [|by vm_compute].
  simpl. set_solver.
Defined.

(** C7 (as stated): [Insert] does not always return. On a fresh table
    of capacity 0 the bucket is always full, and on a table of capacity 1
    that holds key 0 the key 2^30 has the same low 30 hash bits: in both
    cases every split leaves the target bucket full, until the depth
    reaches 31 and [1 << depth] is no longer defined. *)
Lemma Insert_never_returns :
  (¬ ∃ fuel ht', Insert hash_int fuel (new 0) 1 1 = Some ht') ∧
  Insert hash_int 1 (new 1) 0 10 = Some one_key ∧
  (¬ ∃ fuel ht', Insert hash_int fuel one_key (2 ^ 30) 11 = Some ht').
Proof.
  split_and!.
  - intros (fuel & ht' & Hins).
    rewrite (InsertInternal_stuck hash_int fuel (new 0) 1 1 0%nat
               (mkBucket 0 0 [])) in Hins; [done| |reflexivity|].
    + by apply new_inv.
    + split_and!; [done..|]. intros k v Hin. by apply elem_of_nil in Hin.
  - reflexivity.
  - intros (fuel & ht' & Hins).
    rewrite (InsertInternal_stuck hash_int fuel one_key (2 ^ 30) 11 0%nat
               (mkBucket 1 0 [(0, 10)])) in Hins; [done| |reflexivity|].
    + apply reachable_inv, one_key_reachable.
    + split_and!; [done..|]. intros k v Hin.
      apply list_elem_of_singleton in Hin as [= -> ->]. by vm_compute.
Qed.

(** C8 (as stated): with keys 0, 2 and 4 and capacity 2 the hashes agree
    on bit 0 and differ on bit 1, and after the third insert the global
    depth is 2 and three buckets exist, not 1 and two. *)
Lemma collide_gives_depth_two :
  exec hash_int (new 2) collide_ops = Some three_keys ∧
  Z.testbit (hash_int 0) 0 = Z.testbit (hash_int 2) 0 ∧
  Z.testbit (hash_int 2) 0 = Z.testbit (hash_int 4) 0 ∧
  Z.testbit (hash_int 0) 1 ≠ Z.testbit (hash_int 2) 1 ∧
  GetGlobalDepthInternal three_keys = 2 ∧
  GetNumBucketsInternal three_keys = 3 ∧
  size (live_buckets three_keys) = 3%nat.
Proof. split_and!; try reflexivity. by vm_compute. Qed.

End TableExamples.

Lemma land_1_bit h : Z.land h 1 = Z.b2z (Z.testbit h 0).
Proof.
  change 1 with (Z.ones 1). rewrite Z.land_ones by lia.
  by rewrite Z.bit0_mod.
Qed.

Lemma land_3_bits h :
  Z.land h 3 = Z.b2z (Z.testbit h 0) + 2 * Z.b2z (Z.testbit h 1).
Proof.
  change 3 with (Z.ones 2). rewrite Z.land_ones by lia.
  change (2 ^ 2) with (2 * 2). rewrite Z.rem_mul_r by lia.
  rewrite <-!Z.bit0_mod. f_equal. f_equal. f_equal.
  by rewrite Z.div2_bits by lia.
Qed.

(** Normal forms of the masks and of the states met when a run is
    evaluated on keys given by the low bits of their hashes. *)
Ltac mask_consts :=
  change (0 + 1) with 1; change (1 + 1) with 2; change (2 + 1) with 3;
  change (Z.ones 0) with 0; change (Z.ones 1) with 1;
  change (Z.ones 2) with 3.

Ltac eval_target facts :=
  unfold HashTable.target; rewrite IndexOf_inv by (simpl; lia);
  unfold HashTable.low_bits, HashTable.bucket_at; simpl; mask_consts;
  rewrite ?Z.land_0_r; facts; reflexivity.

Ltac eval_bucket_insert :=
  unfold HashTable.Bucket_Insert; simpl; rewrite ?decide_False by done; reflexivity.

Ltac eval_split facts :=
  unfold HashTable.split_at, HashTable.pre_split, HashTable.grow,
    HashTable.repoint, HashTable.low_bits; simpl; mask_consts;
  rewrite ?Z.land_0_r; facts; simpl;
  rewrite ?filter_cons, ?filter_nil; simpl; facts; simpl.

Ltac pass_fits facts :=
  erewrite insert_pass_fits;
  [ | eval_target facts | ]; [ | eval_bucket_insert ];
  cbn [mbind option_bind].

Ltac pass_split facts :=
  erewrite insert_pass_split;
  [ | | | eval_target facts | ];
  [ | simpl; lia | simpl; lia | eval_bucket_insert ];
  eval_split facts.

Section ThreeKeys.
Import HashTable.
Context {K V : Type} `{EqDecision K} (hash : K → Z).

Lemma three_keys_run (k1 k2 k3 : K) (v1 v2 v3 : V) (c b1 b2 b3 : bool) :
  k1 ≠ k2 → k1 ≠ k3 → k2 ≠ k3 →
  Z.land (hash k1) 1 = Z.b2z c → Z.land (hash k2) 1 = Z.b2z c →
  Z.land (hash k3) 1 = Z.b2z c →
  Z.land (hash k1) 3 = Z.b2z c + 2 * Z.b2z b1 →
  Z.land (hash k2) 3 = Z.b2z c + 2 * Z.b2z b2 →
  Z.land (hash k3) 3 = Z.b2z c + 2 * Z.b2z b3 →
  ¬ (b1 = b2 ∧ b2 = b3) →
  ∃ ht,
    exec hash (new 2)
      [OpInsert 3 k1 v1; OpInsert 3 k2 v2; OpInsert 3 k3 v3] = Some ht ∧
    GetGlobalDepthInternal ht = 2 ∧ GetNumBucketsInternal ht = 3 ∧
    size (live_buckets ht) = 3%nat ∧
    ∀ i r b, dir_ ht !! i = Some r → heap_ ht !! r = Some b →
             1 <= depth_ b.
Proof.
  intros H12 H13 H23 A1 A2 A3 B1 B2 B3 Hbits.
  assert (H21 : k2 ≠ k1) by congruence.
  assert (H31 : k3 ≠ k1) by congruence.
  assert (H32 : k3 ≠ k2) by congruence.
  cbn [exec exec_op Insert InsertInternal mbind option_bind].
  pass_fits idtac. pass_fits idtac.
  destruct c, b1, b2, b3; simpl in A1, A2, A3, B1, B2, B3;
    try (exfalso; apply Hbits; by split);
    (pass_split ltac:(rewrite ?A1, ?A2, ?A3, ?B1, ?B2, ?B3);
     pass_split ltac:(rewrite ?A1, ?A2, ?A3, ?B1, ?B2, ?B3);
     pass_fits ltac:(rewrite ?A1, ?A2, ?A3, ?B1, ?B2, ?B3);
     eexists; split; [reflexivity|];
     split; [reflexivity|]; split; [reflexivity|]; split; [reflexivity|];
     intros i r b Hi Hb;
     destruct i as [|[|[|[|i]]]]; simpl in Hi; simplify_eq; simpl in Hb;
     simplify_eq; simpl; lia).
Qed.

End ThreeKeys.

Section ScenarioClaim.
Import HashTable.
Context {K V : Type} `{EqDecision K} (hash : K → Z).

(** C8 (amended): with bucket capacity 2, after inserting three distinct
    keys whose hashes agree on bit 0 and do not all agree on bit 1, the
    global depth is 2 and three buckets exist (the counter says 3 and the
    slots point to three different buckets); every bucket in the directory
    has local depth at least 1 and its entries agree with the slot index
    on hash bit 0, and on all the low local-depth bits. *)
Theorem three_colliding_keys (k1 k2 k3 : K) (v1 v2 v3 : V) :
  k1 ≠ k2 → k1 ≠ k3 → k2 ≠ k3 →
  Z.testbit (hash k1) 0 = Z.testbit (hash k2) 0 →
  Z.testbit (hash k2) 0 = Z.testbit (hash k3) 0 →
  ¬ (Z.testbit (hash k1) 1 = Z.testbit (hash k2) 1 ∧
     Z.testbit (hash k2) 1 = Z.testbit (hash k3) 1) →
  ∃ ht,
    exec hash (new 2)
      [OpInsert 3 k1 v1; OpInsert 3 k2 v2; OpInsert 3 k3 v3] = Some ht ∧
    GetGlobalDepthInternal ht = 2 ∧ GetNumBucketsInternal ht = 3 ∧
    size (live_buckets ht) = 3%nat ∧
    ∀ i r b,
      dir_ ht !! i = Some r → heap_ ht !! r = Some b →
      1 <= depth_ b ∧
      ∀ k v, (k, v) ∈ list_ b →
        Z.testbit (hash k) 0 = Z.testbit (Z.of_nat i) 0 ∧
        low_bits (depth_ b) (hash k) = low_bits (depth_ b) (Z.of_nat i).
Proof.
  intros H12 H13 H23 Hb12 Hb23 Hbit1.
  destruct (three_keys_run hash k1 k2 k3 v1 v2 v3
              (Z.testbit (hash k1) 0) (Z.testbit (hash k1) 1)
              (Z.testbit (hash k2) 1) (Z.testbit (hash k3) 1))
    as (ht & Hex & Hgd & Hnum & Hlive & Hdepth); try done.
  - apply land_1_bit.
  - rewrite Hb12. apply land_1_bit.
  - rewrite Hb12, Hb23. apply land_1_bit.
  - apply land_3_bits.
  - rewrite Hb12. apply land_3_bits.
  - rewrite Hb12, Hb23. apply land_3_bits.
  - exists ht. split_and!; try done. intros i r b Hi Hb.
    pose proof (Hdepth i r b Hi Hb) as Hd. split; [done|].
    intros k v Hin.
    assert (Hinv : table_inv hash ht).
    { apply reachable_inv. eapply exec_reachable; [|exact Hex].
      apply reach_new. unfold is_size_t. lia. }
    destruct (inv_slot _ _ Hinv i r Hi) as (b' & Hb' & Hok).
    rewrite Hb in Hb'. injection Hb' as <-.
    pose proof (ok_keys _ _ _ _ Hok k v Hin) as Hlow.
    split; [|done].
    apply (low_bits_agree 1) in Hlow; [|lia].
    unfold low_bits in Hlow. change (Z.ones 1) with 1 in Hlow.
    rewrite !land_1_bit in Hlow.
    by destruct (Z.testbit (hash k) 0), (Z.testbit (Z.of_nat i) 0).
Qed.

End ScenarioClaim.

Lemma three_colliding_keys_witness :
  ∃ ht,
    HashTable.exec HashTable.hash_int (HashTable.new 2)
      HashTable.collide_ops = Some ht ∧
    HashTable.GetGlobalDepthInternal ht = 2 ∧
    HashTable.GetNumBucketsInternal ht = 3 ∧
    size (HashTable.live_buckets ht) = 3%nat.
Proof.
  destruct (three_colliding_keys HashTable.hash_int 0 2 4 10 12 14)
    as (ht & Hex & Hgd & Hnum & Hlive & _).
  - lia.
  - lia.
  - lia.
  - reflexivity.
  - reflexivity.
  - intros [Hbit _]. vm_compute in Hbit. discriminate.
  - by exists ht.
Defined.

(* ================================================================== *)
(** * Further properties of the LRU-K replacer *)
(* ================================================================== *)

Section ReplacerDefined.
Import Replacer.

Lemma SetEvictable_defined st f flag : is_Some (SetEvictable st f flag).
Proof.
  unfold SetEvictable. destruct (rejected st f); [eauto|].
  destruct (frame_entities_ st !! f); eauto.
Qed.

Lemma Remove_defined st f : wf st → is_Some (Remove st f).
Proof.
  intros Hwf. destruct (rejected st f) eqn:Hrej.
  - unfold Remove. rewrite Hrej. eauto.
  - destruct (frame_entities_ st !! f) as [e|] eqn:Hf.
    + destruct (evictable_ e) eqn:Hev.
      * rewrite (Remove_tracked st f e) by done. eauto.
      * unfold Remove. rewrite Hrej, Hf, Hev. simpl. eauto.
    + unfold Remove. rewrite Hrej, Hf. eauto.
Qed.

Lemma Evict_defined st : wf st → is_Some (Evict st).
Proof.
  intros Hwf. destruct (Z.le_gt_cases (curr_size_ st) 0).
  - rewrite Evict_empty by done. eauto.
  - destruct (Evict_victim st Hwf) as (f & -> & _); [lia|eauto].
Qed.

Lemma RecordAccess_defined st f :
  wf st → 1 <= k_ st → is_Some (RecordAccess st f).
Proof.
  intros Hwf Hk. destruct (rejected st f) eqn:Hrej.
  - unfold RecordAccess. rewrite Hrej. eauto.
  - rewrite RecordAccess_after by auto. eauto.
Qed.

(** What [Evict] does, by cases on [curr_size_]. *)
Lemma Evict_cases st r :
  wf st → Evict st = Some r →
  (curr_size_ st <= 0 ∧ r = evict_fail st) ∨
  (∃ f e, r = mkEvict true (Some f) (after_drop st f) ∧ victim st f ∧
          frame_entities_ st !! f = Some e ∧ evictable_ e = true).
Proof.
  intros Hwf Hr. destruct (Z.le_gt_cases (curr_size_ st) 0) as [Hz|Hpos].
  - rewrite Evict_empty in Hr by done. left. split; [done|congruence].
  - destruct (Evict_victim st Hwf) as (f & Hf & Hv); [lia|].
    rewrite Hf in Hr. injection Hr as <-. right.
    assert (∃ e, frame_entities_ st !! f = Some e ∧ evictable_ e = true)
      as (e & He & Hev).
    { destruct Hv as [Hv|[_ Hv]];
        destruct Hv as (? & ? & e & _ & ? & ? & _); eauto. }
    eauto 10.
Qed.

(** The records after a step: a record of [st'] was in [st], or was
    created by this [RecordAccess]. *)
Lemma step_entities st o st' g e' :
  wf st → step st o = Some st' → frame_entities_ st' !! g = Some e' →
  is_Some (frame_entities_ st !! g) ∨
  (o = OpRecordAccess g ∧ rejected st g = false).
Proof.
  intros Hwf Hst Hg. destruct o as [f|f b| |f]; simpl in Hst.
  - destruct (rejected st f) eqn:Hrej.
    + unfold RecordAccess in Hst. rewrite Hrej in Hst.
      injection Hst as <-. eauto.
    + apply RecordAccess_inv in Hst; [|done..]. subst st'.
      unfold after_access in Hg.
      destruct (decide (g = f)) as [->|Hne]; [by right|]. left.
      destruct (_ <? _); simpl in Hg;
        rewrite lookup_insert_ne in Hg by done; eauto.
  - left. unfold SetEvictable in Hst.
    destruct (rejected st f); [injection Hst as <-; eauto|].
    destruct (frame_entities_ st !! f) as [e|] eqn:Hf;
      [|injection Hst as <-; eauto].
    injection Hst as <-. simpl in Hg.
    destruct (decide (g = f)) as [->|Hne]; [eauto|].
    rewrite lookup_insert_ne in Hg by done. eauto.
  - left. destruct (Evict st) as [r|] eqn:Hr; [|done]. injection Hst as <-.
    destruct (Evict_cases st r Hwf Hr) as [[_ ->]|(f & e & -> & _)].
    + simpl in Hg. eauto.
    + simpl in Hg. apply lookup_delete_Some in Hg as [_ Hg]. eauto.
  - left. destruct (rejected st f) eqn:Hrej.
    { unfold Remove in Hst. rewrite Hrej in Hst. injection Hst as <-. eauto. }
    destruct (frame_entities_ st !! f) as [e|] eqn:Hf.
    + destruct (evictable_ e) eqn:Hev.
      * rewrite (Remove_tracked st f e) in Hst by done. injection Hst as <-.
        simpl in Hg. apply lookup_delete_Some in Hg as [_ Hg]. eauto.
      * unfold Remove in Hst. rewrite Hrej, Hf, Hev in Hst. simpl in Hst.
        injection Hst as <-. eauto.
    + unfold Remove in Hst. rewrite Hrej, Hf in Hst.
      injection Hst as <-. eauto.
Qed.

(** Every tracked frame passed the bound check. *)
Lemma tracked_accepted st f :
  reachable st → is_Some (frame_entities_ st !! f) → rejected st f = false.
Proof.
  induction 1 as [n k|st o st' Hreach IH Hok Hst]; intros [e He].
  - change ((∅ : gmap Z FrameEntity) !! f = Some e) in He.
    by rewrite lookup_empty in He.
  - pose proof (reachable_wf st Hreach) as Hwf.
    destruct (step_params st o st' Hst) as [_ Hsz].
    unfold rejected in *. rewrite Hsz.
    destruct (step_entities st o st' f e Hwf Hst He) as [Hin|[_ Hrej]];
      [by apply IH|done].
Qed.

(** With [k_ = 0] no frame is ever tracked. *)
Lemma zero_k_tracks_nothing st :
  reachable st → k_ st < 1 → frame_entities_ st = ∅.
Proof.
  induction 1 as [n k|st o st' Hreach IH Hok Hst]; intros Hk; [done|].
  pose proof (reachable_wf st Hreach) as Hwf.
  destruct (step_params st o st' Hst) as [Hk' _]. rewrite Hk' in Hk.
  specialize (IH Hk). apply map_eq. intros g. rewrite lookup_empty.
  destruct (frame_entities_ st' !! g) as [e'|] eqn:Hg; [|done].
  destruct (step_entities st o st' g e' Hwf Hst Hg) as [[e He]|[-> Hrej]].
  - by rewrite IH, lookup_empty in He.
  - simpl in Hst. rewrite RecordAccess_undefined in Hst; try done.
    by rewrite IH, lookup_empty.
Qed.

End ReplacerDefined.

Section ReplacerDrop.
Import Replacer.

Lemma erase_node_filter x l :
  NoDup l → erase_node x l = filter (λ g, g ≠ x) l.
Proof.
  induction 1 as [|z l Hz Hl IH]; simpl; [done|].
  destruct (decide (z = x)) as [->|Hne].
  - rewrite filter_cons_False by (intros ?; done).
    rewrite <-IH. by rewrite erase_node_notin.
  - rewrite filter_cons_True by done. by rewrite IH.
Qed.

Lemma erase_node_sublist x l : erase_node x l `sublist_of` l.
Proof.
  induction l as [|z l IH]; simpl; [done|].
  destruct (decide (z = x)); [by apply sublist_cons|by apply sublist_skip].
Qed.

(** The state [after_drop] leaves, read field by field. *)
Lemma after_drop_facts st f e :
  wf st → frame_entities_ st !! f = Some e →
  hist_list_ (after_drop st f) = filter (λ g, g ≠ f) (hist_list_ st) ∧
  cache_list_ (after_drop st f) = filter (λ g, g ≠ f) (cache_list_ st) ∧
  (if decide (hit_count_ e < k_ st)
   then f ∈ hist_list_ st ∧ cache_list_ (after_drop st f) = cache_list_ st
   else f ∈ cache_list_ st ∧ hist_list_ (after_drop st f) = hist_list_ st).
Proof.
  intros Hwf Hf. simpl.
  rewrite !erase_node_filter
    by (apply (wf_hist_nodup st Hwf) || apply (wf_cache_nodup st Hwf)).
  split_and!; try done. case_decide as Hlt.
  - destruct (tracked_hist st f e Hwf Hf Hlt) as (_ & Hin & Hout).
    split; [done|].
    rewrite <-erase_node_filter by apply (wf_cache_nodup st Hwf).
    by apply erase_node_notin.
  - destruct (tracked_cache st f e Hwf Hf) as (_ & Hin & Hout); [lia|].
    split; [done|].
    rewrite <-erase_node_filter by apply (wf_hist_nodup st Hwf).
    by apply erase_node_notin.
Qed.

End ReplacerDrop.

Section ReplacerDrain.
Import Replacer.

Lemma ids_in_range_bounded (ents : gmap Z FrameEntity) n :
  0 <= n → (∀ f e, ents !! f = Some e → 0 <= f < n) →
  Z.of_nat (size ents) <= n.
Proof.
  intros Hn Hk. rewrite <-(size_dom (D:=gset Z)).
  assert (Hsub : dom ents ⊆ (list_to_set (seqZ 0 n) : gset Z)).
  { intros f Hf. apply elem_of_dom in Hf as [e He].
    apply elem_of_list_to_set, elem_of_seqZ.
    specialize (Hk _ _ He). lia. }
  apply subseteq_size in Hsub.
  rewrite size_list_to_set, length_seqZ in Hsub by apply NoDup_seqZ.
  lia.
Qed.

(** A map without evictable records is its own non-evictable part. *)
Lemma none_evictable_filter (ents : gmap Z FrameEntity) :
  evictable_count ents = 0%nat →
  filter (λ p, evictable_ p.2 = false) ents = ents.
Proof.
  unfold evictable_count. intros Hz. apply map_size_empty_iff in Hz.
  apply map_filter_id. intros f e He. simpl.
  destruct (evictable_ e) eqn:Hev; [|done].
  assert (Hin : filter (λ p : Z * FrameEntity, evictable_ p.2 = true) ents
                !! f = Some e) by by apply map_lookup_filter_Some.
  by rewrite Hz, lookup_empty in Hin.
Qed.

(** [m] evictions in a row, while evictable frames are left. *)
Lemma Evict_prefix m : ∀ st,
  wf st → (m ≤ evictable_count (frame_entities_ st))%nat →
  ∃ st', run st (replicate m OpEvict) = Some st' ∧ wf st' ∧
    (evictable_count (frame_entities_ st')
     = evictable_count (frame_entities_ st) - m)%nat ∧
    filter (λ p, evictable_ p.2 = false) (frame_entities_ st')
    = filter (λ p, evictable_ p.2 = false) (frame_entities_ st).
Proof.
  induction m as [|m IH]; intros st Hwf Hm.
  - exists st. split_and!; try done. lia.
  - destruct (Evict_victim st Hwf) as (f & Hf & Hv).
    { rewrite (wf_size st Hwf). lia. }
    destruct (Evict_cases st _ Hwf Hf) as [[_ [=]]|(g & e & Hr & _ & Hg & Hev)].
    injection Hr as <-.
    pose proof (after_drop_wf st f e Hwf Hg Hev) as Hwf1.
    pose proof (evictable_count_delete _ f e Hg) as Hcnt.
    rewrite Hev in Hcnt. simpl in Hcnt.
    destruct (IH (after_drop st f) Hwf1) as (st' & Hrun & Hwf' & Hc & Hk).
    { simpl. lia. }
    exists st'. split_and!; try done.
    + cbn [replicate run step]. rewrite Hf. simpl. exact Hrun.
    + simpl in Hc. lia.
    + rewrite Hk. simpl. apply map_filter_delete_not.
      intros y Hy. simpl. rewrite Hg in Hy. injection Hy as <-.
      by rewrite Hev.
Qed.

Lemma scan_victim ents l id e0 :
  scan ents l = ScanVictim id e0 → ents !! id = Some e0 ∧ evictable_ e0 = true.
Proof.
  induction l as [|x l IH]; simpl; [done|].
  destruct (ents !! x) as [e|] eqn:Hx; [|done].
  destruct (evictable_ e) eqn:Hev; [|done].
  intros [= <- <-]. done.
Qed.

Lemma evict_from_entities owner st id e0 r :
  evict_from owner st id e0 = Some r →
  frame_entities_ (ev_post r) = delete id (frame_entities_ st).
Proof.
  unfold evict_from. destruct owner.
  - destruct (list_erase _ _ _); [|done]. by intros [= <-].
  - destruct (list_erase _ _ _); [|done]. by intros [= <-].
Qed.

(** The record of a non-evictable frame survives every call other than
    [RecordAccess] and [SetEvictable] on that frame, in any state. *)
Lemma step_keeps_pinned st o st' f e :
  frame_entities_ st !! f = Some e → evictable_ e = false →
  o ≠ OpRecordAccess f → (∀ b, o ≠ OpSetEvictable f b) →
  step st o = Some st' → frame_entities_ st' !! f = Some e.
Proof.
  intros Hf Hev Ho1 Ho2 Hst. destruct o as [g|g b| |g]; simpl in Hst.
  - assert (Hne : g ≠ f) by congruence.
    unfold RecordAccess in Hst.
    destruct (rejected st g); [by injection Hst as <-|].
    destruct (frame_entities_ st !! g);
      repeat (case_match; simplify_option_eq);
      simpl; by rewrite lookup_insert_ne.
  - assert (Hne : g ≠ f) by (intros ->; by apply (Ho2 b)).
    unfold SetEvictable in Hst.
    destruct (rejected st g); [by injection Hst as <-|].
    destruct (frame_entities_ st !! g); [|by injection Hst as <-].
    injection Hst as <-. simpl. by rewrite lookup_insert_ne.
  - destruct (Evict st) as [r|] eqn:Hr; [|done]. injection Hst as <-.
    unfold Evict in Hr.
    destruct (curr_size_ st <=? 0); [by injection Hr as <-|].
    destruct (scan _ (rev (hist_list_ st))) as [id e0| |] eqn:Hs1.
    + apply scan_victim in Hs1 as [Hid Hev0].
      rewrite (evict_from_entities _ _ _ _ _ Hr).
      rewrite lookup_delete_ne; [done|]. intros ->. congruence.
    + by injection Hr as <-.
    + destruct (scan _ (rev (cache_list_ st))) as [id e0| |] eqn:Hs2.
      * apply scan_victim in Hs2 as [Hid Hev0].
        rewrite (evict_from_entities _ _ _ _ _ Hr).
        rewrite lookup_delete_ne; [done|]. intros ->. congruence.
      * by injection Hr as <-.
      * by injection Hr as <-.
  - unfold Remove in Hst.
    destruct (rejected st g); [by injection Hst as <-|].
    destruct (frame_entities_ st !! g) as [eg|] eqn:Hg;
      [|by injection Hst as <-].
    destruct (evictable_ eg) eqn:Hevg; simpl in Hst;
      [|by injection Hst as <-].
    assert (Hne : g ≠ f) by (intros ->; congruence).
    repeat (case_match; simplify_option_eq);
      simpl; by rewrite lookup_delete_ne.
Qed.

End ReplacerDrain.

Section ReplacerExtras.
Import Replacer.

(** X1: on a replacer built with [k >= 1] no call ever has undefined
    behaviour: each of [RecordAccess], [SetEvictable], [Evict] and
    [Remove] returns, in every state a client can reach. In particular
    every [erase] gets an iterator of the list it is called on, whose node
    is still linked. *)
Theorem calls_never_undefined st o :
  reachable st → 1 <= k_ st → is_Some (step st o).
Proof.
  intros Hreach Hk. pose proof (reachable_wf st Hreach) as Hwf.
  destruct o as [f|f b| |f]; simpl.
  - by apply RecordAccess_defined.
  - apply SetEvictable_defined.
  - destruct (Evict_defined st Hwf) as [r ->]. simpl. eauto.
  - by apply Remove_defined.
Qed.

Lemma calls_never_undefined_witness :
  is_Some (step scenario_state OpEvict).
Proof.
  apply (calls_never_undefined scenario_state OpEvict scenario_reachable).
  by vm_compute.
Defined.

(** X2: on a replacer built with [k = 0], [RecordAccess] of any frame id
    that passes the bound check is undefined: the new record's count 1
    exceeds [k_], so the node just put into [hist_list_] is erased from
    [cache_list_]. *)
Theorem RecordAccess_undefined_for_zero_k st f :
  reachable st → k_ st = 0 → rejected st f = false →
  RecordAccess st f = None.
Proof.
  intros Hreach Hk Hrej. apply RecordAccess_undefined; try done.
  - by apply reachable_wf.
  - lia.
  - rewrite zero_k_tracks_nothing by (done || lia). apply lookup_empty.
Qed.

Lemma RecordAccess_undefined_for_zero_k_witness :
  RecordAccess (new 7 0) 1 = None.
Proof.
  apply (RecordAccess_undefined_for_zero_k (new 7 0) 1).
  - apply reach_new; unfold is_size_t; lia.
  - reflexivity.
  - reflexivity.
Defined.

(** X3: [Remove] of a tracked evictable frame drops it: the record is
    erased, the frame's node is unlinked from the list that holds it
    (history below [k_] accesses, cache from [k_] on) while the other list
    and all other records stay as they are, and [Size()] goes down by
    one. *)
Theorem Remove_drops_evictable_frame st f e :
  reachable st → frame_entities_ st !! f = Some e → evictable_ e = true →
  ∃ st', Remove st f = Some st' ∧
    frame_entities_ st' = delete f (frame_entities_ st) ∧
    hist_list_ st' = filter (λ g, g ≠ f) (hist_list_ st) ∧
    cache_list_ st' = filter (λ g, g ≠ f) (cache_list_ st) ∧
    (if decide (hit_count_ e < k_ st)
     then f ∈ hist_list_ st ∧ cache_list_ st' = cache_list_ st
     else f ∈ cache_list_ st ∧ hist_list_ st' = hist_list_ st) ∧
    Size st' = Size st - 1 ∧
    k_ st' = k_ st ∧ replacer_size_ st' = replacer_size_ st.
Proof.
  intros Hreach Hf Hev. pose proof (reachable_wf st Hreach) as Hwf.
  exists (after_drop st f).
  destruct (after_drop_facts st f e Hwf Hf) as (Hh & Hc & Hside).
  split_and!; try done.
  apply (Remove_tracked st f e); try done.
  apply tracked_accepted; eauto.
Qed.

Lemma Remove_drops_evictable_frame_witness :
  ∃ st', Remove scenario_state 2 = Some st' ∧
    frame_entities_ st' = delete 2 (frame_entities_ scenario_state) ∧
    hist_list_ st' = filter (λ g, g ≠ 2) (hist_list_ scenario_state).
Proof.
  destruct (Remove_drops_evictable_frame scenario_state 2
              (mkEntity 1 true (mkIt HistList 2)) scenario_reachable)
    as (st' & Hst & He & Hh & _); [reflexivity|reflexivity|].
  exists st'. by split_and!.
Defined.

(** X4: a successful [Evict] does to the replacer exactly what [Remove]
    of the returned frame does. *)
Theorem Evict_agrees_with_Remove st r f :
  reachable st → Evict st = Some r → ev_store r = Some f →
  ev_ret r = true ∧ Remove st f = Some (ev_post r).
Proof.
  intros Hreach Hr Hf. pose proof (reachable_wf st Hreach) as Hwf.
  destruct (Evict_cases st r Hwf Hr) as [[_ ->]|(g & e & -> & _ & Hg & Hev)];
    [done|].
  simpl in Hf. injection Hf as ->. split; [done|]. simpl.
  apply (Remove_tracked st f e); try done.
  apply tracked_accepted; eauto.
Qed.

Lemma Evict_agrees_with_Remove_witness :
  Remove scenario_state 2
  = Some (after_drop scenario_state 2).
Proof.
  apply (Evict_agrees_with_Remove scenario_state
           (mkEvict true (Some 2) (after_drop scenario_state 2)) 2
           scenario_reachable); reflexivity.
Defined.

(** X5: in every reachable state the two lists together hold each tracked
    frame exactly once and nothing else; a tracked frame has at least one
    recorded access and sits in the history list when it has fewer than
    [k_] accesses, in the cache list otherwise. *)
Theorem lists_partition_tracked_frames st :
  reachable st →
  NoDup (hist_list_ st ++ cache_list_ st) ∧
  (∀ f, f ∈ hist_list_ st ++ cache_list_ st
        ↔ is_Some (frame_entities_ st !! f)) ∧
  (∀ f e, frame_entities_ st !! f = Some e →
     1 <= hit_count_ e ∧
     (f ∈ hist_list_ st ↔ hit_count_ e < k_ st) ∧
     (f ∈ cache_list_ st ↔ k_ st <= hit_count_ e)) ∧
  (length (hist_list_ st) + length (cache_list_ st))%nat
  = size (frame_entities_ st).
Proof.
  intros Hreach. pose proof (reachable_wf st Hreach) as Hwf.
  assert (Hnd : NoDup (hist_list_ st ++ cache_list_ st)).
  { apply NoDup_app. split_and!.
    - apply (wf_hist_nodup st Hwf).
    - intros f Hh Hc.
      destruct (wf_hist st Hwf f Hh) as (e & He & Hth).
      destruct (wf_cache st Hwf f Hc) as (e' & He' & Htc). congruence.
    - apply (wf_cache_nodup st Hwf). }
  assert (Hdom : ∀ f, f ∈ hist_list_ st ++ cache_list_ st
                      ↔ is_Some (frame_entities_ st !! f)).
  { intros f. rewrite elem_of_app. split.
    - intros [Hin|Hin].
      + destruct (wf_hist st Hwf f Hin) as (e & He & _). eauto.
      + destruct (wf_cache st Hwf f Hin) as (e & He & _). eauto.
    - intros [e He]. destruct (wf_entity st Hwf f e He) as (_ & _ & _ & Hl).
      destruct (it_list (it_ e)); tauto. }
  split_and!; try done.
  - intros f e He. destruct (wf_entity st Hwf f e He) as (_ & _ & Hhits & _).
    split; [done|]. split; split.
    + intros Hin. destruct (Z.lt_ge_cases (hit_count_ e) (k_ st)); [done|].
      by destruct (tracked_cache st f e Hwf He) as (_ & _ & Hout).
    + intros Hlt. by destruct (tracked_hist st f e Hwf He Hlt) as (_ & ? & _).
    + intros Hin. destruct (Z.lt_ge_cases (hit_count_ e) (k_ st)) as [Hlt|];
        [|done].
      by destruct (tracked_hist st f e Hwf He Hlt) as (_ & _ & Hout).
    + intros Hge. by destruct (tracked_cache st f e Hwf He Hge) as (_ & ? & _).
  - rewrite <-length_app, <-(size_list_to_set (C:=gset Z)) by done.
    rewrite <-(size_dom (D:=gset Z)). f_equal.
    apply set_eq. intros f.
    rewrite elem_of_list_to_set, Hdom, elem_of_dom. done.
Qed.

Lemma lists_partition_tracked_frames_witness :
  NoDup (hist_list_ scenario_state ++ cache_list_ scenario_state).
Proof.
  apply (lists_partition_tracked_frames scenario_state scenario_reachable).
Defined.

(** X6: only frame ids that pass the bound check are ever tracked. For a
    capacity below 2^64 - 2^31 these are the ids from 0 up to and
    including [replacer_size_], so the replacer tracks at most
    [replacer_size_ + 1] frames and [Size()] is at most that. *)
Theorem tracked_frames_within_capacity st :
  reachable st → replacer_size_ st < 2 ^ 64 - 2 ^ 31 →
  (∀ f, is_Some (frame_entities_ st !! f) → 0 <= f <= replacer_size_ st) ∧
  Z.of_nat (size (frame_entities_ st)) <= replacer_size_ st + 1 ∧
  Size st <= replacer_size_ st + 1.
Proof.
  intros Hreach Hcap. pose proof (reachable_wf st Hreach) as Hwf.
  assert (Hin : ∀ f, is_Some (frame_entities_ st !! f) →
                     0 <= f <= replacer_size_ st).
  { intros f Hf. pose proof (tracked_accepted st f Hreach Hf) as Hacc.
    destruct Hf as [e He].
    destruct (wf_entity st Hwf f e He) as (Hid & _).
    destruct (decide (f < 0 ∨ replacer_size_ st < f)) as [Hout|Hok]; [|lia].
    rewrite (rejected_outside st f) in Hacc by done. done. }
  destruct (reachable_params st Hreach) as [_ Hsz]. unfold is_size_t in Hsz.
  assert (Hb : Z.of_nat (size (frame_entities_ st)) <= replacer_size_ st + 1).
  { apply ids_in_range_bounded; [lia|].
    intros f e He. specialize (Hin f (mk_is_Some _ _ He)). lia. }
  split_and!; try done.
  unfold Size. rewrite (wf_size st Hwf).
  pose proof (evictable_count_le_size (frame_entities_ st)). lia.
Qed.

Lemma tracked_frames_within_capacity_witness :
  Size scenario_state <= replacer_size_ scenario_state + 1.
Proof.
  apply (tracked_frames_within_capacity scenario_state scenario_reachable).
  by vm_compute.
Defined.

(** X7: of two [SetEvictable] calls in a row on the same frame the last
    one decides: the state is the one the second call alone would have
    given. So setting the same flag twice is setting it once; and when
    the flag of the frame already is the one the second call sets, or the
    frame is not tracked, the two calls together restore the state:
    setting an evictable frame non-evictable and evictable again leaves
    the replacer as it was. *)
Theorem SetEvictable_last_call_wins st f b1 b2 :
  reachable st →
  (st1 ← SetEvictable st f b1; SetEvictable st1 f b2)
  = SetEvictable st f b2 ∧
  (match frame_entities_ st !! f with
   | Some e => evictable_ e = b2
   | None => True
   end →
   (st1 ← SetEvictable st f b1; SetEvictable st1 f b2) = Some st).
Proof.
  intros Hreach. pose proof (reachable_wf st Hreach) as Hwf.
  assert (Hpair : (st1 ← SetEvictable st f b1; SetEvictable st1 f b2)
                  = SetEvictable st f b2).
  { destruct (rejected st f) eqn:Hrej.
    { unfold SetEvictable. rewrite Hrej. simpl. by rewrite Hrej. }
    destruct (frame_entities_ st !! f) as [e|] eqn:Hf.
    - rewrite !(SetEvictable_tracked st f _ e) by done. simpl.
      rewrite (SetEvictable_tracked (after_set st f b1 e) f b2
                 (mkEntity (hit_count_ e) b1 (it_ e))).
      + unfold after_set. simpl. rewrite insert_insert_eq.
        do 2 f_equal. lia.
      + by apply after_set_wf.
      + done.
      + simpl. apply lookup_insert_eq.
    - unfold SetEvictable. rewrite Hrej, Hf. simpl. by rewrite Hrej, Hf. }
  split; [done|]. rewrite Hpair. intros Hflag.
  destruct (rejected st f) eqn:Hrej.
  { unfold SetEvictable. by rewrite Hrej. }
  destruct (frame_entities_ st !! f) as [e|] eqn:Hf.
  - rewrite (SetEvictable_tracked st f b2 e) by done. f_equal.
    unfold after_set. rewrite <-Hflag.
    replace (mkEntity (hit_count_ e) (evictable_ e) (it_ e)) with e
      by (by destruct e).
    rewrite insert_id by done.
    replace (curr_size_ st + Z.of_nat (flag_weight (evictable_ e))
             - Z.of_nat (flag_weight (evictable_ e))) with (curr_size_ st)
      by lia.
    by destruct st.
  - unfold SetEvictable. by rewrite Hrej, Hf.
Qed.

Lemma SetEvictable_last_call_wins_witness :
  (st1 ← SetEvictable scenario_state 1 false; SetEvictable st1 1 true)
  = Some scenario_state.
Proof.
  apply (SetEvictable_last_call_wins scenario_state 1 false true
           scenario_reachable).
  reflexivity.
Defined.

(** X8: [Evict] can be called [Size()] times with success. For every
    [m <= Size()], [m] calls of [Evict] in a row bring [Size()] down by
    [m] and leave every non-evictable record as it is; after [Size()]
    calls the tracked frames are exactly the non-evictable ones, and the
    next [Evict] fails. *)
Theorem Evict_drains_evictable_frames st m :
  reachable st → (m ≤ Z.to_nat (Size st))%nat →
  ∃ st', run st (replicate m OpEvict) = Some st' ∧
    Size st' = Size st - Z.of_nat m ∧
    filter (λ p, evictable_ p.2 = false) (frame_entities_ st')
    = filter (λ p, evictable_ p.2 = false) (frame_entities_ st) ∧
    (m = Z.to_nat (Size st) →
     frame_entities_ st'
     = filter (λ p, evictable_ p.2 = false) (frame_entities_ st) ∧
     Evict st' = Some (mkEvict false None st')).
Proof.
  intros Hreach Hm. pose proof (reachable_wf st Hreach) as Hwf.
  unfold Size in *. rewrite (wf_size st Hwf) in Hm.
  destruct (Evict_prefix m st Hwf) as (st' & Hrun & Hwf' & Hcnt & Hkeep);
    [lia|].
  exists st'. rewrite (wf_size st Hwf), (wf_size st' Hwf').
  split_and!; [done|lia|done|].
  intros ->. rewrite <-Hkeep. split.
  - symmetry. apply none_evictable_filter. lia.
  - apply Evict_empty. rewrite (wf_size st' Hwf'). lia.
Qed.

Lemma Evict_drains_evictable_frames_witness :
  ∃ st', run scenario_state (replicate 2 OpEvict) = Some st' ∧
         Size st' = Size scenario_state - 2.
Proof.
  destruct (Evict_drains_evictable_frames scenario_state 2
              scenario_reachable) as (st' & Hrun & Hsz & _).
  - by vm_compute.
  - by exists st'.
Defined.

(** X9: an evicted frame is forgotten. After [Evict] has returned frame
    [f], [f] is not tracked and in neither list; the next
    [RecordAccess(f)] starts a new record with one access, evictable, in
    the history list (in the cache list when [k_ = 1]), and [Size()] is
    back at its value before the eviction. *)
Theorem evicted_frame_starts_afresh st r f :
  reachable st → 1 <= k_ st → Evict st = Some r → ev_store r = Some f →
  frame_entities_ (ev_post r) !! f = None ∧
  (f ∉ hist_list_ (ev_post r)) ∧ (f ∉ cache_list_ (ev_post r)) ∧
  ∃ st', RecordAccess (ev_post r) f = Some st' ∧
    frame_entities_ st' !! f
    = Some (mkEntity 1 true
              (mkIt (if 1 <? k_ st then HistList else CacheList) f)) ∧
    (if 1 <? k_ st
     then hist_list_ st' = f :: hist_list_ (ev_post r) ∧
          cache_list_ st' = cache_list_ (ev_post r)
     else hist_list_ st' = hist_list_ (ev_post r) ∧
          cache_list_ st' = f :: cache_list_ (ev_post r)) ∧
    Size st' = Size st.
Proof.
  intros Hreach Hk Hr Hf. pose proof (reachable_wf st Hreach) as Hwf.
  pose proof (Evict_wf st r Hwf Hr) as Hwf'.
  destruct (Evict_cases st r Hwf Hr) as [[_ ->]|(g & e & -> & _ & Hg & Hev)];
    [done|].
  simpl in Hf. injection Hf as ->. cbn [ev_post] in *.
  assert (Hsz : curr_size_ (after_drop st f) + 1 = curr_size_ st)
    by (simpl; lia).
  assert (Hk1 : k_ (after_drop st f) = k_ st) by done.
  assert (Hacc : rejected (after_drop st f) f = false).
  { change (rejected st f = false). apply tracked_accepted; eauto. }
  set (st1 := after_drop st f) in *.
  assert (Hnone : frame_entities_ st1 !! f = None) by apply lookup_delete_eq.
  destruct (untracked_not_listed _ f Hwf' Hnone) as [Hh Hc].
  split_and!; try done.
  exists (after_access st1 f). split.
  { apply RecordAccess_after; [done|done|]. left. by rewrite Hk1. }
  unfold after_access. rewrite Hnone, Hk1.
  cbn [from_option]. change (0 + 1) with 1.
  destruct (1 <? k_ st) eqn:Hlt;
    cbn [frame_entities_ hist_list_ cache_list_ curr_size_ Size];
    rewrite lookup_insert_eq.
  - by split_and!.
  - rewrite erase_node_head, (erase_node_notin f (cache_list_ st1)) by done.
    by split_and!.
Qed.

Lemma evicted_frame_starts_afresh_witness :
  frame_entities_ (after_drop scenario_state 2) !! 2 = None.
Proof.
  apply (evicted_frame_starts_afresh scenario_state
           (mkEvict true (Some 2) (after_drop scenario_state 2)) 2
           scenario_reachable); [by vm_compute|reflexivity|reflexivity].
Defined.

(** X10: a non-evictable frame is never dropped. Whatever calls follow,
    as long as none of them is [RecordAccess] or [SetEvictable] on that
    frame, its record stays as it is: [Evict] never picks it and
    [Remove] of it does nothing. This holds in every state. *)
Theorem non_evictable_frame_is_kept st f e os st' :
  frame_entities_ st !! f = Some e → evictable_ e = false →
  Forall (λ o, o ≠ OpRecordAccess f ∧ ∀ b, o ≠ OpSetEvictable f b) os →
  run st os = Some st' →
  frame_entities_ st' !! f = Some e.
Proof.
  intros Hf Hev Hos. revert st Hf.
  induction Hos as [|o os [Ho1 Ho2] _ IH]; intros st Hf Hrun; simpl in Hrun.
  - by injection Hrun as <-.
  - destruct (step st o) as [st1|] eqn:Hst; [|done]. simpl in Hrun.
    apply (IH st1); [|done]. by eapply step_keeps_pinned.
Qed.

Lemma non_evictable_frame_is_kept_witness :
  frame_entities_ (after_drop scenario_state 2) !! 3
  = Some (mkEntity 1 false (mkIt HistList 3)).
Proof.
  apply (non_evictable_frame_is_kept scenario_state 3
           (mkEntity 1 false (mkIt HistList 3)) [OpEvict; OpRemove 3]).
  - reflexivity.
  - reflexivity.
  - repeat constructor; done.
  - reflexivity.
Defined.

End ReplacerExtras.

Section ReplacerOrder.
Import Replacer.

(** What a call leaves behind, in terms of the closed forms. *)
Lemma step_shape st o st' :
  wf st → step st o = Some st' →
  match o with
  | OpRecordAccess f =>
      if rejected st f then st' = st else st' = after_access st f
  | OpSetEvictable f b =>
      st' = st ∨
      ∃ e, frame_entities_ st !! f = Some e ∧ st' = after_set st f b e
  | OpEvict =>
      st' = st ∨
      ∃ f e, frame_entities_ st !! f = Some e ∧ evictable_ e = true ∧
             st' = after_drop st f
  | OpRemove f =>
      st' = st ∨
      ∃ e, frame_entities_ st !! f = Some e ∧ evictable_ e = true ∧
           st' = after_drop st f
  end.
Proof.
  intros Hwf Hst. destruct o as [f|f b| |f]; simpl in Hst.
  - destruct (rejected st f) eqn:Hrej.
    + unfold RecordAccess in Hst. rewrite Hrej in Hst. congruence.
    + by apply RecordAccess_inv.
  - destruct (rejected st f) eqn:Hrej.
    { unfold SetEvictable in Hst. rewrite Hrej in Hst. left. congruence. }
    destruct (frame_entities_ st !! f) as [e|] eqn:Hf.
    + rewrite (SetEvictable_tracked st f b e) in Hst by done.
      right. exists e. split; [done|congruence].
    + unfold SetEvictable in Hst. rewrite Hrej, Hf in Hst. left. congruence.
  - destruct (Evict st) as [r|] eqn:Hr; [|done]. injection Hst as <-.
    destruct (Evict_cases st r Hwf Hr) as [[_ ->]|(f & e & -> & _ & ? & ?)];
      [by left|right; eauto].
  - destruct (rejected st f) eqn:Hrej.
    { unfold Remove in Hst. rewrite Hrej in Hst. left. congruence. }
    destruct (frame_entities_ st !! f) as [e|] eqn:Hf.
    + destruct (evictable_ e) eqn:Hev.
      * rewrite (Remove_tracked st f e) in Hst by done.
        right. exists e. split_and!; [done..|congruence].
      * unfold Remove in Hst. rewrite Hrej, Hf, Hev in Hst. simpl in Hst.
        left. congruence.
    + unfold Remove in Hst. rewrite Hrej, Hf in Hst. left. congruence.
Qed.

(** The two lists after an accepted [RecordAccess]. *)
Lemma after_access_lists st f :
  wf st →
  if from_option hit_count_ 0 (frame_entities_ st !! f) + 1 <? k_ st
  then hist_list_ (after_access st f)
       = (if frame_entities_ st !! f is None
          then f :: hist_list_ st else hist_list_ st) ∧
       cache_list_ (after_access st f) = cache_list_ st ∧
       f ∉ cache_list_ st
  else hist_list_ (after_access st f) = erase_node f (hist_list_ st) ∧
       cache_list_ (after_access st f) = f :: erase_node f (cache_list_ st).
Proof.
  intros Hwf. unfold after_access. cbv zeta.
  destruct (frame_entities_ st !! f) as [e|] eqn:Hf; cbn [from_option].
  - destruct (hit_count_ e + 1 <? k_ st) eqn:Hlt; simpl; [|done].
    split_and!; try done. apply Z.ltb_lt in Hlt.
    destruct (tracked_hist st f e Hwf Hf) as (_ & _ & ?); [lia|done].
  - destruct (untracked_not_listed st f Hwf Hf) as [Hh Hc].
    destruct (0 + 1 <? k_ st) eqn:Hlt; cbn [hist_list_ cache_list_].
    + by split_and!.
    + by rewrite erase_node_head, (erase_node_notin f (hist_list_ st)).
Qed.

Lemma run_snoc st os o :
  run st (os ++ [o]) = st' ← run st os; step st' o.
Proof.
  revert st. induction os as [|a os IH]; intros st; simpl.
  - by destruct (step st o).
  - destruct (step st a) as [st1|]; simpl; [apply IH|done].
Qed.

Lemma last_access_snoc os o f : ∀ now,
  last_access (os ++ [o]) f now
  = match o with
    | OpRecordAccess g =>
        if decide (g = f) then Some (now + length os)%nat
        else last_access os f now
    | _ => last_access os f now
    end.
Proof.
  induction os as [|a os IH]; intros now; simpl.
  - destruct o as [g| | |]; try done.
    case_decide; [f_equal; lia|done].
  - rewrite IH. destruct o as [g| | |]; try done.
    case_decide; [f_equal; lia|done].
Qed.

Lemma last_access_snoc_same os f :
  last_access (os ++ [OpRecordAccess f]) f 0 = Some (length os).
Proof. rewrite last_access_snoc. by rewrite decide_True. Qed.

Lemma last_access_snoc_other os o f :
  o ≠ OpRecordAccess f →
  last_access (os ++ [o]) f 0 = last_access os f 0.
Proof.
  intros Hne. rewrite last_access_snoc. destruct o as [g| | |]; try done.
  rewrite decide_False; [done|]. intros ->. done.
Qed.

Lemma last_access_bound os f : ∀ now t,
  last_access os f now = Some t → (now ≤ t < now + length os)%nat.
Proof.
  induction os as [|a os IH]; intros now t; simpl; [done|].
  destruct (last_access os f (S now)) as [t'|] eqn:Ht.
  - intros [= <-]. apply IH in Ht. lia.
  - destruct a as [g| | |]; try done. case_decide; [|done].
    intros [= <-]. lia.
Qed.

Lemma recent_first_sublist os l l' :
  l' `sublist_of` l → recent_first os l → recent_first os l'.
Proof.
  intros Hsub [Hacc Hord]. split.
  - intros f Hf. apply Hacc. by eapply elem_of_sublist.
  - intros l1 f l2 g -> Hg.
    apply sublist_app_l in Hsub as (k1 & k2 & -> & _ & Hsub).
    apply sublist_cons_l in Hsub as (k3 & k4 & -> & Hsub).
    apply (Hord (k1 ++ k3) f k4 g); [by rewrite <-app_assoc|].
    by eapply elem_of_sublist.
Qed.

(** Appending a call that is not an access of a frame of [l]. *)
Lemma recent_first_other os o l :
  (∀ f, f ∈ l → o ≠ OpRecordAccess f) →
  recent_first os l → recent_first (os ++ [o]) l.
Proof.
  intros Hne [Hacc Hord].
  assert (Hsame : ∀ f, f ∈ l →
            last_access (os ++ [o]) f 0 = last_access os f 0).
  { intros f Hf. apply last_access_snoc_other. auto. }
  split.
  - intros f Hf. rewrite Hsame by done. by apply Hacc.
  - intros l1 f l2 g -> Hg.
    destruct (Hord l1 f l2 g eq_refl Hg) as (tf & tg & Hf & Hgt & Hlt).
    exists tf, tg. rewrite !Hsame; [done|set_solver..].
Qed.

(** Appending an access of [f] and moving [f] to the front. *)
Lemma recent_first_front os f l :
  NoDup l → recent_first os l →
  recent_first (os ++ [OpRecordAccess f]) (f :: erase_node f l).
Proof.
  intros Hnd Hrf.
  assert (Hrest : recent_first (os ++ [OpRecordAccess f]) (erase_node f l)).
  { apply recent_first_other.
    - intros g Hg [= ->]. apply elem_of_erase_node in Hg; [|done]. tauto.
    - eapply recent_first_sublist; [apply erase_node_sublist|done]. }
  pose proof (last_access_snoc_same os f) as Hnow.
  destruct Hrest as [Hacc Hord]. split.
  - intros g Hg. apply elem_of_cons in Hg as [->|Hg]; [by rewrite Hnow|].
    by apply Hacc.
  - intros l1 g l2 h Heq Hh. destruct l1 as [|x l1]; simpl in Heq.
    + injection Heq as <- <-.
      destruct (Hacc h Hh) as [th Hth].
      exists (length os), th. split_and!; [done..|].
      assert (Hold : last_access os h 0 = Some th).
      { rewrite last_access_snoc_other in Hth; [done|].
        intros [= ->]. apply elem_of_erase_node in Hh; [|done]. tauto. }
      apply last_access_bound in Hold. lia.
    + injection Heq as <- Heq. by apply (Hord l1 g l2 h).
Qed.

Lemma recent_first_step os st o st' :
  reachable st → step st o = Some st' →
  recent_first os (cache_list_ st) →
  recent_first (os ++ [o]) (cache_list_ st').
Proof.
  intros Hreach Hst Hrf. pose proof (reachable_wf st Hreach) as Hwf.
  pose proof (step_shape st o st' Hwf Hst) as Hshape.
  destruct o as [f|f b| |f].
  - destruct (rejected st f) eqn:Hrej.
    + subst st'. apply recent_first_other; [|done].
      intros g Hg [= ->].
      destruct (wf_cache st Hwf g Hg) as (e & He & _).
      rewrite (tracked_accepted st g) in Hrej by eauto. done.
    + subst st'. pose proof (after_access_lists st f Hwf) as Hl.
      destruct (_ <? _).
      * destruct Hl as (_ & -> & Hout).
        apply recent_first_other; [|done]. by intros g Hg [= ->].
      * destruct Hl as (_ & ->).
        apply recent_first_front; [apply (wf_cache_nodup st Hwf)|done].
  - apply recent_first_other; [done|].
    destruct Hshape as [->|(e & _ & ->)]; done.
  - apply recent_first_other; [done|].
    destruct Hshape as [->|(f & e & _ & _ & ->)]; [done|]. simpl.
    eapply recent_first_sublist; [apply erase_node_sublist|done].
  - apply recent_first_other; [done|].
    destruct Hshape as [->|(e & _ & _ & ->)]; [done|]. simpl.
    eapply recent_first_sublist; [apply erase_node_sublist|done].
Qed.

Lemma recent_first_run num_frames k os : ∀ st,
  is_size_t num_frames → is_size_t k → Forall op_ok os →
  run (new num_frames k) os = Some st →
  reachable st ∧ recent_first os (cache_list_ st).
Proof.
  induction os as [|o os IH] using rev_ind; intros st Hn Hk Hok Hrun.
  - injection Hrun as <-. split; [by apply reach_new|]. split.
    + intros f Hf. by apply elem_of_nil in Hf.
    + intros l1 f l2 g Heq. by destruct l1.
  - rewrite run_snoc in Hrun.
    destruct (run (new num_frames k) os) as [st0|] eqn:Hrun0; [|done].
    simpl in Hrun. apply Forall_app in Hok as [Hok Ho].
    destruct (IH st0 Hn Hk Hok eq_refl) as [Hreach Hrf]. split.
    + eapply reach_step; [done| |done]. by inversion Ho.
    + by eapply recent_first_step.
Qed.

(** X11: the cache list is in order of last access. After any run of
    calls on a fresh replacer, every frame in [cache_list_] was last
    accessed (by [RecordAccess]) after every frame behind it. So when
    [Evict] takes its victim from the cache list, it returns the evictable
    cached frame whose last access is the oldest. *)
Theorem cache_list_is_lru num_frames k os st :
  is_size_t num_frames → is_size_t k → Forall op_ok os →
  run (new num_frames k) os = Some st →
  (∀ l1 f l2 g, cache_list_ st = l1 ++ f :: l2 → g ∈ l2 →
     accessed_after os f g) ∧
  (∀ r f g eg, Evict st = Some r → ev_store r = Some f →
     f ∈ cache_list_ st → g ∈ cache_list_ st → g ≠ f →
     frame_entities_ st !! g = Some eg → evictable_ eg = true →
     accessed_after os g f).
Proof.
  intros Hn Hk Hok Hrun.
  destruct (recent_first_run num_frames k os st Hn Hk Hok Hrun)
    as [Hreach [_ Hord]].
  pose proof (reachable_wf st Hreach) as Hwf.
  split; [exact Hord|].
  intros r f g eg Hr Hf Hfc Hgc Hne Hg Hev.
  destruct (Evict_cases st r Hwf Hr) as [[_ ->]|(f' & e & -> & Hv & He & _)];
    [done|].
  simpl in Hf. injection Hf as ->.
  assert (Htm : tail_most_evictable (frame_entities_ st) (cache_list_ st) f).
  { destruct Hv as [Hv|[_ Hv]]; [|done].
    apply tail_most_elem in Hv.
    destruct (wf_hist st Hwf f Hv) as (e1 & He1 & Ht1).
    destruct (wf_cache st Hwf f Hfc) as (e2 & He2 & Ht2). congruence. }
  destruct Htm as (l1 & l2 & e' & Heq & _ & _ & Hrest).
  rewrite Heq in Hgc. apply elem_of_app in Hgc as [Hg1|Hg2].
  - apply list_elem_of_split in Hg1 as (l3 & l4 & ->).
    apply (Hord l3 g (l4 ++ f :: l2) f).
    + rewrite Heq. by rewrite <-app_assoc.
    + set_solver.
  - apply elem_of_cons in Hg2 as [->|Hg2]; [done|].
    destruct (Hrest g Hg2) as (e'' & He'' & Hev''). congruence.
Qed.

Lemma cache_list_is_lru_witness : accessed_after lru_trace 2 1.
Proof.
  destruct (cache_list_is_lru 7 2 lru_trace lru_state) as [Hord _].
  - unfold is_size_t. lia.
  - unfold is_size_t. lia.
  - repeat constructor; unfold is_frame_id; lia.
  - reflexivity.
  - apply (Hord [] 2 [1] 1); [reflexivity|]. apply list_elem_of_singleton.
    reflexivity.
Defined.

Lemma erase_node_split x l :
  erase_node x l = l ∨
  ∃ l1 l2, l = l1 ++ x :: l2 ∧ erase_node x l = l1 ++ l2.
Proof.
  destruct (decide (x ∈ l)) as [Hin|Hout].
  - right. apply list_elem_of_split_l in Hin as (l1 & l2 & -> & Hx).
    exists l1, l2. split; [done|]. by apply erase_node_middle.
  - left. by apply erase_node_notin.
Qed.

(** X12: no call reorders the frames of either list. After a call the
    history list is the old one, or the old one with exactly one node
    unlinked, or the old one with a frame that was not tracked put in
    front; the cache list is the old one, or the old one with exactly one
    node unlinked, or the accessed frame put in front of the old list,
    from which its node, if it had one, is unlinked. *)
Theorem lists_keep_their_order st o st' :
  reachable st → step st o = Some st' →
  (hist_list_ st' = hist_list_ st ∨
   (∃ f l1 l2, hist_list_ st = l1 ++ f :: l2 ∧ hist_list_ st' = l1 ++ l2) ∨
   (∃ f, o = OpRecordAccess f ∧ frame_entities_ st !! f = None ∧
         hist_list_ st' = f :: hist_list_ st)) ∧
  (cache_list_ st' = cache_list_ st ∨
   (∃ f l1 l2, cache_list_ st = l1 ++ f :: l2 ∧
               cache_list_ st' = l1 ++ l2) ∨
   (∃ f, o = OpRecordAccess f ∧
         (cache_list_ st' = f :: cache_list_ st ∨
          ∃ l1 l2, cache_list_ st = l1 ++ f :: l2 ∧
                   cache_list_ st' = f :: l1 ++ l2))).
Proof.
  intros Hreach Hst. pose proof (reachable_wf st Hreach) as Hwf.
  pose proof (step_shape st o st' Hwf Hst) as Hshape.
  assert (Hdrop : ∀ f,
    (hist_list_ (after_drop st f) = hist_list_ st ∨
     ∃ g l1 l2, hist_list_ st = l1 ++ g :: l2 ∧
                hist_list_ (after_drop st f) = l1 ++ l2) ∧
    (cache_list_ (after_drop st f) = cache_list_ st ∨
     ∃ g l1 l2, cache_list_ st = l1 ++ g :: l2 ∧
                cache_list_ (after_drop st f) = l1 ++ l2)).
  { intros f. simpl. split.
    - destruct (erase_node_split f (hist_list_ st))
        as [->|(l1 & l2 & Heq & ->)]; [by left|right; eauto].
    - destruct (erase_node_split f (cache_list_ st))
        as [->|(l1 & l2 & Heq & ->)]; [by left|right; eauto]. }
  assert (Hdrop' : ∀ f, st' = after_drop st f →
    (hist_list_ st' = hist_list_ st ∨
     (∃ g l1 l2, hist_list_ st = l1 ++ g :: l2 ∧
                 hist_list_ st' = l1 ++ l2) ∨
     (∃ g, o = OpRecordAccess g ∧ frame_entities_ st !! g = None ∧
           hist_list_ st' = g :: hist_list_ st)) ∧
    (cache_list_ st' = cache_list_ st ∨
     (∃ g l1 l2, cache_list_ st = l1 ++ g :: l2 ∧
                 cache_list_ st' = l1 ++ l2) ∨
     (∃ g, o = OpRecordAccess g ∧
           (cache_list_ st' = g :: cache_list_ st ∨
            ∃ l1 l2, cache_list_ st = l1 ++ g :: l2 ∧
                     cache_list_ st' = g :: l1 ++ l2)))).
  { intros f ->. destruct (Hdrop f) as [[Hh|Hh] [Hc|Hc]];
      split; auto. }
  destruct o as [f|f b| |f].
  - destruct (rejected st f); [subst st'; by split; left|]. subst st'.
    pose proof (after_access_lists st f Hwf) as Hl.
    destruct (_ <? _).
    + destruct Hl as (-> & -> & _). split; [|by left].
      destruct (frame_entities_ st !! f) eqn:Hf; [by left|].
      right. right. by exists f.
    + destruct Hl as (-> & ->). split.
      * destruct (erase_node_split f (hist_list_ st))
          as [->|(l1 & l2 & Heq & ->)]; [by left|right; left; eauto].
      * right. right. exists f. split; [done|].
        destruct (erase_node_split f (cache_list_ st))
          as [->|(l1 & l2 & Heq & ->)]; [by left|right; eauto].
  - destruct Hshape as [->|(e & _ & ->)]; by split; left.
  - destruct Hshape as [->|(f & e & _ & _ & Heq)]; [by split; left|].
    by apply (Hdrop' f).
  - destruct Hshape as [->|(e & _ & _ & Heq)]; [by split; left|].
    by apply (Hdrop' f).
Qed.

Lemma lists_keep_their_order_witness :
  hist_list_ (after_drop scenario_state 2) = hist_list_ scenario_state ∨
  (∃ f l1 l2, hist_list_ scenario_state = l1 ++ f :: l2 ∧
              hist_list_ (after_drop scenario_state 2) = l1 ++ l2) ∨
  (∃ f, OpEvict = OpRecordAccess f ∧
        frame_entities_ scenario_state !! f = None ∧
        hist_list_ (after_drop scenario_state 2)
        = f :: hist_list_ scenario_state).
Proof.
  apply (lists_keep_their_order scenario_state OpEvict
           (after_drop scenario_state 2) scenario_reachable).
  reflexivity.
Defined.

End ReplacerOrder.

Section ReplacerHistory.
Import Replacer.

Lemma access_times_snoc os o f : ∀ now,
  access_times (os ++ [o]) f now
  = access_times os f now ++
    match o with
    | OpRecordAccess g =>
        if decide (g = f) then [(now + length os)%nat] else []
    | _ => []
    end.
Proof.
  induction os as [|a os IH]; intros now; simpl.
  - destruct o as [g| | |]; try done.
    case_decide; [|done]. do 2 f_equal. lia.
  - rewrite IH.
    assert (Hn : (S now + length os = now + S (length os))%nat) by lia.
    rewrite Hn.
    destruct a as [h| | |]; try done. by case_decide.
Qed.

Lemma access_times_bound os f : ∀ now t,
  t ∈ access_times os f now → (now ≤ t < now + length os)%nat.
Proof.
  induction os as [|a os IH]; intros now t; simpl.
  - intros Ht. by apply elem_of_nil in Ht.
  - assert (Hrec : t ∈ access_times os f (S now) →
                   (now ≤ t < now + S (length os))%nat).
    { intros Ht. apply IH in Ht. lia. }
    destruct a as [g| | |]; try done.
    case_decide; [|done]. intros Ht.
    apply elem_of_cons in Ht as [->|Ht]; [lia|by apply Hrec].
Qed.

Lemma counted_from_bound os f c t :
  counted_from os f c = Some t → (t < length os)%nat.
Proof.
  unfold counted_from. intros Ht.
  apply list_elem_of_lookup_2, elem_of_reverse, access_times_bound in Ht. lia.
Qed.

(** One more access of [f]: the count goes up and its start stays. *)
Lemma counted_from_snoc_same os f c :
  1 <= c →
  counted_from (os ++ [OpRecordAccess f]) f (c + 1) = counted_from os f c.
Proof.
  intros Hc. unfold counted_from. rewrite access_times_snoc.
  rewrite decide_True by done. rewrite reverse_snoc.
  replace (Z.to_nat (c + 1 - 1)) with (S (Z.to_nat (c - 1))) by lia.
  done.
Qed.

(** The first access of a record that starts now. *)
Lemma counted_from_snoc_new os f :
  counted_from (os ++ [OpRecordAccess f]) f 1 = Some (length os).
Proof.
  unfold counted_from. rewrite access_times_snoc.
  rewrite decide_True by done. by rewrite reverse_snoc.
Qed.

Lemma counted_from_snoc_other os o f c :
  o ≠ OpRecordAccess f →
  counted_from (os ++ [o]) f c = counted_from os f c.
Proof.
  intros Hne. unfold counted_from. rewrite access_times_snoc.
  destruct o as [g| | |]; try by rewrite app_nil_r.
  rewrite decide_False; [by rewrite app_nil_r|]. intros ->. done.
Qed.

(** A record with one access started at the last access of the frame. *)
Lemma counted_from_one os f : counted_from os f 1 = last_access os f 0.
Proof.
  induction os as [|o os IH] using rev_ind; [done|].
  assert (Hother : o ≠ OpRecordAccess f →
            counted_from (os ++ [o]) f 1 = last_access (os ++ [o]) f 0).
  { intros Hne. by rewrite counted_from_snoc_other, last_access_snoc_other. }
  destruct o as [g| | |]; try by apply Hother.
  destruct (decide (g = f)) as [->|Hne]; [|apply Hother; congruence].
  by rewrite counted_from_snoc_new, last_access_snoc_same.
Qed.

Lemma newest_first_sublist τ bound l l' :
  l' `sublist_of` l → newest_first τ bound l → newest_first τ bound l'.
Proof.
  intros Hsub [Hacc Hord]. split.
  - intros f Hf. apply Hacc. by eapply elem_of_sublist.
  - intros l1 f l2 g -> Hg.
    apply sublist_app_l in Hsub as (k1 & k2 & -> & _ & Hsub).
    apply sublist_cons_l in Hsub as (k3 & k4 & -> & Hsub).
    apply (Hord (k1 ++ k3) f k4 g); [by rewrite <-app_assoc|].
    by eapply elem_of_sublist.
Qed.

Lemma newest_first_ext τ τ' bound bound' l :
  (∀ f, f ∈ l → τ' f = τ f) → (bound ≤ bound')%nat →
  newest_first τ bound l → newest_first τ' bound' l.
Proof.
  intros Hsame Hb [Hacc Hord]. split.
  - intros f Hf. destruct (Hacc f Hf) as (t & Ht & Hlt).
    exists t. rewrite Hsame by done. split; [done|lia].
  - intros l1 f l2 g -> Hg.
    destruct (Hord l1 f l2 g eq_refl Hg) as (tf & tg & Hf & Hgt & Hlt).
    exists tf, tg. rewrite !Hsame; [done|set_solver..].
Qed.

Lemma newest_first_cons τ bound l f :
  τ f = Some bound → newest_first τ bound l →
  newest_first τ (S bound) (f :: l).
Proof.
  intros Hf [Hacc Hord]. split.
  - intros g Hg. apply elem_of_cons in Hg as [->|Hg]; [eauto|].
    destruct (Hacc g Hg) as (t & Ht & Hlt). eauto with lia.
  - intros l1 g l2 h Heq Hh. destruct l1 as [|x l1]; simpl in Heq.
    + injection Heq as <- <-. destruct (Hacc h Hh) as (t & Ht & Hlt). eauto.
    + injection Heq as <- Heq. by apply (Hord l1 g l2 h).
Qed.

(** The start of the record of a frame that the call leaves alone. *)
Lemma record_start_other os st o st' g :
  o ≠ OpRecordAccess g →
  frame_entities_ st' !! g = frame_entities_ st !! g →
  record_start (os ++ [o]) st' g = record_start os st g.
Proof.
  intros Hne Hsame. unfold record_start. rewrite Hsame.
  destruct (frame_entities_ st !! g) as [e|]; [|done]. simpl.
  by apply counted_from_snoc_other.
Qed.

Lemma history_step os st o st' :
  reachable st → step st o = Some st' →
  newest_first (record_start os st) (length os) (hist_list_ st) →
  newest_first (record_start (os ++ [o]) st') (S (length os))
    (hist_list_ st').
Proof.
  intros Hreach Hst Hnf. pose proof (reachable_wf st Hreach) as Hwf.
  pose proof (step_shape st o st' Hwf Hst) as Hshape.
  assert (Hkeep : ∀ l, l `sublist_of` hist_list_ st →
            (∀ g, g ∈ l → record_start (os ++ [o]) st' g
                          = record_start os st g) →
            newest_first (record_start (os ++ [o]) st') (S (length os)) l).
  { intros l Hsub Hsame.
    apply (newest_first_ext (record_start os st) _ (length os));
      [done|lia|]. by eapply newest_first_sublist. }
  destruct o as [f|f b| |f].
  - destruct (rejected st f) eqn:Hrej.
    + subst st'. apply Hkeep; [done|]. intros g Hg.
      apply record_start_other; [|done]. intros [= ->].
      destruct (wf_hist st Hwf g Hg) as (e & He & _).
      rewrite (tracked_accepted st g) in Hrej by eauto. done.
    + subst st'. pose proof (after_access_lists st f Hwf) as Hl.
      assert (Hothers : ∀ g, g ≠ f →
                record_start (os ++ [OpRecordAccess f]) (after_access st f) g
                = record_start os st g).
      { intros g Hg. apply record_start_other; [congruence|].
        unfold after_access. cbv zeta.
        destruct (_ <? _); simpl; by rewrite lookup_insert_ne. }
      assert (Hcount : hit_count_ <$> frame_entities_ (after_access st f) !! f
                = Some (from_option hit_count_ 0 (frame_entities_ st !! f) + 1)).
      { unfold after_access. cbv zeta.
        destruct (_ <? _); simpl; by rewrite lookup_insert_eq. }
      destruct (frame_entities_ st !! f) as [e|] eqn:Hf.
      * (* a tracked frame: every record keeps its start *)
        destruct (wf_entity st Hwf f e Hf) as (_ & _ & Hhits & _).
        assert (Hsame : ∀ g, record_start (os ++ [OpRecordAccess f])
                               (after_access st f) g
                             = record_start os st g).
        { intros g. destruct (decide (g = f)) as [->|Hne]; [|by apply Hothers].
          unfold record_start. rewrite Hf.
          destruct (frame_entities_ (after_access st f) !! f) as [e'|];
            [|done].
          simpl in *. injection Hcount as ->.
          by apply counted_from_snoc_same. }
        apply Hkeep; [|done]. cbn [from_option] in Hl.
        destruct (_ <? _).
        -- destruct Hl as (-> & _). done.
        -- destruct Hl as (-> & _). apply erase_node_sublist.
      * (* a new frame: its record starts now *)
        destruct (untracked_not_listed st f Hwf Hf) as [Hh _].
        cbn [from_option] in Hl, Hcount.
        destruct (_ <? _).
        -- destruct Hl as (-> & _).
           apply newest_first_cons.
           ++ unfold record_start.
              destruct (frame_entities_ (after_access st f) !! f) as [e'|];
                [|done].
              simpl in *. injection Hcount as ->.
              apply counted_from_snoc_new.
           ++ apply (newest_first_ext (record_start os st) _ (length os));
                [|lia|done].
              intros g Hg. apply Hothers. intros ->. done.
        -- destruct Hl as (-> & _). rewrite erase_node_notin by done.
           apply Hkeep; [done|]. intros g Hg. apply Hothers.
           intros ->. done.
  - destruct Hshape as [->|(e & He & ->)].
    + apply Hkeep; [done|]. intros g _. by apply record_start_other.
    + apply Hkeep; [done|]. intros g _.
      unfold record_start. simpl.
      destruct (decide (g = f)) as [->|Hne].
      * rewrite lookup_insert_eq, He. simpl.
        by apply counted_from_snoc_other.
      * rewrite lookup_insert_ne by done.
        destruct (frame_entities_ st !! g); [|done]. simpl.
        by apply counted_from_snoc_other.
  - destruct Hshape as [->|(f & e & _ & _ & ->)].
    + apply Hkeep; [done|]. intros g _. by apply record_start_other.
    + apply Hkeep; [apply erase_node_sublist|]. intros g Hg.
      apply record_start_other; [done|]. simpl.
      apply elem_of_erase_node in Hg as [_ Hne];
        [|apply (wf_hist_nodup st Hwf)].
      by rewrite lookup_delete_ne.
  - destruct Hshape as [->|(e & _ & _ & ->)].
    + apply Hkeep; [done|]. intros g _. by apply record_start_other.
    + apply Hkeep; [apply erase_node_sublist|]. intros g Hg.
      apply record_start_other; [done|]. simpl.
      apply elem_of_erase_node in Hg as [_ Hne];
        [|apply (wf_hist_nodup st Hwf)].
      by rewrite lookup_delete_ne.
Qed.

Lemma history_run num_frames k os : ∀ st,
  is_size_t num_frames → is_size_t k → Forall op_ok os →
  run (new num_frames k) os = Some st →
  newest_first (record_start os st) (length os) (hist_list_ st).
Proof.
  induction os as [|o os IH] using rev_ind; intros st Hn Hk Hok Hrun.
  - injection Hrun as <-. split.
    + intros f Hf. by apply elem_of_nil in Hf.
    + intros l1 f l2 g Heq. by destruct l1.
  - rewrite run_snoc in Hrun.
    destruct (run (new num_frames k) os) as [st0|] eqn:Hrun0; [|done].
    simpl in Hrun. apply Forall_app in Hok as [Hok Ho].
    rewrite length_app. simpl.
    replace (length os + 1)%nat with (S (length os)) by lia.
    eapply history_step; [|done|by apply IH].
    by destruct (recent_first_run num_frames k os st0 Hn Hk Hok Hrun0).
Qed.

(** Every reachable state is the outcome of a run on a fresh replacer. *)
Lemma reachable_run st :
  reachable st →
  ∃ num_frames k os,
    is_size_t num_frames ∧ is_size_t k ∧ Forall op_ok os ∧
    run (new num_frames k) os = Some st.
Proof.
  induction 1 as [n k Hn Hk
                 |st o st' _ (n & k & os & Hn & Hk & Hok & Hrun) Ho Hst].
  - exists n, k, []. by split_and!.
  - exists n, k, (os ++ [o]). split_and!; try done.
    + apply Forall_app. split; [done|]. by constructor.
    + rewrite run_snoc, Hrun. done.
Qed.

End ReplacerHistory.

Section ReplacerEvictionOrder.
Import Replacer.

(** An evictable frame other than the tail-most evictable one of a list
    stands ahead of it. *)
Lemma tail_most_ahead ents l f g eg :
  tail_most_evictable ents l f → g ∈ l → g ≠ f →
  ents !! g = Some eg → evictable_ eg = true →
  ∃ l1 l2, l = l1 ++ g :: l2 ∧ f ∈ l2.
Proof.
  intros (k1 & k2 & e & -> & _ & _ & Hrest) Hg Hne Heg Hev.
  apply elem_of_app in Hg as [Hg|Hg].
  - apply list_elem_of_split in Hg as (l3 & l4 & ->).
    exists l3, (l4 ++ f :: k2). split; [by rewrite <-app_assoc|].
    apply elem_of_app. right. by left.
  - apply elem_of_cons in Hg as [->|Hg]; [done|].
    destruct (Hrest g Hg) as (e' & He' & Hev'). congruence.
Qed.

(** C1 (amended): after any run of calls on a fresh replacer [Evict]
    reports not-found when [curr_size_] is 0; otherwise it succeeds,
    removes the returned frame from its list and from the table and
    decrements [curr_size_], and the frame is the evictable one nearest
    the tail of the history list, or, only when the history list holds no
    evictable frame, the evictable one nearest the tail of the cache list.
    The history list is in the order in which its records were started
    (the first access of each frame since it was last dropped), the cache
    list in the order of the last access. So a victim from the cache list
    is the least recently accessed evictable frame of that list, for
    every [k_]; a victim from the history list is the evictable frame of
    that list whose record is the oldest, which for [k_ <= 2] is the
    least recently accessed one. A frame with [k_] or more hits is
    returned only when no evictable frame has fewer, and the returned
    frame is always evictable. *)
Theorem Evict_tail_most_evictable num_frames k os st :
  is_size_t num_frames → is_size_t k → Forall op_ok os →
  run (new num_frames k) os = Some st →
  (curr_size_ st = 0 → Evict st = Some (mkEvict false None st)) ∧
  (curr_size_ st ≠ 0 →
     ∃ f, Evict st = Some (mkEvict true (Some f) (after_drop st f)) ∧
          victim st f) ∧
  (∀ l1 f l2 g, hist_list_ st = l1 ++ f :: l2 → g ∈ l2 →
     started_after os st f g) ∧
  (∀ l1 f l2 g, cache_list_ st = l1 ++ f :: l2 → g ∈ l2 →
     accessed_after os f g) ∧
  (∀ r f, Evict st = Some r → ev_store r = Some f →
     ∃ e, frame_entities_ st !! f = Some e ∧ evictable_ e = true ∧
       (k_ st <= hit_count_ e →
        ∀ g eg, frame_entities_ st !! g = Some eg → evictable_ eg = true →
                k_ st <= hit_count_ eg) ∧
       ∀ g eg, g ≠ f → frame_entities_ st !! g = Some eg →
         evictable_ eg = true →
         (hit_count_ e < k_ st → hit_count_ eg < k_ st →
          started_after os st g f ∧ (k_ st <= 2 → accessed_after os g f)) ∧
         (k_ st <= hit_count_ e → accessed_after os g f)).
Proof.
  intros Hn Hk Hok Hrun.
  destruct (recent_first_run num_frames k os st Hn Hk Hok Hrun)
    as [Hreach [_ Hcache]].
  destruct (history_run num_frames k os st Hn Hk Hok Hrun) as [_ Hhist].
  pose proof (reachable_wf st Hreach) as Hwf.
  assert (Hpos : curr_size_ st ≠ 0 → 0 < curr_size_ st).
  { rewrite (wf_size st Hwf). lia. }
  split_and!.
  - intros Hz. apply Evict_empty. lia.
  - intros Hnz. by apply Evict_victim; [|apply Hpos].
  - exact Hhist.
  - exact Hcache.
  - intros r f Hr Hst.
    destruct (Evict_cases st r Hwf Hr) as [[_ ->]|(f' & e & -> & Hv & He & Hev)];
      [done|].
    simpl in Hst. injection Hst as ->.
    exists e. split_and!; [done..| |].
    + intros Hge g eg Hg Hgev.
      destruct (tracked_cache st f e Hwf He Hge) as (_ & _ & Hout).
      destruct Hv as [Htm|[Hnone _]];
        [by apply tail_most_elem in Htm|].
      destruct (Z.lt_ge_cases (hit_count_ eg) (k_ st)) as [Hlt|]; [|done].
      destruct (tracked_hist st g eg Hwf Hg Hlt) as (_ & Hgin & _).
      destruct (Hnone g Hgin) as (e' & He' & Hev'). congruence.
    + intros g eg Hne Hg Hgev. split.
      * intros Hlt Hglt.
        destruct (tracked_hist st f e Hwf He Hlt) as (_ & Hfin & Hfout).
        destruct (tracked_hist st g eg Hwf Hg Hglt) as (_ & Hgin & _).
        assert (Htm : tail_most_evictable (frame_entities_ st)
                        (hist_list_ st) f).
        { destruct Hv as [Hv|[Hnone _]]; [done|].
          destruct (Hnone f Hfin) as (e' & He' & Hev'). congruence. }
        destruct (tail_most_ahead _ _ f g eg Htm Hgin Hne Hg Hgev)
          as (l1 & l2 & Heq & Hf2).
        pose proof (Hhist l1 g l2 f Heq Hf2) as Hstart.
        split; [done|]. intros Hk2.
        destruct (wf_entity st Hwf f e He) as (_ & _ & Hhits & _).
        destruct (wf_entity st Hwf g eg Hg) as (_ & _ & Hghits & _).
        destruct Hstart as (tg & tf & Htg & Htf & Hlt').
        unfold record_start in Htg, Htf. rewrite Hg in Htg.
        rewrite He in Htf. simpl in Htg, Htf.
        replace (hit_count_ eg) with 1 in Htg by lia.
        replace (hit_count_ e) with 1 in Htf by lia.
        rewrite counted_from_one in Htg, Htf.
        by exists tg, tf.
      * intros Hge.
        destruct (tracked_cache st f e Hwf He Hge) as (_ & Hfin & Hfout).
        assert (Hnone : none_evictable (frame_entities_ st) (hist_list_ st) ∧
                        tail_most_evictable (frame_entities_ st)
                          (cache_list_ st) f).
        { destruct Hv as [Hv|Hv]; [|done].
          by apply tail_most_elem in Hv. }
        destruct Hnone as [Hnone Htm].
        assert (Hgin : g ∈ cache_list_ st).
        { destruct (Z.lt_ge_cases (hit_count_ eg) (k_ st)) as [Hlt|Hge'].
          - destruct (tracked_hist st g eg Hwf Hg Hlt) as (_ & Hgh & _).
            destruct (Hnone g Hgh) as (e' & He' & Hev'). congruence.
          - by destruct (tracked_cache st g eg Hwf Hg Hge') as (_ & ? & _). }
        destruct (tail_most_ahead _ _ f g eg Htm Hgin Hne Hg Hgev)
          as (l1 & l2 & Heq & Hf2).
        exact (Hcache l1 g l2 f Heq Hf2).
Qed.

Lemma Evict_tail_most_evictable_witness :
  ∃ f, Evict scenario_state
       = Some (mkEvict true (Some f) (after_drop scenario_state f)) ∧
       victim scenario_state f.
Proof.
  destruct (Evict_tail_most_evictable 7 2 scenario_trace scenario_state)
    as (_ & Hsome & _).
  - unfold is_size_t. lia.
  - unfold is_size_t. lia.
  - repeat constructor; unfold is_frame_id; lia.
  - reflexivity.
  - apply Hsome. by vm_compute.
Defined.

End ReplacerEvictionOrder.

(* ================================================================== *)
(** * Further properties of the extendible hash table *)
(* ================================================================== *)

Section TableSteps.
Import HashTable.
Context {K V : Type} `{EqDecision K} (hash : K → Z).
Abbreviation table := (@ExtendibleHashTable K V).
Abbreviation bucket := (@Bucket K V).
Implicit Types (ht : table) (b : bucket) (key : K) (value : V).

(** A property kept by the two kinds of pass of [InsertInternal], the
    one that stores the entry and the one that splits, is kept by
    [InsertInternal]. *)
Lemma InsertInternal_preserves (P : table → Prop) :
  (∀ ht key value r b b', table_inv hash ht → P ht →
     target hash ht key = Some (r, b) →
     Bucket_Insert b key value = (true, b') → P (set_bucket ht r b')) →
  (∀ ht key r b, table_inv hash ht → P ht →
     target hash ht key = Some (r, b) →
     Bucket_Find (list_ b) key = None → IsFull b = true → depth_ b < 30 →
     P (split_at hash (pre_split ht b)
          (low_bits (global_depth_ ht) (hash key)) b)) →
  ∀ fuel ht key value ht',
    table_inv hash ht → P ht →
    InsertInternal hash fuel ht key value = Some ht' → P ht'.
Proof.
  intros Hfit Hsplit.
  induction fuel as [|fuel IH]; intros ht key value ht' Hinv HP Hins; [done|].
  simpl in Hins.
  destruct (target_inv hash ht key Hinv) as (r & b & _ & Ht & _).
  destruct (Bucket_Insert b key value) as [[|] b0] eqn:Hb.
  - rewrite (insert_pass_fits hash ht key value r b b0) in Hins by done.
    simpl in Hins. injection Hins as <-. by eapply Hfit.
  - destruct (Bucket_Insert_false b key value b0 Hb) as [Hnone Hfull].
    destruct (decide (depth_ b < 30)) as [Hlt|Hge].
    + destruct (split_step hash ht key value r b b0)
        as (ht2 & Hpass & Hinv2 & _); try done.
      rewrite Hpass in Hins. simpl in Hins.
      rewrite (insert_pass_full hash ht key value r b b0) in Hpass by done.
      rewrite decide_True in Hpass by done. injection Hpass as Hpass.
      apply (IH ht2 key value ht'); [done| |done].
      rewrite <-Hpass. by apply (Hsplit ht key r b).
    + rewrite (insert_pass_full hash ht key value r b b0) in Hins by done.
      by rewrite decide_False in Hins.
Qed.

(** A property of fresh tables that storing an entry, splitting a bucket
    and erasing an entry keep, holds of every reachable table. *)
Lemma reachable_preserves (P : table → Prop) :
  (∀ bucket_size, is_size_t bucket_size → P (new bucket_size)) →
  (∀ ht r b b', table_inv hash ht → P ht → heap_ ht !! r = Some b →
     size_ b' = size_ b → depth_ b' = depth_ b → P (set_bucket ht r b')) →
  (∀ ht key r b, table_inv hash ht → P ht →
     target hash ht key = Some (r, b) →
     Bucket_Find (list_ b) key = None → IsFull b = true → depth_ b < 30 →
     P (split_at hash (pre_split ht b)
          (low_bits (global_depth_ ht) (hash key)) b)) →
  ∀ ht, reachable hash ht → P ht.
Proof.
  intros Hnew Hset Hsplit.
  induction 1 as [n Hn|ht fuel key value ht' Hreach IH Hins
                  |ht key ok ht' Hreach IH Hrem].
  - by apply Hnew.
  - pose proof (reachable_inv hash ht Hreach) as Hinv.
    apply (InsertInternal_preserves P) with (fuel := fuel) (ht := ht)
      (key := key) (value := value); try done.
    intros ht0 key0 value0 r b b' Hinv0 HP Ht Hb.
    destruct (Bucket_Insert_true b key0 value0 b' Hb) as (? & ? & _).
    destruct (target_inv hash ht0 key0 Hinv0)
      as (r0 & b0 & _ & Ht0 & _ & Hheap & _).
    rewrite Ht in Ht0. injection Ht0 as <- <-.
    by apply (Hset ht0 r b b').
  - pose proof (reachable_inv hash ht Hreach) as Hinv.
    destruct (target_inv hash ht key Hinv)
      as (r & b & _ & Ht & _ & Hheap & _).
    rewrite (Remove_target hash ht key r b Ht) in Hrem.
    injection Hrem as _ <-. by apply (Hset ht r b).
Qed.

Lemma live_pre_split ht b :
  live_buckets (pre_split ht b) = live_buckets ht.
Proof.
  unfold pre_split, live_buckets.
  destruct (_ =? _); [|done]. simpl.
  rewrite list_to_set_app_L. apply union_idemp_L.
Qed.

Section SplitLive.
Variables (ht : table) (idx : Z) (r : nat) (b : bucket).
Hypothesis Hinv : table_inv hash ht.
Hypothesis Hidx : 0 <= idx < 2 ^ global_depth_ ht.
Hypothesis Hr : dir_ ht !! Z.to_nat idx = Some r.
Hypothesis Hb : heap_ ht !! r = Some b.
Hypothesis Hdeep : depth_ b < global_depth_ ht.

(** The buckets in use after a split: the two new ones take the place
    of the one that was split. *)
Lemma live_split :
  live_buckets (split_at hash ht idx b)
  = {[ length (heap_ ht); S (length (heap_ ht)) ]}
    ∪ (live_buckets ht ∖ {[ r ]}).
Proof.
  pose proof (split_depth_nonneg hash ht idx r b Hinv Hr Hb) as Hd0.
  pose proof (inv_depth _ _ Hinv) as Hgd.
  pose proof (inv_len _ _ Hinv) as Hlen.
  pose proof (low_bits_range (depth_ b) idx Hd0) as Hlow.
  assert (Hpow : 2 ^ (depth_ b + 1) <= 2 ^ global_depth_ ht).
  { apply Z.pow_le_mono_r; lia. }
  assert (Hpow1 : 2 ^ (depth_ b + 1) = 2 * 2 ^ depth_ b).
  { rewrite Z.pow_add_r by lia. lia. }
  apply set_eq. intros r'. unfold live_buckets.
  rewrite elem_of_list_to_set, elem_of_union, elem_of_difference.
  rewrite elem_of_union, !elem_of_singleton, elem_of_list_to_set.
  rewrite !list_elem_of_lookup. split.
  - intros [i Hi]. rewrite split_dir_lookup in Hi.
    destruct (dir_ ht !! i) as [r0|] eqn:Hi0; [|done]. simpl in Hi.
    injection Hi as <-.
    destruct (decide (low_bits (depth_ b) (Z.of_nat i)
                      = low_bits (depth_ b) idx)) as [Hl|Hl].
    + left. case_decide; [by left|by right].
    + right. split; [by exists i|].
      intros ->. apply Hl.
      by apply (split_old_slots hash ht idx r b Hinv Hidx Hr Hb i r).
  - intros [[->| ->]|[[i Hi] Hne]].
    + (* the first new bucket: the slot [low] *)
      exists (Z.to_nat (low_bits (depth_ b) idx)).
      rewrite split_dir_lookup.
      destruct (lookup_lt_is_Some_2 (dir_ ht)
                  (Z.to_nat (low_bits (depth_ b) idx))) as [r0 ->]; [lia|].
      simpl. rewrite Z2Nat.id by lia.
      rewrite decide_True by (apply low_bits_nested; lia).
      rewrite decide_True; [done|].
      apply low_bits_small; lia.
    + (* the second new bucket: the slot [low + 2^depth] *)
      exists (Z.to_nat (low_bits (depth_ b) idx + 2 ^ depth_ b)).
      rewrite split_dir_lookup.
      destruct (lookup_lt_is_Some_2 (dir_ ht)
                  (Z.to_nat (low_bits (depth_ b) idx + 2 ^ depth_ b)))
        as [r0 ->]; [lia|].
      simpl. rewrite Z2Nat.id by lia.
      rewrite decide_True.
      2:{ rewrite low_bits_add_pow by lia. apply low_bits_nested. lia. }
      rewrite decide_False; [done|].
      rewrite low_bits_small by lia.
      assert (0 < 2 ^ depth_ b) by (apply Z.pow_pos_nonneg; lia). lia.
    + exists i. rewrite split_dir_lookup, Hi. simpl.
      rewrite decide_False; [done|]. intros Hl. apply Hne.
      by apply (split_old_slots hash ht idx r b Hinv Hidx Hr Hb i r').
Qed.

Lemma live_split_size :
  size (live_buckets (split_at hash ht idx b))
  = S (size (live_buckets ht)).
Proof.
  rewrite live_split.
  assert (Hin : r ∈ live_buckets ht).
  { unfold live_buckets. apply elem_of_list_to_set.
    by eapply list_elem_of_lookup_2. }
  assert (Hfresh : ∀ r', r' ∈ live_buckets ht → (r' < length (heap_ ht))%nat).
  { intros r' Hr'. unfold live_buckets in Hr'.
    apply elem_of_list_to_set, list_elem_of_lookup in Hr' as [i Hi].
    by eapply slot_fresh. }
  rewrite size_union.
  - rewrite size_union, !size_singleton.
    2:{ intros x Hx1 Hx2. apply elem_of_singleton in Hx1, Hx2. lia. }
    rewrite size_difference by (by apply singleton_subseteq_l).
    rewrite size_singleton.
    assert (Hpos : ({[ r ]} : gset nat) ⊆ live_buckets ht)
      by (by apply singleton_subseteq_l).
    apply subseteq_size in Hpos. rewrite size_singleton in Hpos. lia.
  - intros x Hx1 Hx2. apply elem_of_difference in Hx2 as [Hx2 _].
    apply Hfresh in Hx2.
    apply elem_of_union in Hx1 as [Hx1|Hx1];
      apply elem_of_singleton in Hx1; lia.
Qed.

End SplitLive.

(** [num_buckets_] counts the buckets in use. *)
Lemma reachable_live_count ht :
  reachable hash ht → num_buckets_ ht = Z.of_nat (size (live_buckets ht)).
Proof.
  apply (reachable_preserves
           (λ ht, num_buckets_ ht = Z.of_nat (size (live_buckets ht)))).
  - intros n _. reflexivity.
  - intros ht0 r b b' _ HP _ _ _. exact HP.
  - intros ht0 key r b Hinv0 HP Ht Hnone Hfull Hlt.
    destruct (pre_split_facts hash ht0 key r b Hinv0 Ht Hlt)
      as (Hinv1 & Hidx1 & Hdir1 & Hheap1 & Hdeep1 & _).
    rewrite (live_split_size (pre_split ht0 b) _ r b); try done.
    + rewrite live_pre_split. simpl.
      replace (num_buckets_ (pre_split ht0 b)) with (num_buckets_ ht0).
      * lia.
      * unfold pre_split. by destruct (_ =? _).
    + rewrite Hheap1.
      by destruct (target_inv hash ht0 key Hinv0)
        as (r0 & b0 & _ & Ht0 & _ & Hheap & _); simplify_eq.
Qed.

(** The directory has been doubled at most as often as a bucket has been
    split. *)
Lemma reachable_depth_below_count ht :
  reachable hash ht → global_depth_ ht + 1 <= num_buckets_ ht.
Proof.
  apply (reachable_preserves
           (λ ht, global_depth_ ht + 1 <= num_buckets_ ht)).
  - intros n _. simpl. lia.
  - intros ht0 r b b' _ HP _ _ _. exact HP.
  - intros ht0 key r b Hinv0 HP Ht Hnone Hfull Hlt. simpl.
    unfold pre_split. destruct (_ =? _); simpl; lia.
Qed.

End TableSteps.

Section TableMore.
Import HashTable.
Context {K V : Type} `{EqDecision K} (hash : K → Z).
Abbreviation table := (@ExtendibleHashTable K V).
Abbreviation bucket := (@Bucket K V).
Implicit Types (ht : table) (b : bucket) (key : K) (value : V).

Lemma size_list_to_set_le (l : list nat) :
  (size (list_to_set l : gset nat) ≤ length l)%nat.
Proof.
  unfold size, set_size. simpl.
  apply submseteq_length, NoDup_submseteq; [apply NoDup_elements|].
  intros x Hx. by apply elem_of_elements, elem_of_list_to_set in Hx.
Qed.

(** [InsertInternal] only ever adds buckets and directory bits, and at
    least one bucket for every bit. *)
Lemma InsertInternal_monotone fuel ht key value ht' :
  table_inv hash ht → InsertInternal hash fuel ht key value = Some ht' →
  num_buckets_ ht <= num_buckets_ ht' ∧
  global_depth_ ht <= global_depth_ ht' ∧
  global_depth_ ht' - global_depth_ ht <= num_buckets_ ht' - num_buckets_ ht.
Proof.
  intros Hinv Hins.
  refine (InsertInternal_preserves hash
            (λ x, num_buckets_ ht <= num_buckets_ x ∧
                  global_depth_ ht <= global_depth_ x ∧
                  global_depth_ x - global_depth_ ht
                  <= num_buckets_ x - num_buckets_ ht)
            _ _ fuel ht key value ht' Hinv _ Hins).
  - intros ht0 key0 value0 r b b' _ HP _ _. exact HP.
  - intros ht0 key0 r b _ HP _ _ _ _. simpl.
    unfold pre_split. destruct (_ =? _); simpl; lia.
  - lia.
Qed.

Lemma set_bucket_local_depth ht r b b' i :
  heap_ ht !! r = Some b → depth_ b' = depth_ b →
  GetLocalDepthInternal (set_bucket ht r b') i = GetLocalDepthInternal ht i.
Proof.
  intros Hb Hd. unfold GetLocalDepthInternal, bucket_at. simpl.
  case_decide; [|done].
  destruct (dir_ ht !! Z.to_nat i) as [r0|]; [|done]. simpl.
  rewrite list_lookup_insert. case_decide as Hr; [|done].
  destruct Hr as [<- _]. rewrite Hb. simpl. by rewrite Hd.
Qed.

(** X13: [GetNumBuckets()] is the number of distinct buckets the
    directory points to, in every state reached from a fresh table. *)
Theorem GetNumBuckets_counts_buckets_in_use ht :
  reachable hash ht →
  GetNumBuckets ht = Z.of_nat (size (live_buckets ht)).
Proof. apply reachable_live_count. Qed.

(** X14: the number of buckets lies between the global depth plus one
    and the number of directory slots:
    [GetGlobalDepth() < GetNumBuckets() <= 2^GetGlobalDepth()]. *)
Theorem GetNumBuckets_bounds ht :
  reachable hash ht →
  GetGlobalDepth ht + 1 <= GetNumBuckets ht ∧
  GetNumBuckets ht <= 2 ^ GetGlobalDepth ht.
Proof.
  intros Hreach. split; [by apply (reachable_depth_below_count hash)|].
  unfold GetNumBuckets, GetGlobalDepth, GetNumBucketsInternal,
    GetGlobalDepthInternal.
  rewrite (reachable_live_count hash ht Hreach).
  rewrite <-(inv_len _ _ (reachable_inv hash ht Hreach)).
  pose proof (size_list_to_set_le (dir_ ht)). unfold live_buckets. lia.
Qed.

(** X15: [GetLocalDepth(dir_index)] is defined exactly for the slots of
    the directory, [0 <= dir_index < 2^GetGlobalDepth()] (outside it the
    vector is indexed out of range), and the local depth it returns lies
    between 0 and the global depth. *)
Theorem GetLocalDepth_defined_on_slots ht dir_index :
  reachable hash ht →
  (is_Some (GetLocalDepth ht dir_index)
   ↔ 0 <= dir_index < 2 ^ GetGlobalDepth ht) ∧
  (∀ d, GetLocalDepth ht dir_index = Some d → 0 <= d <= GetGlobalDepth ht).
Proof.
  intros Hreach. pose proof (reachable_inv hash ht Hreach) as Hinv.
  pose proof (inv_len _ _ Hinv) as Hlen.
  unfold GetLocalDepth, GetGlobalDepth, GetLocalDepthInternal,
    GetGlobalDepthInternal.
  split; [split|].
  - intros [d Hd].
    destruct (bucket_at ht dir_index) as [[r b]|] eqn:Hat; [|done].
    apply bucket_at_inv in Hat as (Hnn & Hdir & _).
    apply lookup_lt_Some in Hdir. lia.
  - intros Hidx.
    destruct (slot_bucket hash ht dir_index Hinv Hidx) as (r & b & -> & _).
    simpl. eauto.
  - intros d Hd.
    destruct (bucket_at ht dir_index) as [[r b]|] eqn:Hat; [|done].
    simpl in Hd. injection Hd as <-.
    apply bucket_at_inv in Hat as (Hnn & Hdir & Hheap).
    destruct (inv_slot _ _ Hinv _ _ Hdir) as (b' & Hb' & Hok).
    rewrite Hheap in Hb'. injection Hb' as <-.
    apply (ok_depth _ _ _ _ Hok).
Qed.

(** X16: [Remove] never shrinks the table: whether or not it finds the
    key, the global depth, the directory, the bucket count and every
    local depth stay as they are, also when a bucket becomes empty. This
    holds in every state. *)
Theorem Remove_never_shrinks ht key ok ht' :
  Remove hash ht key = Some (ok, ht') →
  GetGlobalDepth ht' = GetGlobalDepth ht ∧
  dir_ ht' = dir_ ht ∧
  GetNumBuckets ht' = GetNumBuckets ht ∧
  bucket_size_ ht' = bucket_size_ ht ∧
  length (heap_ ht') = length (heap_ ht) ∧
  ∀ i, GetLocalDepth ht' i = GetLocalDepth ht i.
Proof.
  intros Hrem.
  destruct (target hash ht key) as [[r b]|] eqn:Ht.
  - rewrite (Remove_target hash ht key r b Ht) in Hrem.
    injection Hrem as _ <-.
    split_and!; try done.
    + simpl. apply length_insert.
    + intros i. unfold GetLocalDepth.
      apply (set_bucket_local_depth ht r b); [|done].
      unfold target in Ht. destruct (IndexOf hash ht key); [|done].
      simpl in Ht. by apply bucket_at_inv in Ht as (_ & _ & ?).
  - unfold Remove in Hrem. unfold target in Ht.
    destruct (IndexOf hash ht key); [|done]. simpl in *.
    by rewrite Ht in Hrem.
Qed.

(** X17: [Insert] splits a bucket only when it has to. If the key is in
    its bucket, or the bucket is not full, the call changes that one
    bucket and nothing else: directory, global depth and bucket count
    stay. If the key is absent and the bucket is full, the bucket count
    grows. In every case the count and the global depth do not decrease,
    and the global depth grows by no more than the bucket count. *)
Theorem Insert_splits_only_full_bucket ht key value fuel r b ht' :
  reachable hash ht → target hash ht key = Some (r, b) →
  Insert hash fuel ht key value = Some ht' →
  (is_Some (Bucket_Find (list_ b) key) ∨ IsFull b = false →
   ht' = set_bucket ht r (Bucket_Insert b key value).2 ∧
   dir_ ht' = dir_ ht ∧ GetGlobalDepth ht' = GetGlobalDepth ht ∧
   GetNumBuckets ht' = GetNumBuckets ht) ∧
  (Bucket_Find (list_ b) key = None → IsFull b = true →
   GetNumBuckets ht < GetNumBuckets ht') ∧
  GetNumBuckets ht <= GetNumBuckets ht' ∧
  GetGlobalDepth ht <= GetGlobalDepth ht' ∧
  GetGlobalDepth ht' - GetGlobalDepth ht
  <= GetNumBuckets ht' - GetNumBuckets ht.
Proof.
  intros Hreach Ht Hins. pose proof (reachable_inv hash ht Hreach) as Hinv.
  unfold Insert in Hins.
  pose proof (InsertInternal_monotone fuel ht key value ht' Hinv Hins)
    as (Hnb & Hgd & Hboth).
  unfold GetNumBuckets, GetGlobalDepth, GetNumBucketsInternal,
    GetGlobalDepthInternal.
  split_and!; try done.
  - intros Hroom.
    assert (∃ b0, Bucket_Insert b key value = (true, b0)) as [b0 Hb0].
    { destruct Hroom as [[v0 Hv0]|Hfull].
      - destruct (Bucket_Insert_present b key value v0 Hv0) as (l' & _ & ->).
        eauto.
      - destruct (Bucket_Find (list_ b) key) as [v0|] eqn:Hf.
        + destruct (Bucket_Insert_present b key value v0 Hf)
            as (l' & _ & ->). eauto.
        + rewrite Bucket_Insert_absent, Hfull by done. eauto. }
    destruct fuel as [|fuel]; [done|]. simpl in Hins.
    rewrite (insert_pass_fits hash ht key value r b b0) in Hins by done.
    simpl in Hins. injection Hins as <-. by rewrite Hb0.
  - intros Hnone Hfull.
    assert (Hb0 : Bucket_Insert b key value = (false, b)).
    { by rewrite Bucket_Insert_absent, Hfull. }
    destruct fuel as [|fuel]; [done|]. simpl in Hins.
    destruct (decide (depth_ b < 30)) as [Hlt|Hge].
    + destruct (split_step hash ht key value r b b)
        as (ht2 & Hpass & Hinv2 & _ & _ & _ & Hnb2 & _); try done.
      rewrite Hpass in Hins. simpl in Hins.
      pose proof (InsertInternal_monotone fuel ht2 key value ht' Hinv2 Hins)
        as (Hnb' & _). lia.
    + rewrite (insert_pass_full hash ht key value r b b) in Hins by done.
      by rewrite decide_False in Hins.
Qed.

Lemma filter_key_absent (l : list (K * V)) k :
  k ∉ l.*1 → filter (λ e : K * V, e.1 = k) l = [].
Proof.
  induction l as [|[k0 v0] l IH]; [done|]. simpl.
  rewrite not_elem_of_cons. intros [Hne Hk].
  rewrite filter_cons_False by (simpl; congruence). by apply IH.
Qed.

(** A key of a list with unique keys heads exactly one entry. *)
Lemma key_heads_one_entry (l : list (K * V)) k v :
  NoDup l.*1 → (k, v) ∈ l →
  length (filter (λ e : K * V, e.1 = k) l) = 1%nat.
Proof.
  induction l as [|[k0 v0] l IH]; intros Hnd Hin.
  - by apply elem_of_nil in Hin.
  - simpl in Hnd. apply NoDup_cons in Hnd as [Hk0 Hnd].
    destruct (decide (k0 = k)) as [->|Hne].
    + rewrite filter_cons_True by done. by rewrite filter_key_absent.
    + rewrite filter_cons_False by done. apply IH; [done|].
      apply elem_of_cons in Hin as [[= -> ->]|Hin]; done.
Qed.

(** X18: no entry is out of place. In a reachable table an entry stored
    in a bucket that the directory points to sits in the bucket its key
    is looked up in, so [Find] returns it; and a key is stored once: the
    bucket has exactly one entry with that key, and no other bucket that
    the directory points to has one. *)
Theorem stored_entry_is_found ht i r b k v :
  reachable hash ht →
  dir_ ht !! i = Some r → heap_ ht !! r = Some b → (k, v) ∈ list_ b →
  target hash ht k = Some (r, b) ∧
  Find hash ht k = Some (Some v) ∧
  length (filter (λ e : K * V, e.1 = k) (list_ b)) = 1%nat ∧
  ∀ i' r' b' v',
    dir_ ht !! i' = Some r' → heap_ ht !! r' = Some b' →
    (k, v') ∈ list_ b' → r' = r ∧ v' = v.
Proof.
  intros Hreach. pose proof (reachable_inv hash ht Hreach) as Hinv.
  assert (Hplace : ∀ i r b v,
    dir_ ht !! i = Some r → heap_ ht !! r = Some b → (k, v) ∈ list_ b →
    target hash ht k = Some (r, b) ∧ Bucket_Find (list_ b) k = Some v ∧
    NoDup (list_ b).*1).
  { clear i r b v. intros i r b v Hi Hb Hin.
    destruct (inv_slot _ _ Hinv i r Hi) as (b' & Hb' & Hok).
    rewrite Hb in Hb'. injection Hb' as <-.
    destruct (target_inv hash ht k Hinv)
      as (r0 & b0 & _ & Ht & Hdir & Hheap & _).
    pose proof (inv_depth _ _ Hinv) as Hgd.
    destruct (ok_depth _ _ _ _ Hok) as [Hd0 Hdg].
    pose proof (low_bits_range (global_depth_ ht) (hash k)) as Hrange.
    pose proof (inv_share _ _ Hinv i
                  (Z.to_nat (low_bits (global_depth_ ht) (hash k))) r b
                  Hi Hb) as Hsh.
    rewrite Z2Nat.id in Hsh by lia.
    assert (Hr0 : dir_ ht !! Z.to_nat (low_bits (global_depth_ ht) (hash k))
                  = Some r).
    { apply Hsh.
      - by eapply lookup_lt_Some.
      - rewrite low_bits_nested by lia.
        symmetry. by apply (ok_keys _ _ _ _ Hok k v). }
    rewrite Hdir in Hr0. injection Hr0 as ->.
    rewrite Hb in Hheap. injection Hheap as <-.
    split_and!; [done| |apply (ok_nodup _ _ _ _ Hok)].
    by apply Bucket_Find_NoDup; [apply (ok_nodup _ _ _ _ Hok)|]. }
  intros Hi Hb Hin.
  destruct (Hplace i r b v Hi Hb Hin) as (Ht & Hf & Hnd).
  split_and!; [done| | |].
  - rewrite Find_target, Ht. simpl. by rewrite Hf.
  - by eapply key_heads_one_entry.
  - intros i' r' b' v' Hi' Hb' Hin'.
    destruct (Hplace i' r' b' v' Hi' Hb' Hin') as (Ht' & Hf' & _).
    rewrite Ht in Ht'. injection Ht' as <- <-. split; [done|congruence].
Qed.

End TableMore.

Section Counting.

Lemma filter_ext_in {A} (P Q : A → Prop) `{∀ x, Decision (P x)}
    `{∀ x, Decision (Q x)} (l : list A) :
  (∀ x, x ∈ l → (P x ↔ Q x)) → filter P l = filter Q l.
Proof.
  induction l as [|x l IH]; intros Hext; [done|].
  rewrite !filter_cons.
  assert (HPQ : P x ↔ Q x) by (apply Hext; by left).
  rewrite IH by (intros y Hy; apply Hext; by right).
  destruct (decide (P x)), (decide (Q x)); tauto.
Qed.

Lemma filter_eq_notin (x : nat) (l : list nat) :
  x ∉ l → filter (λ y, y = x) l = [].
Proof.
  induction l as [|y l IH]; [done|]. rewrite not_elem_of_cons.
  intros [Hne Hx]. rewrite filter_cons_False by congruence. by apply IH.
Qed.

Lemma filter_eq_once (x : nat) (l : list nat) :
  NoDup l → x ∈ l → length (filter (λ y, y = x) l) = 1%nat.
Proof.
  induction 1 as [|y l Hy Hl IH]; intros Hx.
  - by apply elem_of_nil in Hx.
  - destruct (decide (y = x)) as [->|Hne].
    + rewrite filter_cons_True by done.
      by rewrite filter_eq_notin.
    + rewrite filter_cons_False by done. apply IH.
      apply elem_of_cons in Hx as [?|?]; [congruence|done].
Qed.

(** Among [m] consecutive numbers starting at a multiple of [m] exactly
    one has remainder [c]. *)
Lemma count_mod_block (m c a : nat) :
  (c < m)%nat →
  length (filter (λ j, j `mod` m = c)%nat (seq (m * a) m)) = 1%nat.
Proof.
  intros Hc.
  rewrite (filter_ext_in _ (λ j, j = (m * a + c)%nat)).
  - apply filter_eq_once; [apply NoDup_seq|]. apply elem_of_seq. lia.
  - intros j Hj. apply elem_of_seq in Hj.
    assert (Hmod : (j `mod` m = j - m * a)%nat).
    { symmetry. apply (Nat.mod_unique j m a); lia. }
    rewrite Hmod. lia.
Qed.

(** Among the first [m * n] numbers exactly [n] have remainder [c]. *)
Lemma count_mod (m c n : nat) :
  (c < m)%nat →
  length (filter (λ j, j `mod` m = c)%nat (seq 0 (m * n))) = n.
Proof.
  intros Hc. induction n as [|n IH].
  - by rewrite Nat.mul_0_r.
  - replace (m * S n)%nat with (m * n + m)%nat by lia.
    rewrite seq_app, filter_app, length_app, IH. simpl.
    rewrite count_mod_block by done. lia.
Qed.

End Counting.

Section TableFanout.
Import HashTable.
Context {K V : Type} `{EqDecision K} (hash : K → Z).
Abbreviation table := (@ExtendibleHashTable K V).
Abbreviation bucket := (@Bucket K V).
Implicit Types (ht : table) (b : bucket) (key : K) (value : V).

(** X19: a bucket of local depth [d] is pointed to by exactly
    [2^(global depth - d)] directory slots. *)
Theorem slots_per_bucket ht i r b :
  reachable hash ht → dir_ ht !! i = Some r → heap_ ht !! r = Some b →
  Z.of_nat (length (filter (λ j, dir_ ht !! j = Some r)
                      (seq 0 (length (dir_ ht)))))
  = 2 ^ (GetGlobalDepth ht - depth_ b).
Proof.
  intros Hreach Hi Hb. pose proof (reachable_inv hash ht Hreach) as Hinv.
  pose proof (inv_len _ _ Hinv) as Hlen.
  pose proof (inv_depth _ _ Hinv) as Hgd.
  destruct (inv_slot _ _ Hinv i r Hi) as (b' & Hb' & Hok).
  rewrite Hb in Hb'. injection Hb' as <-.
  destruct (ok_depth _ _ _ _ Hok) as [Hd0 Hdg].
  unfold GetGlobalDepth, GetGlobalDepthInternal.
  set (d := depth_ b) in *. set (g := global_depth_ ht) in *.
  set (m := Z.to_nat (2 ^ d)).
  set (n := Z.to_nat (2 ^ (g - d))).
  set (c := Z.to_nat (low_bits d (Z.of_nat i))).
  assert (Hm : 0 < 2 ^ d) by (apply Z.pow_pos_nonneg; lia).
  assert (Hn : 0 < 2 ^ (g - d)) by (apply Z.pow_pos_nonneg; lia).
  pose proof (low_bits_range d (Z.of_nat i) Hd0) as Hc.
  assert (Hmn : length (dir_ ht) = (m * n)%nat).
  { apply Nat2Z.inj. rewrite Hlen, Nat2Z.inj_mul. unfold m, n.
    rewrite !Z2Nat.id by lia. rewrite <-Z.pow_add_r by lia.
    f_equal. lia. }
  rewrite (filter_ext_in _ (λ j, j `mod` m = c)%nat).
  - rewrite Hmn, count_mod by (unfold c, m; lia). unfold n. lia.
  - intros j Hj. apply elem_of_seq in Hj as [_ Hj]. simpl in Hj.
    rewrite (inv_share _ _ Hinv i j r b Hi Hb Hj). fold d.
    rewrite (low_bits_mod d (Z.of_nat j)) by done.
    assert (Hjm : Z.of_nat j mod 2 ^ d = Z.of_nat (j `mod` m)).
    { rewrite Nat2Z.inj_mod. unfold m. by rewrite Z2Nat.id by lia. }
    rewrite Hjm. unfold c. split.
    + intros Heq. rewrite Heq. by rewrite Nat2Z.id.
    + intros Heq. rewrite Heq. rewrite Z2Nat.id by lia. done.
Qed.

End TableFanout.

Section TableMoreExamples.
Import HashTable.

Lemma GetNumBuckets_counts_buckets_in_use_witness :
  GetNumBuckets three_keys = Z.of_nat (size (live_buckets three_keys)).
Proof.
  apply (GetNumBuckets_counts_buckets_in_use hash_int three_keys
           three_keys_reachable).
Defined.

Lemma GetNumBuckets_bounds_witness :
  GetGlobalDepth three_keys + 1 <= GetNumBuckets three_keys ∧
  GetNumBuckets three_keys <= 2 ^ GetGlobalDepth three_keys.
Proof.
  apply (GetNumBuckets_bounds hash_int three_keys three_keys_reachable).
Defined.

Lemma GetLocalDepth_defined_on_slots_witness :
  is_Some (GetLocalDepth three_keys 3)
  ↔ 0 <= 3 < 2 ^ GetGlobalDepth three_keys.
Proof.
  apply (GetLocalDepth_defined_on_slots hash_int three_keys 3
           three_keys_reachable).
Defined.

Lemma Remove_never_shrinks_witness :
  ∃ ht', Remove hash_int three_keys 2 = Some (true, ht') ∧
         dir_ ht' = dir_ three_keys ∧
         GetNumBuckets ht' = GetNumBuckets three_keys.
Proof.
  eexists. split; [reflexivity|].
  split; eapply (Remove_never_shrinks hash_int three_keys 2 true);
    reflexivity.
Defined.

Lemma Insert_splits_only_full_bucket_witness :
  GetNumBuckets two_keys < GetNumBuckets three_keys.
Proof.
  apply (Insert_splits_only_full_bucket hash_int two_keys 4 14 3%nat 0%nat
           (mkBucket 2 0 [(0, 10); (2, 12)]) three_keys two_keys_reachable);
    reflexivity.
Defined.

Lemma stored_entry_is_found_witness :
  Find hash_int three_keys 4 = Some (Some 14).
Proof.
  apply (stored_entry_is_found hash_int three_keys 0%nat 3%nat
           (mkBucket 2 2 [(0, 10); (4, 14)]) 4 14 three_keys_reachable).
  - reflexivity.
  - reflexivity.
  - set_solver.
Defined.

Lemma slots_per_bucket_witness :
  Z.of_nat (length (filter (λ j, dir_ three_keys !! j = Some 2%nat)
                      (seq 0 (length (dir_ three_keys)))))
  = 2 ^ (GetGlobalDepth three_keys - 1).
Proof.
  apply (slots_per_bucket hash_int three_keys 1%nat 2%nat (mkBucket 2 1 [])
           three_keys_reachable); reflexivity.
Defined.

End TableMoreExamples.

Section HalfWay.
Import HashTable.

(** C9 (as stated): a call can change the state without completing. On
    the reachable table of capacity 1 that holds key 0, [Insert] of the
    key 2^30 never returns, whatever the depth of recursion allowed; yet
    its first pass through [InsertInternal] has already doubled the
    directory and split the bucket, so that the members are no longer the
    ones before the call. *)
Lemma Insert_changes_table_without_completing :
  reachable hash_int one_key ∧
  (∃ ht2, insert_pass hash_int one_key (2 ^ 30) 11 = Some (inr ht2) ∧
          GetGlobalDepthInternal one_key = 0 ∧
          GetGlobalDepthInternal ht2 = 1 ∧
          GetNumBucketsInternal one_key = 1 ∧
          GetNumBucketsInternal ht2 = 2 ∧
          length (dir_ one_key) = 1%nat ∧ length (dir_ ht2) = 2%nat) ∧
  (¬ ∃ fuel ht', Insert hash_int fuel one_key (2 ^ 30) 11 = Some ht').
Proof.
  split_and!.
  - apply one_key_reachable.
  - eexists. split; [by vm_compute|]. by split_and!.
  - intros (fuel & ht' & Hins).
    rewrite (InsertInternal_stuck hash_int fuel one_key (2 ^ 30) 11 0%nat
               (mkBucket 1 0 [(0, 10)])) in Hins; [done| |reflexivity|].
    + apply reachable_inv, one_key_reachable.
    + split_and!; [done..|]. intros k v Hin.
      apply list_elem_of_singleton in Hin as [= -> ->]. by vm_compute.
Qed.

End HalfWay.

Section CompleteOrNothing.
Context {K V : Type} `{EqDecision K} (hash : K → Z).

(** C9 (amended): a call that returns has changed nothing or has done all
    of its work. In a reachable replacer [RecordAccess] leaves the state
    as it was (rejected frame) or the state after the whole access;
    [SetEvictable] and [Remove] do the same for their effect; [Evict]
    returns false, stores nothing and leaves the state as it was, or
    returns true with the chosen frame dropped. In a reachable table
    [Remove] returns false and leaves the table as it was, or returns true
    with the key gone and every other key as before; an [Insert] that
    returns has stored the entry, left every other key as before and left
    the directory consistent. An [Insert] that finds its bucket full of
    entries that cannot be split from the key does not return, and
    unless the bucket is already 30 deep it has split the bucket by then.
    The calls that report failure or take a no-op path change nothing in
    any state. *)
Theorem calls_complete_or_change_nothing :
  (∀ st f st', Replacer.reachable st →
     Replacer.RecordAccess st f = Some st' →
     st' = if Replacer.rejected st f then st
           else Replacer.after_access st f) ∧
  (∀ st f flag, Replacer.reachable st →
     Replacer.SetEvictable st f flag
     = Some (match Replacer.frame_entities_ st !! f with
             | Some e => Replacer.after_set st f flag e
             | None => st
             end)) ∧
  (∀ st f, Replacer.reachable st →
     Replacer.Remove st f
     = Some (match Replacer.frame_entities_ st !! f with
             | Some e => if Replacer.evictable_ e
                         then Replacer.after_drop st f else st
             | None => st
             end)) ∧
  (∀ st r, Replacer.reachable st → Replacer.Evict st = Some r →
     r = Replacer.mkEvict false None st ∨
     ∃ f, r = Replacer.mkEvict true (Some f) (Replacer.after_drop st f) ∧
          Replacer.victim st f) ∧
  (∀ (ht : @HashTable.ExtendibleHashTable K V) key,
     HashTable.reachable hash ht →
     ∃ ok ht', HashTable.Remove hash ht key = Some (ok, ht') ∧
       (ok = false → ht' = ht) ∧
       (ok = true →
        (∃ v, HashTable.Find hash ht key = Some (Some v)) ∧
        HashTable.Find hash ht' key = Some None ∧
        (∀ k, k ≠ key →
              HashTable.Find hash ht' k = HashTable.Find hash ht k) ∧
        HashTable.table_inv hash ht')) ∧
  (∀ (ht : @HashTable.ExtendibleHashTable K V) fuel key value ht',
     HashTable.reachable hash ht →
     HashTable.Insert hash fuel ht key value = Some ht' →
     HashTable.Find hash ht' key = Some (Some value) ∧
     (∀ k, k ≠ key →
           HashTable.Find hash ht' k = HashTable.Find hash ht k) ∧
     HashTable.table_inv hash ht') ∧
  (∀ (ht : @HashTable.ExtendibleHashTable K V) key value r b,
     HashTable.reachable hash ht →
     HashTable.target hash ht key = Some (r, b) →
     ¬ HashTable.insertable hash b key →
     (∀ fuel, HashTable.Insert hash fuel ht key value = None) ∧
     (HashTable.depth_ b < 30 →
      ∃ ht2, HashTable.insert_pass hash ht key value = Some (inr ht2) ∧
             HashTable.num_buckets_ ht2 = HashTable.num_buckets_ ht + 1)) ∧
  (∀ st r, Replacer.Evict st = Some r → Replacer.ev_ret r = false →
           Replacer.ev_post r = st) ∧
  (∀ (ht : @HashTable.ExtendibleHashTable K V) key ht',
     HashTable.Remove hash ht key = Some (false, ht') → ht' = ht) ∧
  (∀ st f, Replacer.rejected st f = true →
           Replacer.RecordAccess st f = Some st) ∧
  (∀ st f flag,
     Replacer.rejected st f = true ∨
     Replacer.frame_entities_ st !! f = None →
     Replacer.SetEvictable st f flag = Some st) ∧
  (∀ st f,
     Replacer.rejected st f = true ∨
     Replacer.frame_entities_ st !! f = None ∨
     (∃ e, Replacer.frame_entities_ st !! f = Some e ∧
           Replacer.evictable_ e = false) →
     Replacer.Remove st f = Some st).
Proof.
  split_and!.
  - intros st f st' Hreach Hst.
    pose proof (step_shape st (Replacer.OpRecordAccess f) st'
                  (reachable_wf st Hreach) Hst) as Hshape.
    simpl in Hshape. by destruct (Replacer.rejected st f).
  - intros st f flag Hreach. pose proof (reachable_wf st Hreach) as Hwf.
    destruct (Replacer.frame_entities_ st !! f) as [e|] eqn:Hf.
    + apply SetEvictable_tracked; [done| |done].
      apply tracked_accepted; eauto.
    + unfold Replacer.SetEvictable. rewrite Hf.
      by destruct (Replacer.rejected st f).
  - intros st f Hreach. pose proof (reachable_wf st Hreach) as Hwf.
    destruct (Replacer.frame_entities_ st !! f) as [e|] eqn:Hf.
    + destruct (Replacer.evictable_ e) eqn:Hev.
      * apply (Remove_tracked st f e); try done.
        apply tracked_accepted; eauto.
      * unfold Replacer.Remove. rewrite Hf, Hev. simpl.
        by destruct (Replacer.rejected st f).
    + unfold Replacer.Remove. rewrite Hf.
      by destruct (Replacer.rejected st f).
  - intros st r Hreach Hr.
    destruct (Evict_cases st r (reachable_wf st Hreach) Hr)
      as [[_ ->]|(f & e & -> & Hv & _)]; [by left|right; eauto].
  - intros ht key Hreach.
    destruct (Remove_spec hash ht key (reachable_inv hash ht Hreach))
      as (ok & ht' & Hrem & Hinv' & Hok & Hnone & Hother & _).
    exists ok, ht'. split_and!; try done.
    + intros ->. by eapply Remove_false.
    + intros ->. split_and!; try done. by apply Hok.
  - intros ht fuel key value ht' Hreach Hins.
    destruct (InsertInternal_spec hash fuel ht key value ht'
                (reachable_inv hash ht Hreach) Hins)
      as (Hinv' & Hf & Hother & _).
    by split_and!.
  - intros ht key value r b Hreach Ht Hno.
    pose proof (reachable_inv hash ht Hreach) as Hinv.
    pose proof (not_insertable_stuck hash b key Hno) as Hstuck.
    split.
    + intros fuel. by apply (InsertInternal_stuck hash fuel ht key value r b).
    + intros Hlt. destruct Hstuck as (Hnone & Hfull & _).
      destruct (split_step hash ht key value r b b)
        as (ht2 & Hpass & _ & _ & _ & _ & Hnb & _); try done.
      * by rewrite Bucket_Insert_absent, Hfull.
      * eauto.
  - intros st r Hr Hret.
    unfold Replacer.Evict, Replacer.evict_from, Replacer.evict_fail in Hr.
    repeat (case_match; simplify_option_eq); done.
  - intros ht key ht'. apply Remove_false.
  - intros st f Hrej. unfold Replacer.RecordAccess. by rewrite Hrej.
  - intros st f flag Hcase. unfold Replacer.SetEvictable.
    destruct (Replacer.rejected st f); [done|].
    destruct Hcase as [?|Hnone]; [done|]. by rewrite Hnone.
  - intros st f Hcase. unfold Replacer.Remove.
    destruct (Replacer.rejected st f); [done|].
    destruct Hcase as [?|[Hnone|(e & He & Hev)]]; [done| |].
    + by rewrite Hnone.
    + by rewrite He, Hev.
Qed.

End CompleteOrNothing.
